(** * LRU cache (lru_cache.h): shallow embedding and verification

    The C++ source keeps heap-allocated [LRUHandle] records, a
    [std::list<LRUHandle*>] ordered from most to least recently used, and a
    [std::unordered_map<Key, list::iterator>].  The embedding keeps all three
    explicit:

    - the free store is a finite map from addresses to handles, together with
      a counter from which [new] takes addresses that were never used;
    - a list node is a pair (node address, handle pointer); a list iterator
      is the address of its node, so an iterator is valid exactly while its
      node is in the list;
    - the table maps keys to iterators.

    Reading through a pointer that is not in the free store, or through an
    iterator whose node was erased, has no defined meaning in C++; the
    embedding returns [UB] there.  Assertions are compiled in: a failed
    [assert] returns [AssertFail].  [size_t] is taken to be 64 bits wide, and
    its values are integers with the wrap-around modulo 2^64 written out.

    Contents: the embedding ([LRU], [SharedLRUCache]); the vocabulary of
    the properties (call sequences, charges, invariants, recency, tidy
    caches, histories); facts about the member functions; the properties
    themselves, each under the identifier of the statement of the
    specification it settles (C1 to C10); further properties of the member
    functions and of the sharded cache (X1 to X25), among them the
    destructor, [Erase], [Debug] and [set_capacity]. *)

From stdpp Require Import gmap strings list fin_maps sorting.
From Stdlib Require Import ZArith Lia.

Open Scope Z_scope.

(** ** Machine integers *)

Definition SIZE_MOD : Z := 2 ^ 64.

Definition wrap (x : Z) : Z := x mod SIZE_MOD.

Definition in_size_t (x : Z) : Prop := 0 <= x < SIZE_MOD.

(** ** Outcomes of a call *)

Inductive Res (A : Type) : Type :=
  | Ok (a : A)
  | AssertFail
  | UB.

Arguments Ok {A} a.
Arguments AssertFail {A}.
Arguments UB {A}.

Module LRU.

Section Cache.

Context {Key : Type} `{Countable Key} {Value : Type}.

(** ** Data model *)

(** [struct LRUHandle]. *)
Record LRUHandle : Type := mkHandle {
  key : Key;
  value : Value;
  refs : Z;
  charge : Z
}.

(** The free store: live handles by address, and the next unused address.
    List nodes take their addresses from the same counter. *)
Record Heap : Type := mkHeap {
  objs : gmap positive LRUHandle;
  brk : positive
}.

(** [class LRUCache]: [lru_] lists (iterator, handle pointer) pairs, front
    first; [table_] maps a key to the iterator stored for it. *)
Record LRUCache : Type := mkCache {
  usage_ : Z;
  capacity_ : Z;
  lru_ : list (positive * positive);
  table_ : gmap Key positive
}.

Record World : Type := mkWorld {
  mem : Heap;
  this : LRUCache
}.

(** ** A state-and-failure monad for member functions *)

Definition M (A : Type) : Type := World -> Res (A * World).

Definition ret {A} (a : A) : M A := fun w => Ok (a, w).

Definition bind {A B} (m : M A) (f : A -> M B) : M B :=
  fun w => match m w with
           | Ok (a, w') => f a w'
           | AssertFail => AssertFail
           | UB => UB
           end.

Definition undefined {A} : M A := fun _ => UB.

Definition massert (b : bool) : M unit :=
  fun w => if b then Ok (tt, w) else AssertFail.

Definition get : M World := fun w => Ok (w, w).

Definition put (w : World) : M unit := fun _ => Ok (tt, w).

#[global] Instance M_ret : MRet M := @ret.
#[global] Instance M_bind : MBind M := fun A B f m => bind m f.

(** ** Free store *)

(** [new LRUHandle(k, v, c)]: [refs] starts at 2. *)
Definition new_handle (k : Key) (v : Value) (c : Z) : M positive :=
  fun w =>
    let p := brk (mem w) in
    Ok (p, mkWorld (mkHeap (<[p := mkHandle k v 2 c]> (objs (mem w))) (Pos.succ p))
                   (this w)).

(** Reading through a handle pointer. *)
Definition load (p : positive) : M LRUHandle :=
  fun w => match objs (mem w) !! p with
           | Some h => Ok (h, w)
           | None => UB
           end.

Definition set_refs (p : positive) (r : Z) : M unit :=
  fun w => match objs (mem w) !! p with
           | Some h =>
               Ok (tt, mkWorld (mkHeap (<[p := mkHandle (key h) (value h) r (charge h)]>
                                          (objs (mem w))) (brk (mem w)))
                               (this w))
           | None => UB
           end.

(** [delete handle]. *)
Definition delete_handle (p : positive) : M unit :=
  fun w => match objs (mem w) !! p with
           | Some _ =>
               Ok (tt, mkWorld (mkHeap (delete p (objs (mem w))) (brk (mem w))) (this w))
           | None => UB
           end.

(** ** The list [lru_] *)

Fixpoint node_ptr (it : positive) (l : list (positive * positive)) : option positive :=
  match l with
  | [] => None
  | n :: l' => if decide (n.1 = it) then Some n.2 else node_ptr it l'
  end.

Definition drop_node (it : positive) (l : list (positive * positive))
  : list (positive * positive) :=
  filter (fun n => n.1 <> it) l.

Definition with_lru (l : list (positive * positive)) (w : World) : World :=
  mkWorld (mem w) (mkCache (usage_ (this w)) (capacity_ (this w)) l (table_ (this w))).

Definition with_table (t : gmap Key positive) (w : World) : World :=
  mkWorld (mem w) (mkCache (usage_ (this w)) (capacity_ (this w)) (lru_ (this w)) t).

Definition with_usage_cache (u : Z) (c : LRUCache) : LRUCache :=
  mkCache u (capacity_ c) (lru_ c) (table_ c).

Definition with_usage (u : Z) (w : World) : World :=
  mkWorld (mem w) (with_usage_cache u (this w)).

(** [*it]: the iterator must still designate a node of the list. *)
Definition list_deref (it : positive) : M positive :=
  fun w => match node_ptr it (lru_ (this w)) with
           | Some p => Ok (p, w)
           | None => UB
           end.

(** [lru_.erase(it)]. *)
Definition list_erase (it : positive) : M unit :=
  fun w => match node_ptr it (lru_ (this w)) with
           | Some _ => Ok (tt, with_lru (drop_node it (lru_ (this w))) w)
           | None => UB
           end.

(** [lru_.insert(lru_.begin(), handle)]: a new node, whose iterator is
    returned. *)
Definition list_insert_front (handle : positive) : M positive :=
  fun w =>
    let it := brk (mem w) in
    Ok (it, mkWorld (mkHeap (objs (mem w)) (Pos.succ it))
                    (mkCache (usage_ (this w)) (capacity_ (this w))
                             ((it, handle) :: lru_ (this w)) (table_ (this w)))).

(** [it != lru_.begin()]. *)
Definition not_begin (it : positive) : M bool :=
  fun w => match lru_ (this w) with
           | n :: _ => Ok (bool_decide (it <> n.1), w)
           | [] => Ok (true, w)
           end.

(** [lru_.back()]. *)
Definition list_back : M positive :=
  fun w => match last (lru_ (this w)) with
           | Some n => Ok (n.2, w)
           | None => UB
           end.

(** [lru_.pop_back()]. *)
Definition list_pop_back : M unit :=
  fun w => match lru_ (this w) with
           | [] => UB
           | l => Ok (tt, with_lru (removelast l) w)
           end.

(** ** The table [table_] *)

Definition table_find (k : Key) : M (option positive) :=
  fun w => Ok (table_ (this w) !! k, w).

Definition table_erase (k : Key) : M unit :=
  fun w => Ok (tt, with_table (delete k (table_ (this w))) w).

(** [table_.insert(make_pair(key, pos)).second]. *)
Definition table_insert (k : Key) (pos : positive) : M bool :=
  fun w => match table_ (this w) !! k with
           | Some _ => Ok (false, w)
           | None => Ok (true, with_table (<[k := pos]> (table_ (this w))) w)
           end.

(** ** Member functions of [LRUCache] *)

(** [LRUCache()]. *)
Definition LRUCache_new : LRUCache := mkCache 0 0 [] ∅.

Definition set_capacity (capacity : Z) (c : LRUCache) : LRUCache :=
  mkCache (usage_ c) capacity (lru_ c) (table_ c).

(** [Release], lines 139-149.  [None] is the null pointer. *)
Definition Release (handle : option positive) : M unit :=
  match handle with
  | None => undefined
  | Some p =>
      h ← load p;
      massert (bool_decide (0 < refs h));;
      let r := wrap (refs h - 1) in
      set_refs p r;;
      if bool_decide (r = 0) then
        w ← get;
        put (with_usage (wrap (usage_ (this w) - charge h)) w);;
        delete_handle p
      else mret tt
  end.

(** The body of the [while] loop of [Insert], lines 111-114. *)
Definition evict_one : M unit :=
  back ← list_back;
  h ← load back;
  table_erase (key h);;
  list_pop_back;;
  Release (Some back).

(** The [while] loop of [Insert], lines 109-115.  Every iteration pops one
    node, so [length lru_] iterations always suffice. *)
Fixpoint evict_loop (fuel : nat) : M unit :=
  match fuel with
  | O => mret tt
  | S fuel' =>
      w ← get;
      if bool_decide (capacity_ (this w) < usage_ (this w))
         && negb (bool_decide (lru_ (this w) = []))
      then evict_one;; evict_loop fuel'
      else mret tt
  end.

(** [Insert], lines 86-117.  The [assert(handle != nullptr)] of line 91
    cannot fail on the result of [new]; the [assert(false)] of line 105 is
    reached when the key is still in the table. *)
Definition Insert (k : Key) (v : Value) (c : Z) : M positive :=
  handle ← new_handle k v c;
  iter ← table_find k;
  match iter with
  | Some it =>
      list_erase it;;
      table_erase k;;
      old ← list_deref it;
      Release (Some old)
  | None => mret tt
  end;;
  pos ← list_insert_front handle;
  inserted ← table_insert k pos;
  massert inserted;;
  w ← get;
  put (with_usage (wrap (usage_ (this w) + c)) w);;
  w ← get;
  evict_loop (length (lru_ (this w)));;
  mret handle.

(** [Lookup], lines 119-137. *)
Definition Lookup (k : Key) : M (option positive) :=
  iter ← table_find k;
  match iter with
  | None => mret None
  | Some it =>
      handle ← list_deref it;
      moved ← not_begin it;
      (if moved : bool then
         list_erase it;;
         _ ← list_insert_front handle;
         mret tt
       else mret tt);;
      h ← load handle;
      set_refs handle (wrap (refs h + 1));;
      mret (Some handle)
  end.

(** [Erase], lines 151-162. *)
Definition Erase (k : Key) : M unit :=
  iter ← table_find k;
  match iter with
  | Some it =>
      p ← list_deref it;
      Release (Some p);;
      list_erase it;;
      table_erase k
  | None => mret tt
  end.

(** The body of the range-for in [Prune], for one element. *)
Definition prune_one (p : positive) : M unit :=
  h ← load p;
  if bool_decide (refs h = 1) then
    iter ← table_find (key h);
    match iter with
    | Some _ => table_erase (key h)
    | None => mret tt
    end;;
    Release (Some p)
  else mret tt.

Fixpoint for_each (l : list (positive * positive)) (body : positive -> M unit) : M unit :=
  match l with
  | [] => mret tt
  | n :: l' => body n.2;; for_each l' body
  end.

(** [Prune], lines 164-179: the loop never changes [lru_]. *)
Definition Prune : M unit :=
  w ← get;
  for_each (lru_ (this w)) prune_one.

(** [~LRUCache()]. *)
Definition Destroy : M unit :=
  w ← get;
  for_each (lru_ (this w)) (fun p => Release (Some p)).

(** ** [Debug] *)

(** What [operator<<] sends to [std::cout]: a string literal, a [size_t],
    a key, or [std::endl]. *)
Inductive Out : Type :=
  | OutStr (s : string)
  | OutSize (n : Z)
  | OutKey (k : Key)
  | OutEndl.

(** The line written for one element of the list, line 82. *)
Definition debug_line (h : LRUHandle) : list Out :=
  [OutStr "Key:"; OutKey (key h); OutStr " refs: "; OutSize (refs h);
   OutStr " charge: "; OutSize (charge h); OutEndl].

Definition debug_one (p : positive) : M (list Out) :=
  h ← load p;
  mret (debug_line h).

(** A range-for whose body writes; the result is everything written. *)
Fixpoint for_each_out (l : list (positive * positive))
    (body : positive -> M (list Out)) : M (list Out) :=
  match l with
  | [] => mret []
  | n :: l' => o ← body n.2; os ← for_each_out l' body; mret (o ++ os)
  end.

(** The two lines written before the loop, lines 77-78. *)
Definition debug_header (c : LRUCache) : list Out :=
  [OutStr "Usage :"; OutSize (usage_ c); OutEndl;
   OutStr "Capacity : "; OutSize (capacity_ c); OutEndl].

(** [Debug], lines 74-84. *)
Definition Debug : M (list Out) :=
  w ← get;
  os ← for_each_out (lru_ (this w)) debug_one;
  mret (debug_header (this w) ++ os).

End Cache.

Arguments LRUHandle : clear implicits.
Arguments Out : clear implicits.
Arguments Heap : clear implicits.
Arguments LRUCache Key {_ _}.
Arguments World Key {_ _} Value.
Arguments M Key {_ _} Value A.

End LRU.

(** ** [class SharedLRUCache] *)

Module SharedLRUCache.

Section Shared.

Context {Key : Type} `{Countable Key} {Value : Type}.

(** [std::hash<Key>], which the key type has to supply. *)
Variable hash : Key -> Z.

Definition kNumShardBits : Z := 4.
Definition kNumShards : Z := Z.shiftl 1 kNumShardBits.

(** The sharded cache: the array [shard_] of caches, over the one free
    store all of them allocate from. *)
Record SharedWorld : Type := mkShared {
  smem : LRU.Heap Key Value;
  shard_ : list (LRU.LRUCache Key)
}.

Definition SM (A : Type) : Type := SharedWorld -> Res (A * SharedWorld).

Definition HashSlice (k : Key) : Z := hash k.

(** [hash % kNumShards]. *)
Definition Shard (h : Z) : nat := Z.to_nat (h mod kNumShards).

(** [size_t per_capacity = (capacity + kNumShards - 1) / kNumShards]. *)
Definition per_capacity (capacity : Z) : Z :=
  wrap (wrap (capacity + kNumShards) - 1) / kNumShards.

(** [SharedLRUCache(capacity)], lines 188-195. *)
Definition init (capacity : Z) : list (LRU.LRUCache Key) :=
  foldl (fun shards idx => alter (LRU.set_capacity (per_capacity capacity)) idx shards)
        (replicate (Z.to_nat kNumShards) LRU.LRUCache_new)
        (seq 0 (Z.to_nat kNumShards)).

(** [shard_[i].f(...)]. *)
Definition on_shard {A} (i : nat) (m : LRU.M Key Value A) : SM A :=
  fun r =>
    match shard_ r !! i with
    | None => UB
    | Some c =>
        match m (LRU.mkWorld (smem r) c) with
        | Ok (a, w') => Ok (a, mkShared (LRU.mem w') (<[i := LRU.this w']> (shard_ r)))
        | AssertFail => AssertFail
        | UB => UB
        end
    end.

Definition Insert (k : Key) (v : Value) (c : Z) : SM positive :=
  on_shard (Shard (HashSlice k)) (LRU.Insert k v c).

Definition LookUp (k : Key) : SM (option positive) :=
  on_shard (Shard (HashSlice k)) (LRU.Lookup k).

(** [HashSlice(handle->key)]: the key is read through the handle. *)
Definition Release (handle : option positive) : SM unit :=
  fun r =>
    match handle with
    | None => UB
    | Some p =>
        match LRU.objs (smem r) !! p with
        | None => UB
        | Some h => on_shard (Shard (HashSlice (LRU.key h))) (LRU.Release handle) r
        end
    end.

Definition Erase (k : Key) : SM unit :=
  on_shard (Shard (HashSlice k)) (LRU.Erase k).

(** [Prune], lines 221-227: every shard in turn. *)
Definition Prune : SM unit :=
  fun r =>
    foldl (fun acc idx => match acc with
                          | Ok (_, r') => on_shard idx LRU.Prune r'
                          | AssertFail => AssertFail
                          | UB => UB
                          end)
          (Ok (tt, r)) (seq 0 (Z.to_nat kNumShards)).

(** What [Debug] writes around the lines of shard [idx], lines 232-235. *)
Definition debug_shard (idx : nat) (o : list (LRU.Out Key)) : list (LRU.Out Key) :=
  [LRU.OutStr "Shard: "; LRU.OutSize (Z.of_nat idx); LRU.OutEndl] ++ o ++ [LRU.OutEndl].

(** [Debug], lines 228-237. *)
Definition Debug : SM (list (LRU.Out Key)) :=
  fun r =>
    foldl (fun acc idx => match acc with
                          | Ok (out, r') =>
                              match on_shard idx LRU.Debug r' with
                              | Ok (o, r'') => Ok (out ++ debug_shard idx o, r'')
                              | AssertFail => AssertFail
                              | UB => UB
                              end
                          | AssertFail => AssertFail
                          | UB => UB
                          end)
          (Ok ([], r)) (seq 0 (Z.to_nat kNumShards)).

End Shared.

Arguments SharedWorld Key {_ _} Value.

End SharedLRUCache.

Import LRU.

(** * Specification vocabulary *)

Section Spec.

Context {Key : Type} `{Countable Key} {Value : Type}.

Implicit Types (w : World Key Value) (h : LRUHandle Key Value).

(** ** Sequences of calls on one cache *)

Inductive Op : Type :=
  | OInsert (k : Key) (v : Value) (c : Z)
  | OLookup (k : Key)
  | ORelease (handle : option positive)
  | OErase (k : Key)
  | OPrune.

(** One call; the result is the handle it returns, if any. *)
Definition step (op : Op) : M Key Value (option positive) :=
  match op with
  | OInsert k v c => handle ← Insert k v c; mret (Some handle)
  | OLookup k => Lookup k
  | ORelease handle => Release handle;; mret None
  | OErase k => Erase k;; mret None
  | OPrune => Prune;; mret None
  end.

Fixpoint run (ops : list Op) : M Key Value (list (option positive)) :=
  match ops with
  | [] => mret []
  | op :: ops' => r ← step op; rs ← run ops'; mret (r :: rs)
  end.

(** A cache just constructed with the given capacity, on an empty store. *)
Definition fresh_world (capacity : Z) : World Key Value :=
  mkWorld (mkHeap ∅ 1%positive) (set_capacity capacity LRUCache_new).

(** ** Charges *)

(** Sum of the charges of the handles not yet deleted. *)
Definition total_charge (m : gmap positive (LRUHandle Key Value)) : Z :=
  map_fold (fun _ h acc => charge h + acc) 0 m.

Definition charges_nonneg (m : gmap positive (LRUHandle Key Value)) : Prop :=
  forall p h, m !! p = Some h -> 0 <= charge h.

(** An entry is registered (reachable by key) when the table sends some key
    to a list node that holds its address. *)
Definition registered w (p : positive) : Prop :=
  map_Exists (fun _ it => node_ptr it (lru_ (this w)) = Some p) (table_ (this w)).

#[global] Instance registered_dec w p : Decision (registered w p).
Proof. unfold registered. apply _. Defined.

(** Sum of the charges of the registered entries. *)
Definition registered_charge w : Z :=
  total_charge (filter (fun e => registered w e.1) (objs (mem w))).

(** Sum of the charges of the live entries that the list holds; every
    registered entry is one of them. *)
Definition listed_charge w : Z :=
  total_charge (filter (fun e => e.1 ∈ (lru_ (this w)).*2) (objs (mem w))).

Definition inserted_charge (ops : list Op) : Z :=
  foldr (fun op acc => match op with OInsert _ _ c => c + acc | _ => acc end) 0 ops.

Definition charge_nonneg (op : Op) : Prop :=
  match op with
  | OInsert _ _ c => 0 <= c
  | _ => True
  end.

(** [same_entry h h']: the handle still is the entry it was. *)
Definition same_entry h h' : Prop :=
  key h' = key h /\ value h' = value h /\ charge h' = charge h.

(** ** Worlds reached by the member functions *)

(** After [Release] of a live handle [h] at [p] whose count is positive. *)
Definition released (p : positive) h w : World Key Value :=
  if bool_decide (wrap (refs h - 1) = 0)
  then mkWorld (mkHeap (delete p (objs (mem w))) (brk (mem w)))
               (with_usage_cache (wrap (usage_ (this w) - charge h)) (this w))
  else mkWorld (mkHeap (<[p := mkHandle (key h) (value h) (wrap (refs h - 1)) (charge h)]>
                          (objs (mem w))) (brk (mem w)))
               (this w).

(** After [Lookup] found handle [h] at [p] through iterator [it]. *)
Definition looked_up (it p : positive) h w : World Key Value :=
  let pinned := <[p := mkHandle (key h) (value h) (wrap (refs h + 1)) (charge h)]>
                  (objs (mem w)) in
  match lru_ (this w) with
  | n :: _ =>
      if bool_decide (it <> n.1)
      then mkWorld (mkHeap pinned (Pos.succ (brk (mem w))))
                   (mkCache (usage_ (this w)) (capacity_ (this w))
                            ((brk (mem w), p) :: drop_node it (lru_ (this w)))
                            (table_ (this w)))
      else mkWorld (mkHeap pinned (brk (mem w))) (this w)
  | [] => w
  end.

(** Inside [Insert] of an unregistered key, just before the eviction
    loop. *)
Definition installed (k : Key) (v : Value) (c : Z) w : World Key Value :=
  let p := brk (mem w) in
  let it := Pos.succ p in
  mkWorld (mkHeap (<[p := mkHandle k v 2 c]> (objs (mem w))) (Pos.succ it))
          (mkCache (wrap (usage_ (this w) + c)) (capacity_ (this w))
                   ((it, p) :: lru_ (this w)) (<[k := it]> (table_ (this w)))).

(** ** Invariants *)

(** Structural well-formedness: addresses in use lie below the allocation
    counter, list nodes and listed pointers are pairwise distinct, no two
    keys share an iterator, counts are [size_t] values, and [usage_] is the
    total charge of the live handles modulo 2^64. *)
Record wf w : Prop := mkWf {
  wf_live : forall p h, objs (mem w) !! p = Some h -> (p < brk (mem w))%positive;
  wf_nodes : forall n, n ∈ lru_ (this w) ->
                       (n.1 < brk (mem w))%positive /\ (n.2 < brk (mem w))%positive;
  wf_iters : NoDup (lru_ (this w)).*1;
  wf_ptrs : NoDup (lru_ (this w)).*2;
  wf_table : forall k it, table_ (this w) !! k = Some it -> (it < brk (mem w))%positive;
  wf_inj : forall k1 k2 it, table_ (this w) !! k1 = Some it ->
                            table_ (this w) !! k2 = Some it -> k1 = k2;
  wf_refs : forall p h, objs (mem w) !! p = Some h -> in_size_t (refs h);
  wf_usage : usage_ (this w) = wrap (total_charge (objs (mem w)))
}.

(** No entry is pinned from outside: every live handle sits in the list
    with the cache's own pin only, every listed pointer is live, every key
    of the table belongs to a listed handle, and [usage_] is exact. *)
Definition quiescent w : Prop :=
  NoDup (lru_ (this w)).*2 /\
  map_Forall (fun p h => p ∈ (lru_ (this w)).*2 /\ refs h = 1 /\ 0 <= charge h /\
                         (p < brk (mem w))%positive) (objs (mem w)) /\
  Forall (fun p => is_Some (objs (mem w) !! p)) (lru_ (this w)).*2 /\
  map_Forall (fun k _ => Exists (fun p => key <$> objs (mem w) !! p = Some k)
                                (lru_ (this w)).*2) (table_ (this w)) /\
  usage_ (this w) = total_charge (objs (mem w)).

#[global] Instance quiescent_dec w : Decision (quiescent w).
Proof. unfold quiescent. apply _. Defined.

(** [w'] holds no entry, and lists no entry, that [w] does not. *)
Record shrinks w w' : Prop := mkShrinks {
  sh_capacity : capacity_ (this w') = capacity_ (this w);
  sh_objs : forall p h', objs (mem w') !! p = Some h' ->
              exists h, objs (mem w) !! p = Some h /\ charge h = charge h';
  sh_listed : forall p, p ∈ (lru_ (this w')).*2 -> p ∈ (lru_ (this w)).*2
}.

(** The invariant behind the capacity bound; [room] is the charge still to
    be inserted. *)
Record bounded (cap room : Z) w : Prop := mkBounded {
  bd_wf : wf w;
  bd_nonneg : charges_nonneg (objs (mem w));
  bd_room : total_charge (objs (mem w)) + room < SIZE_MOD;
  bd_capacity : capacity_ (this w) = cap;
  bd_listed : listed_charge w <= cap
}.

(** The eviction loop of an oversized [Insert]: the new handle [p0] is at
    the front, pinned by the caller, and everything behind it is
    unpinned. *)
Record draining (c : Z) (it0 p0 : positive) h0
    (l : list (positive * positive)) w : Prop := mkDraining {
  dr_lru : lru_ (this w) = (it0, p0) :: l;
  dr_ptrs : NoDup (p0 :: l.*2);
  dr_new : objs (mem w) !! p0 = Some h0;
  dr_refs : refs h0 = 2;
  dr_charge : charge h0 = c;
  dr_old : forall q, q ∈ l.*2 ->
             exists hq, objs (mem w) !! q = Some hq /\ refs hq = 1 /\ 0 <= charge hq;
  dr_live : forall q hq, objs (mem w) !! q = Some hq -> q ∈ p0 :: l.*2;
  dr_table : forall k it, table_ (this w) !! k = Some it ->
               exists q hq, q ∈ p0 :: l.*2 /\ objs (mem w) !! q = Some hq /\ key hq = k;
  dr_usage : usage_ (this w) = total_charge (objs (mem w));
  dr_range : usage_ (this w) < SIZE_MOD;
  dr_over : capacity_ (this w) < c;
  dr_nonneg : 0 <= c
}.

(** ** Caches on which the member functions can be called *)

(** A cache is tidy when it is well formed, every pointer in the list
    designates a live handle, and every live handle has a count of at
    least 1 (a handle is deleted as soon as its count is 0). *)
Definition tidy w : Prop :=
  NoDup (lru_ (this w)).*1 /\
  NoDup (lru_ (this w)).*2 /\
  Forall (fun n => (n.1 < brk (mem w))%positive /\ (n.2 < brk (mem w))%positive /\
                   is_Some (objs (mem w) !! n.2)) (lru_ (this w)) /\
  map_Forall (fun p h => (p < brk (mem w))%positive /\ 1 <= refs h < SIZE_MOD)
             (objs (mem w)) /\
  map_Forall (fun k it => (it < brk (mem w))%positive /\
                          map_Forall (fun k' it' => it' = it -> k' = k) (table_ (this w)))
             (table_ (this w)) /\
  usage_ (this w) = wrap (total_charge (objs (mem w))).

#[global] Instance tidy_dec w : Decision (tidy w).
Proof. unfold tidy. apply _. Defined.

(** The calls a caller may make on a tidy cache: [Insert] of a key that is
    not in the table; [Lookup] and [Erase] of a key that is not in the table
    or whose stored iterator still designates a list node ([Lookup] also
    needs room for one more pin); [Release] of a live handle on which the
    caller holds a pin (a listed handle carries the cache's own pin besides);
    [Prune] when no listed entry is left with the cache's pin only. *)
Definition allowed (op : Op) w : Prop :=
  match op with
  | OInsert k _ _ => table_ (this w) !! k = None
  | OLookup k =>
      match table_ (this w) !! k with
      | None => True
      | Some it =>
          match node_ptr it (lru_ (this w)) with
          | Some p =>
              match objs (mem w) !! p with
              | Some h => refs h + 1 < SIZE_MOD
              | None => False
              end
          | None => False
          end
      end
  | ORelease None => False
  | ORelease (Some p) =>
      match objs (mem w) !! p with
      | Some h => p ∈ (lru_ (this w)).*2 -> 2 <= refs h
      | None => False
      end
  | OErase k =>
      match table_ (this w) !! k with
      | None => True
      | Some it => is_Some (node_ptr it (lru_ (this w)))
      end
  | OPrune =>
      Forall (fun p => match objs (mem w) !! p with
                       | Some h => refs h <> 1
                       | None => True
                       end) (lru_ (this w)).*2
  end.

(** A sequence of calls is allowed when every call is allowed in the world
    the calls before it leave. *)
Fixpoint allowed_run (ops : list Op) w : Prop :=
  match ops with
  | [] => True
  | op :: ops' =>
      allowed op w /\
      match step op w with
      | Ok (_, w') => allowed_run ops' w'
      | _ => True
      end
  end.

(** ** Histories *)

(** What one call, with its result, says about key [k]: the handle, the
    value and the charge, when the call is an [Insert] of [k]. *)
Definition inserted_as (k : Key) (e : Op * option positive)
  : option (positive * Value * Z) :=
  match e with
  | (OInsert k' v c, Some p) => if decide (k' = k) then Some (p, v, c) else None
  | _ => None
  end.

(** The latest [Insert] of key [k] in a history of calls, oldest first. *)
Definition latest_insert (k : Key) (hist : list (Op * option positive))
  : option (positive * Value * Z) :=
  last (omap (inserted_as k) hist).

(** The table agrees with the history: a key in the table was inserted,
    and a key whose iterator designates a node leads to the handle that the
    latest [Insert] of the key returned, which holds what was inserted. *)
Record recorded (hist : list (Op * option positive)) w : Prop := mkRecorded {
  rec_table : forall k it, table_ (this w) !! k = Some it -> is_Some (latest_insert k hist);
  rec_entry : forall k it p,
    table_ (this w) !! k = Some it -> node_ptr it (lru_ (this w)) = Some p ->
    exists v c, latest_insert k hist = Some (p, v, c) /\
      forall h, objs (mem w) !! p = Some h -> key h = k /\ value h = v /\ charge h = c
}.

(** Whether a key is in the cache as far as the calls tell: [present_after]
    follows one call, [present] all of them, from a new cache.  The latest
    [Insert] or [Erase] of the key decides. *)
Definition present_after (k : Key) (b : bool) (op : Op) : bool :=
  match op with
  | OInsert k' _ _ => if decide (k' = k) then true else b
  | OErase k' => if decide (k' = k) then false else b
  | _ => b
  end.

Definition present (k : Key) (ops : list Op) : bool :=
  foldl (present_after k) false ops.

(** What one call, with its result, does to the number [n] of pins that
    callers hold on the handle at [p]: the [Insert] that creates the handle
    hands out the first, a [Lookup] that returns it one more, and a
    [Release] of it gives one back. *)
Definition pin_after (p : positive) (n : Z) (e : Op * option positive) : Z :=
  match e with
  | (OInsert _ _ _, Some q) => if decide (q = p) then 1 else n
  | (OLookup _, Some q) => if decide (q = p) then n + 1 else n
  | (ORelease (Some q), _) => if decide (q = p) then n - 1 else n
  | _ => n
  end.

(** The pins that callers hold on the handle at [p] after a history. *)
Definition outstanding (p : positive) (hist : list (Op * option positive)) : Z :=
  foldl (pin_after p) 0 hist.

(** The cache's own pin: 1 while the handle is in the list. *)
Definition own_pin (p : positive) w : Z :=
  if decide (p ∈ (lru_ (this w)).*2) then 1 else 0.

(** The counts agree with a tally [f] of the callers' pins: the count of
    every live handle is its tally plus the cache's own pin, as a
    [size_t]. *)
Definition counted (f : positive -> Z) w : Prop :=
  forall p h, objs (mem w) !! p = Some h -> refs h = wrap (f p + own_pin p w).

(** ** Shards on one free store *)

(** The shards of a sharded cache keep apart: no pointer is in the lists of
    two shards, every live handle that a shard lists carries a key of that
    shard, and the next address to be allocated lies above every listed
    pointer and every live handle. *)
Definition shards_apart (hash : Key -> Z) (r : SharedLRUCache.SharedWorld Key Value) : Prop :=
  (forall i j s s' p, i <> j ->
     SharedLRUCache.shard_ r !! i = Some s -> SharedLRUCache.shard_ r !! j = Some s' ->
     p ∈ (lru_ s).*2 -> p ∉ (lru_ s').*2) /\
  (forall i s p h, SharedLRUCache.shard_ r !! i = Some s -> p ∈ (lru_ s).*2 ->
     objs (SharedLRUCache.smem r) !! p = Some h ->
     SharedLRUCache.Shard (SharedLRUCache.HashSlice hash (key h)) = i) /\
  (forall i s p, SharedLRUCache.shard_ r !! i = Some s -> p ∈ (lru_ s).*2 ->
     (p < brk (SharedLRUCache.smem r))%positive) /\
  (forall p h, objs (SharedLRUCache.smem r) !! p = Some h ->
     (p < brk (SharedLRUCache.smem r))%positive).

(** A call left the shards other than [i] alone: each of them is as it was,
    and so is every live handle in its list. *)
Definition others_kept (i : nat) (r r' : SharedLRUCache.SharedWorld Key Value) : Prop :=
  forall j s, j <> i -> SharedLRUCache.shard_ r !! j = Some s ->
    SharedLRUCache.shard_ r' !! j = Some s /\
    forall p h, p ∈ (lru_ s).*2 -> objs (SharedLRUCache.smem r) !! p = Some h ->
      objs (SharedLRUCache.smem r') !! p = Some h.

(** The sum of the capacities of the shards of a sharded cache. *)
Definition total_capacity (shards : list (LRUCache Key)) : Z :=
  foldr (fun s acc => capacity_ s + acc) 0 shards.

End Spec.

Arguments Op : clear implicits.

(** ** Recency *)

(** [hist] lists the handles returned by calls, newest first; the age of a
    handle is the position of its latest return. *)
Fixpoint age (p : positive) (hist : list positive) : option nat :=
  match hist with
  | [] => None
  | q :: hist' => if decide (q = p) then Some O else S <$> age p hist'
  end.

Definition more_recent (hist : list positive) (p q : positive) : Prop :=
  match age p hist, age q hist with
  | Some a, Some b => (a < b)%nat
  | _, _ => False
  end.

Definition touched (rs : list (option positive)) : list positive :=
  rev (omap id rs).

Definition recent_list (hist l : list positive) : Prop :=
  Forall (fun q => q ∈ hist) l /\ StronglySorted (more_recent hist) l.

(** ** Ceiling of a quotient, as the specification words it *)

Definition ceil_div (a b : Z) : Z := - ((- a) / b).

(** A call fails fatally when its assertion fails. *)
Definition fails_fatally {A} (r : Res A) : Prop := r = AssertFail.

(** * Scenarios on a cache with string keys and values *)

Module Scenario.

(** The world a call leaves behind (the world itself when the call has no
    outcome). *)
Definition exec {A} (m : M string string A) (w : World string string)
  : World string string :=
  match m w with
  | Ok (_, w') => w'
  | _ => w
  end.

(** [std::hash<std::string>] stands open in the source; any function
    will do for an instance. *)
Definition length_hash (s : string) : Z := Z.of_nat (String.length s).

(** [Insert] and give the handle straight back. *)
Definition insert_released (k v : string) (c : Z) : M string string positive :=
  a ← Insert k v c;
  Release (Some a);;
  mret a.

(** Capacity 2, charges 1: A and B inserted, each handle released. *)
Definition two_released : M string string (positive * positive) :=
  a ← insert_released "A" "a" 1;
  b ← insert_released "B" "b" 1;
  mret (a, b).

Definition three_lookups : M string string (option positive * option positive * option positive) :=
  ra ← Lookup "A";
  rb ← Lookup "B";
  rc ← Lookup "C";
  mret (ra, rb, rc).

(** The same three inserts with every handle still held by the caller. *)
Definition three_held : M string string (positive * positive * positive) :=
  a ← Insert "A" "a" 1;
  b ← Insert "B" "b" 1;
  c ← Insert "C" "c" 1;
  mret (a, b, c).

(** Insert, release, prune. *)
Definition pruned : M string string positive :=
  a ← insert_released "A" "a" 1;
  Prune;;
  mret a.

(** Insert, release, erase: the entry is destroyed while the caller still
    knows its address. *)
Definition destroyed : M string string positive :=
  a ← insert_released "A" "a" 1;
  Erase "A";;
  mret a.

(** Calls used as instances below. *)
Definition two_held : list (Op string string) :=
  [OInsert "A" "a" 1; OInsert "B" "b" 1].

Definition two_cycled : list (Op string string) :=
  [OInsert "A" "a" 1; ORelease (Some 1%positive);
   OInsert "B" "b" 1; ORelease (Some 3%positive)].

Definition wrapping : list (Op string string) :=
  [OInsert "A" "a" (SIZE_MOD - 1); OInsert "B" "b" 11].

(** Worlds and calls used as instances of the further properties. *)

(** One entry, its handle given back. *)
Definition cached_one : World string string :=
  exec (insert_released "A" "a" 1) (fresh_world 2).

(** One entry, its handle still held. *)
Definition held_one : World string string :=
  exec (Insert "A" "a" 1) (fresh_world 2).

(** Two entries, both handles given back. *)
Definition cached_two : World string string :=
  exec two_released (fresh_world 2).

(** Calls that keep to the protocol. *)
Definition by_the_rules : list (Op string string) :=
  [OInsert "A" "a" 1; OInsert "B" "b" 1; OLookup "B"; OPrune;
   ORelease (Some 3%positive); ORelease (Some 3%positive); OErase "A";
   ORelease (Some 1%positive)].

(** Two entries that fit together, the first erased again. *)
Definition two_fitting : list (Op string string) :=
  [OInsert "A" "a" 1; OInsert "B" "b" 1; OLookup "B"; OErase "A"].

(** A sharded cache as constructed with total capacity 32. *)
Definition router : SharedLRUCache.SharedWorld string string :=
  SharedLRUCache.mkShared (mkHeap ∅ 1%positive) (SharedLRUCache.init 32).

(** The world a call on the sharded cache leaves behind. *)
Definition exec_shared {A} (m : SharedLRUCache.SM A)
    (r : SharedLRUCache.SharedWorld string string)
  : SharedLRUCache.SharedWorld string string :=
  match m r with
  | Ok (_, r') => r'
  | _ => r
  end.

(** The same after [Insert] of A and [Release] of its handle. *)
Definition router_cached_one : SharedLRUCache.SharedWorld string string :=
  exec_shared (SharedLRUCache.Release length_hash (Some 1%positive))
    (exec_shared (SharedLRUCache.Insert length_hash "A" "a" 1) router).

End Scenario.

(** * Facts about the embedding *)

Ltac munfold :=
  unfold mbind, M_bind, bind, mret, M_ret, ret, undefined, massert, get, put,
    load, set_refs, delete_handle, list_deref, list_erase, list_insert_front,
    not_begin, list_back, list_pop_back, table_find, table_erase, table_insert,
    with_usage, with_lru, with_table in *.

(** ** Wrap-around *)

Lemma SIZE_MOD_pos : 0 < SIZE_MOD.
Proof. reflexivity. Qed.

Lemma wrap_range x : in_size_t (wrap x).
Proof. unfold in_size_t, wrap. apply Z.mod_pos_bound, SIZE_MOD_pos. Qed.

Lemma wrap_small x : in_size_t x -> wrap x = x.
Proof. unfold in_size_t, wrap. intros. by apply Z.mod_small. Qed.

Lemma wrap_add_l a b : wrap (wrap a + b) = wrap (a + b).
Proof. unfold wrap. apply Zplus_mod_idemp_l. Qed.

Lemma wrap_sub_l a b : wrap (wrap a - b) = wrap (a - b).
Proof. unfold wrap. apply Zminus_mod_idemp_l. Qed.

(** ** Recency of handles in a history *)

Lemma age_elem p hist : p ∈ hist -> exists a, age p hist = Some a.
Proof.
  induction hist as [|q hist IH]; simpl; intros Hin.
  - by apply elem_of_nil in Hin.
  - case_decide; [eauto|]. apply elem_of_cons in Hin as [->|Hin]; [done|].
    destruct (IH Hin) as [a ->]. simpl. eauto.
Qed.

Lemma more_recent_head p q hist : q ∈ hist -> q <> p -> more_recent (p :: hist) p q.
Proof.
  intros [a Ha]%age_elem Hne. unfold more_recent. simpl.
  rewrite decide_True by done. rewrite decide_False by done. rewrite Ha. simpl. lia.
Qed.

Lemma more_recent_tail p q1 q2 hist :
  q1 <> p -> q2 <> p -> more_recent hist q1 q2 -> more_recent (p :: hist) q1 q2.
Proof.
  intros H1 H2. unfold more_recent. simpl.
  rewrite !decide_False by done.
  destruct (age q1 hist), (age q2 hist); simpl; try done. lia.
Qed.

Lemma StronglySorted_sublist {A} (R : A -> A -> Prop) l1 l2 :
  l1 `sublist_of` l2 -> StronglySorted R l2 -> StronglySorted R l1.
Proof.
  induction 1 as [|x l1 l2 Hs IH|x l1 l2 Hs IH]; intros Hss.
  - constructor.
  - apply StronglySorted_inv in Hss as [Hss Hall]. constructor; [auto|].
    apply Forall_forall. intros y Hy. apply (proj1 (Forall_forall _ _) Hall).
    eapply elem_of_sublist; eauto.
  - apply StronglySorted_inv in Hss as [Hss _]. auto.
Qed.

Lemma StronglySorted_impl {A} (R R' : A -> A -> Prop) l :
  (forall x y, x ∈ l -> y ∈ l -> R x y -> R' x y) ->
  StronglySorted R l -> StronglySorted R' l.
Proof.
  induction l as [|x l IH]; intros Himp Hss; [constructor|].
  apply StronglySorted_inv in Hss as [Hss Hall]. constructor.
  - apply IH; [|done]. intros y z Hy Hz. apply Himp; by right.
  - apply Forall_forall. intros y Hy. apply Himp; [left|by right|].
    by apply (proj1 (Forall_forall _ _) Hall).
Qed.

Lemma recent_nil hist : recent_list hist [].
Proof. split; constructor. Qed.

Lemma recent_sublist hist l l' :
  l' `sublist_of` l -> recent_list hist l -> recent_list hist l'.
Proof.
  intros Hs [Hall Hss]. split.
  - apply Forall_forall. intros q Hq. apply (proj1 (Forall_forall _ _) Hall).
    eapply elem_of_sublist; eauto.
  - by eapply StronglySorted_sublist.
Qed.

Lemma recent_touch hist l l' p :
  recent_list hist l -> l' `sublist_of` l -> p ∉ l' -> recent_list (p :: hist) (p :: l').
Proof.
  intros Hl Hs Hp. destruct (recent_sublist _ _ _ Hs Hl) as [Hall Hss].
  pose proof (proj1 (Forall_forall _ _) Hall) as Hin.
  split.
  - constructor; [left|]. apply Forall_forall. intros q Hq. right. auto.
  - constructor.
    + eapply StronglySorted_impl; [|done]. intros x y Hx Hy.
      apply more_recent_tail; intros ->; done.
    + apply Forall_forall. intros q Hq. apply more_recent_head; [auto|]. by intros ->.
Qed.

Section Facts.

Context {Key : Type} `{Countable Key} {Value : Type}.

Implicit Types (w : World Key Value) (p it : positive) (h : LRUHandle Key Value)
  (l : list (positive * positive)) (m : gmap positive (LRUHandle Key Value)).

Lemma bind_Ok {A B} (m : M Key Value A) (f : A -> M Key Value B) w b w2 :
  (m ≫= f) w = Ok (b, w2) <-> exists a w1, m w = Ok (a, w1) /\ f a w1 = Ok (b, w2).
Proof.
  unfold mbind, M_bind, bind. split.
  - destruct (m w) as [[a w1]| |]; try discriminate. eauto.
  - intros (a & w1 & -> & ?). done.
Qed.

Lemma bind_eq {A B} (m : M Key Value A) (f : A -> M Key Value B) w a w1 :
  m w = Ok (a, w1) -> (m ≫= f) w = f a w1.
Proof. unfold mbind, M_bind, bind. by intros ->. Qed.

(** ** [Release] *)

Lemma Release_null w : Release None w = (UB : Res (unit * World Key Value)).
Proof. done. Qed.

Lemma Release_dangling p w :
  objs (mem w) !! p = None -> Release (Some p) w = UB.
Proof. intros Hp. unfold Release. munfold. by rewrite Hp. Qed.

Lemma Release_live p h w :
  objs (mem w) !! p = Some h ->
  Release (Some p) w = if bool_decide (0 < refs h) then Ok (tt, released p h w) else AssertFail.
Proof.
  intros Hp. unfold Release, released. munfold. rewrite Hp. simpl.
  case_bool_decide; [|done]. rewrite Hp.
  case_bool_decide; simpl; [|done].
  by rewrite lookup_insert_eq, delete_insert_eq.
Qed.

Lemma Release_Ok p w w' :
  Release (Some p) w = Ok (tt, w') ->
  exists h, objs (mem w) !! p = Some h /\ 0 < refs h /\ w' = released p h w.
Proof.
  destruct (objs (mem w) !! p) as [h|] eqn:Hp.
  - rewrite (Release_live _ _ _ Hp). case_bool_decide; [|done].
    intros Heq. injection Heq as <-. by exists h.
  - by rewrite Release_dangling.
Qed.

(** ** List nodes and iterators *)

Lemma node_ptr_Some it p l : node_ptr it l = Some p -> (it, p) ∈ l.
Proof.
  induction l as [|[a b] l IH]; simpl; [done|].
  case_decide as Hd; intros Hs.
  - injection Hs as <-. simpl in Hd. subst a. left.
  - right; auto.
Qed.

Lemma node_ptr_None it l : node_ptr it l = None <-> it ∉ l.*1.
Proof.
  induction l as [|[a b] l IH]; simpl.
  - split; [intros _; apply not_elem_of_nil | done].
  - case_decide as Hd; simpl in Hd.
    + split; [done|]. intros []. subst a. left.
    + rewrite IH, not_elem_of_cons. split; [intros Hni; split; [congruence|done]|tauto].
Qed.

Lemma elem_of_node_ptr it p l : NoDup l.*1 -> (it, p) ∈ l -> node_ptr it l = Some p.
Proof.
  induction l as [|[a b] l IH]; simpl; intros Hnd Hin.
  - by apply elem_of_nil in Hin.
  - apply NoDup_cons in Hnd as [Hni Hnd].
    apply elem_of_cons in Hin as [Heq|Hin].
    + injection Heq as -> ->. by rewrite decide_True.
    + rewrite decide_False; [auto|]. simpl. intros ->. apply Hni.
      apply list_elem_of_fmap. by exists (it, p).
Qed.

Lemma drop_node_elem n it l : n ∈ drop_node it l <-> n ∈ l /\ n.1 <> it.
Proof. unfold drop_node. rewrite list_elem_of_filter. tauto. Qed.

Lemma node_ptr_drop_same it l : node_ptr it (drop_node it l) = None.
Proof.
  apply node_ptr_None. intros (n & Hn1 & Hn)%list_elem_of_fmap.
  apply drop_node_elem in Hn as [_ Hne]. by subst it.
Qed.

Lemma node_ptr_drop_ne it it' l : it' <> it -> node_ptr it' (drop_node it l) = node_ptr it' l.
Proof.
  intros Hne. induction l as [|[a b] l IH]; [done|].
  unfold drop_node in *. rewrite filter_cons. simpl.
  destruct (decide (a = it)) as [->|Hai].
  - rewrite decide_False by (simpl; tauto). rewrite decide_False by done. apply IH.
  - rewrite decide_True by done. simpl. case_decide; [done|apply IH].
Qed.

(** ** Total charge *)

Lemma total_charge_empty : total_charge (∅ : gmap positive (LRUHandle Key Value)) = 0.
Proof. unfold total_charge. by rewrite map_fold_empty. Qed.

Lemma total_charge_insert p h (m : gmap positive (LRUHandle Key Value)) :
  m !! p = None -> total_charge (<[p := h]> m) = charge h + total_charge m.
Proof.
  intros Hp. unfold total_charge. rewrite map_fold_insert_L; [done| |done].
  intros. lia.
Qed.

Lemma total_charge_delete p h (m : gmap positive (LRUHandle Key Value)) :
  m !! p = Some h -> total_charge m = charge h + total_charge (delete p m).
Proof.
  intros Hp. unfold total_charge. rewrite (map_fold_delete_L _ _ p h m); [done| |done].
  intros. lia.
Qed.

Lemma total_charge_update p h h' (m : gmap positive (LRUHandle Key Value)) :
  m !! p = Some h -> charge h' = charge h ->
  total_charge (<[p := h']> m) = total_charge m.
Proof.
  intros Hp Hc. rewrite <- insert_delete_eq.
  rewrite total_charge_insert by apply lookup_delete_eq.
  rewrite (total_charge_delete p h m Hp). lia.
Qed.

(** ** The member functions, case by case *)

Lemma Lookup_absent k w :
  table_ (this w) !! k = None -> Lookup k w = Ok (None, w).
Proof. intros Hk. unfold Lookup. munfold. by rewrite Hk. Qed.

Lemma Lookup_stale k it w :
  table_ (this w) !! k = Some it -> node_ptr it (lru_ (this w)) = None ->
  Lookup k w = UB.
Proof. intros Hk Hn. unfold Lookup. munfold. by rewrite Hk, Hn. Qed.

Lemma Lookup_valid k it p w :
  table_ (this w) !! k = Some it -> node_ptr it (lru_ (this w)) = Some p ->
  Lookup k w = match objs (mem w) !! p with
               | Some h => Ok (Some p, looked_up it p h w)
               | None => UB
               end.
Proof.
  intros Hk Hn. unfold Lookup, looked_up. munfold. rewrite Hk, Hn.
  destruct (lru_ (this w)) as [|[a b] l] eqn:Hl; [done|].
  simpl. case_bool_decide as Hmv; simpl.
  - rewrite Hl, Hn. simpl. destruct (objs (mem w) !! p) eqn:E; simpl; rewrite ?E; done.
  - destruct (objs (mem w) !! p) eqn:E; simpl; rewrite ?E; done.
Qed.

Lemma Erase_absent k w :
  table_ (this w) !! k = None -> Erase k w = Ok (tt, w).
Proof. intros Hk. unfold Erase. munfold. by rewrite Hk. Qed.

Lemma list_pop_back_snoc l n w :
  lru_ (this w) = l ++ [n] -> list_pop_back w = Ok (tt, with_lru l w).
Proof.
  intros Hl. unfold list_pop_back. rewrite Hl.
  assert (removelast (l ++ [n]) = l) as Hrm by apply removelast_last.
  destruct (l ++ [n]) eqn:E; [by destruct l|]. by rewrite Hrm.
Qed.

Lemma evict_one_eq l it p h w :
  lru_ (this w) = l ++ [(it, p)] -> objs (mem w) !! p = Some h ->
  evict_one w =
  Release (Some p) (mkWorld (mem w) (mkCache (usage_ (this w)) (capacity_ (this w)) l
                                             (delete (key h) (table_ (this w))))).
Proof.
  intros Hl Hp. unfold evict_one.
  rewrite (bind_eq _ _ w p w) by (unfold list_back; by rewrite Hl, last_snoc).
  rewrite (bind_eq _ _ w h w) by (unfold load; by rewrite Hp).
  rewrite (bind_eq _ _ w tt (with_table (delete (key h) (table_ (this w))) w)) by done.
  erewrite bind_eq; [|by apply (list_pop_back_snoc l (it, p))]. done.
Qed.

Lemma evict_one_empty w : lru_ (this w) = [] -> evict_one w = UB.
Proof. intros Hl. unfold evict_one. munfold. by rewrite Hl. Qed.

Lemma evict_one_dangling l it p w :
  lru_ (this w) = l ++ [(it, p)] -> objs (mem w) !! p = None -> evict_one w = UB.
Proof.
  intros Hl Hp. unfold evict_one. munfold. rewrite Hl, last_snoc. simpl. by rewrite Hp.
Qed.

Lemma bind_UB {A B} (m : M Key Value A) (f : A -> M Key Value B) w :
  m w = UB -> (m ≫= f) w = UB.
Proof. unfold mbind, M_bind, bind. by intros ->. Qed.

Lemma Insert_registered k v c it w :
  table_ (this w) !! k = Some it -> Insert k v c w = UB.
Proof.
  intros Hk. unfold Insert.
  erewrite bind_eq by reflexivity.
  erewrite bind_eq by (unfold table_find; simpl; rewrite Hk; reflexivity).
  apply bind_UB.
  destruct (node_ptr it (lru_ (this w))) eqn:Hn.
  - erewrite bind_eq by (unfold list_erase; simpl; rewrite Hn; reflexivity).
    erewrite bind_eq by reflexivity.
    apply bind_UB. unfold list_deref. simpl. by rewrite node_ptr_drop_same.
  - apply bind_UB. unfold list_erase. simpl. by rewrite Hn.
Qed.

Lemma Insert_unregistered k v c w :
  table_ (this w) !! k = None ->
  Insert k v c w =
  (evict_loop (S (length (lru_ (this w))));; mret (brk (mem w))) (installed k v c w).
Proof.
  intros Hk. unfold Insert.
  erewrite bind_eq by reflexivity.
  erewrite bind_eq by (unfold table_find; simpl; rewrite Hk; reflexivity).
  erewrite bind_eq by reflexivity.
  erewrite bind_eq by reflexivity.
  erewrite bind_eq by (unfold table_insert; simpl; rewrite Hk; reflexivity).
  erewrite bind_eq by reflexivity.
  erewrite bind_eq by reflexivity.
  erewrite bind_eq by reflexivity.
  erewrite bind_eq by reflexivity.
  reflexivity.
Qed.

Lemma wf_fresh_world cap : wf (fresh_world cap : World Key Value).
Proof.
  split; simpl; try done.
  - intros n Hn. by apply elem_of_nil in Hn.
  - constructor.
  - constructor.
Qed.

Lemma wf_released p h w :
  wf w -> objs (mem w) !! p = Some h -> wf (released p h w).
Proof.
  intros [] Hp. unfold released. case_bool_decide; split; simpl; try done.
  - intros q hq [_ Hq]%lookup_delete_Some. eauto.
  - intros q hq [_ Hq]%lookup_delete_Some. eauto.
  - rewrite wf_usage0, wrap_sub_l. f_equal.
    rewrite (total_charge_delete p h _ Hp). lia.
  - intros q hq [[<- <-]|[_ Hq]]%lookup_insert_Some; eauto.
  - intros q hq [[<- <-]|[_ Hq]]%lookup_insert_Some; simpl; eauto using wrap_range.
  - rewrite wf_usage0. f_equal. symmetry. by apply (total_charge_update p h).
Qed.

Lemma wf_shrink w l (t : gmap Key positive) :
  wf w -> l `sublist_of` lru_ (this w) -> t ⊆ table_ (this w) ->
  wf (mkWorld (mem w) (mkCache (usage_ (this w)) (capacity_ (this w)) l t)).
Proof.
  intros [] Hl Ht. split; simpl; try done.
  - intros n Hn. apply wf_nodes0. eapply elem_of_sublist; eauto.
  - apply (sublist_NoDup _ _ wf_iters0). by apply fmap_sublist.
  - apply (sublist_NoDup _ _ wf_ptrs0). by apply fmap_sublist.
  - intros k it Hk. eapply wf_table0, lookup_weaken; eauto.
  - intros k1 k2 it Hk1 Hk2. eapply wf_inj0; eapply lookup_weaken; eauto.
Qed.

Lemma drop_node_sublist it l : drop_node it l `sublist_of` l.
Proof. apply sublist_filter. Qed.

Lemma NoDup_snd_inj l it it' p :
  NoDup l.*2 -> (it, p) ∈ l -> (it', p) ∈ l -> it = it'.
Proof.
  induction l as [|[a b] l IH]; simpl; intros Hnd H1 H2.
  - by apply elem_of_nil in H1.
  - apply NoDup_cons in Hnd as [Hni Hnd].
    apply elem_of_cons in H1 as [E1|H1]; apply elem_of_cons in H2 as [E2|H2].
    + congruence.
    + injection E1 as -> ->. destruct Hni. apply list_elem_of_fmap. by exists (it', b).
    + injection E2 as -> ->. destruct Hni. apply list_elem_of_fmap. by exists (it, b).
    + eauto.
Qed.

Lemma wf_looked_up k it p h w :
  wf w -> table_ (this w) !! k = Some it -> node_ptr it (lru_ (this w)) = Some p ->
  objs (mem w) !! p = Some h -> wf (looked_up it p h w).
Proof.
  intros Hwf Hk Hn Hp.
  unfold looked_up. destruct (lru_ (this w)) as [|[a b] l] eqn:Hl; [done|].
  rewrite <- Hl in *. clear Hl. destruct Hwf.
  assert (Hus : usage_ (this w) =
                wrap (total_charge (<[p := mkHandle (key h) (value h) (wrap (refs h + 1))
                                           (charge h)]> (objs (mem w))))).
  { rewrite wf_usage0. f_equal. symmetry. by apply (total_charge_update p h). }
  assert (Hlv : forall q hq,
             <[p := mkHandle (key h) (value h) (wrap (refs h + 1)) (charge h)]>
               (objs (mem w)) !! q = Some hq -> (q < brk (mem w))%positive /\ in_size_t (refs hq)).
  { intros q hq [[<- <-]|[_ Hq]]%lookup_insert_Some; simpl; eauto using wrap_range. }
  case_bool_decide as Hmv; split; simpl; try done.
  - intros q hq Hq. apply Hlv in Hq as [Hq _]. lia.
  - intros n [->|Hn']%elem_of_cons; simpl.
    + split; [lia|]. apply node_ptr_Some, wf_nodes0 in Hn. simpl in Hn. lia.
    + apply drop_node_elem in Hn' as [Hn' _]. apply wf_nodes0 in Hn'. lia.
  - apply NoDup_cons. split.
    + intros (n & Hn1 & Hn')%list_elem_of_fmap. apply drop_node_elem in Hn' as [Hn' _].
      apply wf_nodes0 in Hn'. lia.
    + apply (sublist_NoDup _ _ wf_iters0). apply fmap_sublist, drop_node_sublist.
  - apply NoDup_cons. split.
    + intros ([it' q] & Hn1 & Hn')%list_elem_of_fmap. simpl in Hn1. subst q.
      apply drop_node_elem in Hn' as [Hn' Hne]. simpl in Hne.
      apply Hne. symmetry. eapply (NoDup_snd_inj (lru_ (this w))); eauto.
      by apply node_ptr_Some.
    + apply (sublist_NoDup _ _ wf_ptrs0). apply fmap_sublist, drop_node_sublist.
  - intros k' it' Hk'. apply wf_table0 in Hk'. lia.
  - intros q hq Hq. by apply Hlv in Hq as [_ Hq].
  - intros q hq Hq. by apply Hlv in Hq as [Hq _].
  - intros q hq Hq. by apply Hlv in Hq as [_ Hq].
Qed.

Lemma wf_installed k v c w :
  wf w -> table_ (this w) !! k = None -> wf (installed k v c w).
Proof.
  intros [] Hk. unfold installed.
  assert (objs (mem w) !! brk (mem w) = None) as Hfresh.
  { destruct (objs (mem w) !! brk (mem w)) eqn:E; [|done]. apply wf_live0 in E. lia. }
  split; simpl.
  - intros q hq [[<- <-]|[_ Hq]]%lookup_insert_Some; [lia|]. apply wf_live0 in Hq. lia.
  - intros n [->|Hn]%elem_of_cons; simpl; [lia|]. apply wf_nodes0 in Hn. lia.
  - apply NoDup_cons. split; [|done].
    intros (n & Hn1 & Hn)%list_elem_of_fmap. apply wf_nodes0 in Hn. lia.
  - apply NoDup_cons. split; [|done].
    intros (n & Hn1 & Hn)%list_elem_of_fmap. apply wf_nodes0 in Hn. lia.
  - intros k' it' [[<- <-]|[_ Hk']]%lookup_insert_Some; [lia|]. apply wf_table0 in Hk'. lia.
  - intros k1 k2 it' [[<- <-]|[? Hk1]]%lookup_insert_Some [[<- E]|[? Hk2]]%lookup_insert_Some;
      try done.
    + apply wf_table0 in Hk2. lia.
    + apply wf_table0 in Hk1. lia.
    + eauto.
  - intros q hq [[<- <-]|[_ Hq]]%lookup_insert_Some; simpl; eauto.
    unfold in_size_t, SIZE_MOD. lia.
  - rewrite wf_usage0, wrap_add_l. f_equal. rewrite total_charge_insert by done. simpl. lia.
Qed.

(** ** What [released] leaves alone *)
Lemma released_lru p h w : lru_ (this (released p h w)) = lru_ (this w).
Proof. unfold released. by case_bool_decide. Qed.

Lemma released_table p h w : table_ (this (released p h w)) = table_ (this w).
Proof. unfold released. by case_bool_decide. Qed.

Lemma released_capacity p h w : capacity_ (this (released p h w)) = capacity_ (this w).
Proof. unfold released. by case_bool_decide. Qed.

Lemma released_brk p h w : brk (mem (released p h w)) = brk (mem w).
Proof. unfold released. by case_bool_decide. Qed.

Lemma released_other p h w q :
  q <> p -> objs (mem (released p h w)) !! q = objs (mem w) !! q.
Proof.
  intros Hq. unfold released. case_bool_decide; simpl.
  - by apply lookup_delete_ne.
  - by apply lookup_insert_ne.
Qed.

(** ** What a call that returns has done *)

Lemma evict_one_Ok w w' :
  evict_one w = Ok (tt, w') ->
  exists l it p h,
    lru_ (this w) = l ++ [(it, p)] /\ objs (mem w) !! p = Some h /\ 0 < refs h /\
    w' = released p h (mkWorld (mem w)
                         (mkCache (usage_ (this w)) (capacity_ (this w)) l
                                  (delete (key h) (table_ (this w))))).
Proof.
  intros He.
  destruct (lru_ (this w)) as [|n0 l0] eqn:Hl using rev_ind.
  { by rewrite evict_one_empty in He. }
  clear IHl0. destruct n0 as [it p]. exists l0, it, p.
  destruct (objs (mem w) !! p) as [h|] eqn:Hp.
  - rewrite (evict_one_eq _ _ _ _ _ Hl Hp) in He.
    apply Release_Ok in He as (h' & Hp' & Hpos & ->). simpl in Hp'.
    rewrite Hp in Hp'. injection Hp' as <-. by exists h.
  - by rewrite (evict_one_dangling _ _ _ _ Hl Hp) in He.
Qed.

Lemma prune_one_Ok p w w' :
  prune_one p w = Ok (tt, w') ->
  exists h, objs (mem w) !! p = Some h /\
    w' = if bool_decide (refs h = 1)
         then released p h (with_table (delete (key h) (table_ (this w))) w)
         else w.
Proof.
  unfold prune_one. intros Hp.
  apply bind_Ok in Hp as (h & w1 & Hl & Hp).
  unfold load in Hl. destruct (objs (mem w) !! p) as [h'|] eqn:Hh; [|done].
  injection Hl as -> ->. exists h. split; [done|].
  case_bool_decide as Hr; [|by injection Hp as ->].
  apply bind_Ok in Hp as (o & w2 & Hf & Hp). unfold table_find in Hf.
  injection Hf as <- <-.
  apply bind_Ok in Hp as ([] & w2 & Ht & Hp).
  assert (w2 = with_table (delete (key h) (table_ (this w1))) w1) as ->.
  { destruct (table_ (this w1) !! key h) eqn:Hk.
    - unfold table_erase in Ht. by injection Ht as <-.
    - injection Ht as <-. rewrite delete_id by done.
      by destruct w1 as [? []]. }
  apply Release_Ok in Hp as (h' & Hp' & Hpos & ->). simpl in Hp'.
  rewrite Hh in Hp'. by injection Hp' as <-.
Qed.

Lemma Lookup_Ok k r w w' :
  Lookup k w = Ok (r, w') ->
  (table_ (this w) !! k = None /\ r = None /\ w' = w) \/
  (exists it p h, table_ (this w) !! k = Some it /\ node_ptr it (lru_ (this w)) = Some p /\
     objs (mem w) !! p = Some h /\ r = Some p /\ w' = looked_up it p h w).
Proof.
  intros Hl. destruct (table_ (this w) !! k) as [it|] eqn:Hk.
  - right. destruct (node_ptr it (lru_ (this w))) as [p|] eqn:Hn.
    + rewrite (Lookup_valid _ _ _ _ Hk Hn) in Hl.
      destruct (objs (mem w) !! p) as [h|] eqn:Hp; [|done].
      injection Hl as <- <-. by exists it, p, h.
    + by rewrite (Lookup_stale _ _ _ Hk Hn) in Hl.
  - left. rewrite (Lookup_absent _ _ Hk) in Hl. by injection Hl as <- <-.
Qed.

Lemma Erase_Ok k w w' :
  Erase k w = Ok (tt, w') ->
  (table_ (this w) !! k = None /\ w' = w) \/
  (exists it p h, table_ (this w) !! k = Some it /\ node_ptr it (lru_ (this w)) = Some p /\
     objs (mem w) !! p = Some h /\ 0 < refs h /\
     w' = mkWorld (mem (released p h w))
            (mkCache (usage_ (this (released p h w))) (capacity_ (this w))
                     (drop_node it (lru_ (this w))) (delete k (table_ (this w))))).
Proof.
  intros He. destruct (table_ (this w) !! k) as [it|] eqn:Hk.
  - right. unfold Erase in He.
    erewrite bind_eq in He by (unfold table_find; rewrite Hk; reflexivity).
    apply bind_Ok in He as (p & w1 & Hd & He).
    unfold list_deref in Hd. destruct (node_ptr it (lru_ (this w))) as [p'|] eqn:Hn; [|done].
    injection Hd as -> ->.
    apply bind_Ok in He as ([] & w2 & Hr & He).
    apply Release_Ok in Hr as (h & Hp & Hpos & ->).
    exists it, p, h. repeat (split; [done|]).
    apply bind_Ok in He as ([] & w3 & Hle & He).
    unfold list_erase in Hle. rewrite released_lru, Hn in Hle. injection Hle as <-.
    unfold table_erase in He. injection He as <-.
    unfold with_table, with_lru. simpl.
    by rewrite released_table, released_capacity.
  - left. rewrite (Erase_absent _ _ Hk) in He. by injection He as <-.
Qed.

Lemma Insert_Ok k v c hd w w' :
  Insert k v c w = Ok (hd, w') ->
  table_ (this w) !! k = None /\ hd = brk (mem w) /\
  evict_loop (S (length (lru_ (this w)))) (installed k v c w) = Ok (tt, w').
Proof.
  intros Hi. destruct (table_ (this w) !! k) as [it|] eqn:Hk.
  - by rewrite (Insert_registered _ _ _ _ _ Hk) in Hi.
  - rewrite (Insert_unregistered _ _ _ _ Hk) in Hi.
    apply bind_Ok in Hi as ([] & w1 & He & Hi). by injection Hi as <- <-.
Qed.

(** ** The loops *)

Lemma evict_loop_ind (P : World Key Value -> Prop) :
  (forall w w', P w -> evict_one w = Ok (tt, w') -> P w') ->
  forall n w w', P w -> evict_loop n w = Ok (tt, w') -> P w'.
Proof.
  intros Hstep n. induction n as [|n IH]; simpl; intros w w' HP He.
  - by injection He as <-.
  - apply bind_Ok in He as (w0 & w1 & Hg & He). injection Hg as <- <-.
    destruct (_ && _); [|by injection He as <-].
    apply bind_Ok in He as ([] & w2 & Ho & He). eauto.
Qed.

Lemma evict_loop_exit n w w' :
  evict_loop n w = Ok (tt, w') -> (length (lru_ (this w)) <= n)%nat ->
  usage_ (this w') <= capacity_ (this w') \/ lru_ (this w') = [].
Proof.
  revert w. induction n as [|n IH]; simpl; intros w He Hlen.
  - injection He as <-. right. destruct (lru_ (this w)); [done|simpl in Hlen; lia].
  - apply bind_Ok in He as (w0 & w1 & Hg & He). injection Hg as <- <-.
    case_bool_decide as Hu; simpl in He.
    + case_bool_decide as Hl; simpl in He.
      * injection He as <-. by right.
      * apply bind_Ok in He as ([] & w2 & Ho & He).
        apply (IH _ He). apply evict_one_Ok in Ho as (l & it & p & h & Hl' & _ & _ & ->).
        rewrite released_lru. simpl. rewrite Hl', length_app in Hlen. simpl in Hlen. lia.
    + injection He as <-. left. lia.
Qed.

Lemma for_each_ind (P : World Key Value -> Prop) (body : positive -> M Key Value unit) l :
  (forall n w w', n ∈ l -> P w -> body n.2 w = Ok (tt, w') -> P w') ->
  forall w w', P w -> for_each l body w = Ok (tt, w') -> P w'.
Proof.
  induction l as [|n l IH]; simpl; intros Hstep w w' HP Hf.
  - by injection Hf as <-.
  - apply bind_Ok in Hf as ([] & w1 & Hb & Hf).
    eapply IH; [|..|done].
    + intros n' w2 w3 Hn'. apply Hstep. by right.
    + eapply Hstep; [left|done..].
Qed.

(** ** Every call preserves well-formedness *)

Lemma wf_evict_one w w' : wf w -> evict_one w = Ok (tt, w') -> wf w'.
Proof.
  intros Hwf (l & it & p & h & Hl & Hp & _ & ->)%evict_one_Ok.
  apply wf_released; [|done]. apply wf_shrink; [done|..].
  - rewrite Hl. by apply sublist_inserts_r.
  - apply delete_subseteq.
Qed.

Lemma wf_prune_one p w w' : wf w -> prune_one p w = Ok (tt, w') -> wf w'.
Proof.
  intros Hwf (h & Hp & ->)%prune_one_Ok. case_bool_decide; [|done].
  apply wf_released; [|done]. apply wf_shrink; [done|done|apply delete_subseteq].
Qed.

Lemma wf_step op r w w' : wf w -> step op w = Ok (r, w') -> wf w'.
Proof.
  intros Hwf Hs. destruct op as [k v c|k|handle|k|]; simpl in Hs.
  - apply bind_Ok in Hs as (hd & w1 & Hi & Hs). injection Hs as <- <-.
    apply Insert_Ok in Hi as (Hk & -> & He).
    eapply (evict_loop_ind wf); [apply wf_evict_one| |done]. by apply wf_installed.
  - apply Lookup_Ok in Hs as [(_ & _ & ->)|(it & p & h & Hk & Hn & Hp & _ & ->)]; [done|].
    by eapply wf_looked_up.
  - apply bind_Ok in Hs as ([] & w1 & Hr & Hs). injection Hs as <- <-.
    destruct handle as [p|]; [|done].
    apply Release_Ok in Hr as (h & Hp & _ & ->). by apply wf_released.
  - apply bind_Ok in Hs as ([] & w1 & He & Hs). injection Hs as <- <-.
    apply Erase_Ok in He as [(_ & ->)|(it & p & h & Hk & Hn & Hp & _ & ->)]; [done|].
    pose proof (wf_released p h w Hwf Hp) as Hwf'.
    rewrite <- (released_capacity p h w), <- (released_lru p h w), <- (released_table p h w).
    apply wf_shrink; [done|apply drop_node_sublist|apply delete_subseteq].
  - apply bind_Ok in Hs as ([] & w1 & Hp & Hs). injection Hs as <- <-.
    unfold Prune in Hp. apply bind_Ok in Hp as (w0 & w2 & Hg & Hp). injection Hg as <- <-.
    eapply (for_each_ind wf); [|done|done].
    intros n w2 w3 _. apply wf_prune_one.
Qed.

Lemma wf_run ops rs w w' : wf w -> run ops w = Ok (rs, w') -> wf w'.
Proof.
  revert rs w. induction ops as [|op ops IH]; simpl; intros rs w Hwf Hr.
  - by injection Hr as <- <-.
  - apply bind_Ok in Hr as (r & w1 & Hs & Hr).
    apply bind_Ok in Hr as (rs' & w2 & Hr & Hret). injection Hret as <- <-.
    eauto using wf_step.
Qed.

(** ** Entries pinned from outside survive *)

Lemma wrap_pred_pinned r : in_size_t r -> 2 <= r -> wrap (r - 1) = r - 1 /\ r - 1 <> 0.
Proof.
  intros Hr ?. split; [|lia]. apply wrap_small. unfold in_size_t in *. lia.
Qed.

Lemma released_pinned p h q hq w :
  objs (mem w) !! p = Some h -> objs (mem w) !! q = Some hq ->
  in_size_t (refs h) -> (q = p -> 2 <= refs h) ->
  exists h', objs (mem (released q hq w)) !! p = Some h' /\ same_entry h h' /\
             (q <> p -> h' = h) /\ (q = p -> refs h' = refs h - 1).
Proof.
  intros Hp Hq Hr Hpin. destruct (decide (q = p)) as [->|Hne].
  - rewrite Hp in Hq. injection Hq as <-.
    destruct (wrap_pred_pinned (refs h) Hr (Hpin eq_refl)) as [Hw Hnz].
    unfold released. rewrite bool_decide_eq_false_2 by lia. simpl.
    rewrite lookup_insert_eq. eexists. split; [done|]. rewrite Hw. by repeat split.
  - rewrite released_other by done. exists h. by repeat split.
Qed.

Lemma evict_loop_pinned p h n w w' :
  wf w -> objs (mem w) !! p = Some h -> (p ∈ (lru_ (this w)).*2 -> 2 <= refs h) ->
  evict_loop n w = Ok (tt, w') ->
  exists h', objs (mem w') !! p = Some h' /\ same_entry h h'.
Proof.
  intros Hwf Hp Hpin He.
  cut (wf w' /\ exists h', objs (mem w') !! p = Some h' /\ same_entry h h' /\
                           (p ∈ (lru_ (this w')).*2 -> 2 <= refs h')).
  { intros (_ & h' & ? & ? & _). eauto. }
  revert He.
  apply (evict_loop_ind (fun w => wf w /\ exists h', objs (mem w) !! p = Some h' /\
                           same_entry h h' /\ (p ∈ (lru_ (this w)).*2 -> 2 <= refs h')));
    [|by (split; [done|]; exists h)].
  clear w w' Hwf Hp Hpin. intros w w' (Hwf & h' & Hp & Hsame & Hpin) Ho.
  split; [by eapply wf_evict_one|].
  apply evict_one_Ok in Ho as (l & it & q & hq & Hl & Hq & _ & ->).
  destruct (released_pinned p h' q hq
              (mkWorld (mem w) (mkCache (usage_ (this w)) (capacity_ (this w)) l
                                        (delete (key hq) (table_ (this w))))))
    as (h'' & Hp'' & Hsame' & Hne & Heq); simpl; try done.
  { by eapply wf_refs. }
  { intros Heq. subst q. apply Hpin. rewrite Hl, fmap_app. apply elem_of_app. right.
    simpl. left. }
  exists h''. split; [done|]. split.
  { destruct Hsame as (?&?&?), Hsame' as (?&?&?). repeat split; congruence. }
  rewrite released_lru. simpl. intros Hin.
  destruct (decide (q = p)) as [Hqp|Hqp].
  - subst q. pose proof (wf_ptrs w Hwf) as Hnd. rewrite Hl, fmap_app in Hnd.
    apply NoDup_app in Hnd as (_ & Hnd & _). destruct (Hnd p Hin). simpl. left.
  - rewrite (Hne Hqp). apply Hpin. rewrite Hl, fmap_app. apply elem_of_app. by left.
Qed.

Lemma step_pinned op r p h w w' :
  wf w -> objs (mem w) !! p = Some h ->
  op <> ORelease (Some p) -> (p ∈ (lru_ (this w)).*2 -> 2 <= refs h) ->
  step op w = Ok (r, w') ->
  exists h', objs (mem w') !! p = Some h' /\ same_entry h h'.
Proof.
  intros Hwf Hp Hop Hpin Hs. destruct op as [k v c|k|handle|k|]; simpl in Hs.
  - apply bind_Ok in Hs as (hd & w1 & Hi & Hs). injection Hs as <- <-.
    apply Insert_Ok in Hi as (Hk & -> & He).
    pose proof (wf_live w Hwf p h Hp) as Hlt.
    eapply evict_loop_pinned; [by apply wf_installed| | |done].
    + unfold installed. simpl. rewrite lookup_insert_ne by lia. done.
    + unfold installed. simpl. intros [?|Hin]%elem_of_cons; [lia|auto].
  - apply Lookup_Ok in Hs as [(_ & _ & ->)|(it & q & hq & Hk & Hn & Hq & _ & ->)].
    { exists h. by repeat split. }
    assert (exists h', <[q := mkHandle (key hq) (value hq) (wrap (refs hq + 1)) (charge hq)]>
                         (objs (mem w)) !! p = Some h' /\ same_entry h h') as Hgoal.
    { destruct (decide (q = p)) as [->|Hne].
      - rewrite lookup_insert_eq. rewrite Hp in Hq. injection Hq as <-.
        eexists. split; [done|]. by repeat split.
      - rewrite lookup_insert_ne by done. exists h. by repeat split. }
    unfold looked_up. destruct (lru_ (this w)); [exists h; by repeat split|].
    by case_bool_decide.
  - apply bind_Ok in Hs as ([] & w1 & Hr & Hs). injection Hs as <- <-.
    destruct handle as [q|]; [|done].
    apply Release_Ok in Hr as (hq & Hq & _ & ->).
    rewrite released_other by congruence. exists h. by repeat split.
  - apply bind_Ok in Hs as ([] & w1 & He & Hs). injection Hs as <- <-.
    apply Erase_Ok in He as [(_ & ->)|(it & q & hq & Hk & Hn & Hq & _ & ->)].
    { exists h. by repeat split. }
    simpl. destruct (released_pinned p h q hq w) as (h' & ? & ? & _); try done.
    + by eapply wf_refs.
    + intros Heq. subst q. apply Hpin, list_elem_of_fmap. exists (it, p). split; [done|].
      by apply node_ptr_Some.
    + eauto.
  - apply bind_Ok in Hs as ([] & w1 & Hpr & Hs). injection Hs as <- <-.
    unfold Prune in Hpr. apply bind_Ok in Hpr as (w0 & w2 & Hg & Hpr). injection Hg as <- <-.
    exists h. split; [|by repeat split].
    revert Hpr. apply (for_each_ind (fun w => objs (mem w) !! p = Some h)); [|done].
    intros [it q] w2 w3 Hin Hp2 (hq & Hq & ->)%prune_one_Ok. simpl in *.
    case_bool_decide as Hone; [|done].
    rewrite released_other; [done|]. intros Heq. subst q.
    rewrite Hp2 in Hq. injection Hq as <-.
    assert (2 <= refs h); [|lia]. apply Hpin, list_elem_of_fmap. by exists (it, p).
Qed.

(** ** Outside [Insert], entries and charges only go away *)

Lemma total_charge_nonneg m : charges_nonneg m -> 0 <= total_charge m.
Proof.
  induction m as [|p h m Hp IH] using map_ind; intros Hnn.
  - pose proof total_charge_empty. lia.
  - rewrite total_charge_insert by done.
    assert (0 <= charge h) by (apply (Hnn p); apply lookup_insert_eq).
    assert (0 <= total_charge m); [|lia].
    apply IH. intros q hq Hq. apply (Hnn q). rewrite lookup_insert_ne; [done|].
    intros ->. congruence.
Qed.

Lemma total_charge_mono m1 m2 :
  (forall p h1, m1 !! p = Some h1 -> exists h2, m2 !! p = Some h2 /\ charge h2 = charge h1) ->
  charges_nonneg m2 -> total_charge m1 <= total_charge m2.
Proof.
  revert m2. induction m1 as [|p h m1 Hp IH] using map_ind; intros m2 Hsub Hnn.
  - pose proof total_charge_empty as E. rewrite E. by apply total_charge_nonneg.
  - destruct (Hsub p h) as (h2 & Hp2 & Hc); [apply lookup_insert_eq|].
    rewrite total_charge_insert by done. rewrite (total_charge_delete p h2 m2 Hp2).
    assert (total_charge m1 <= total_charge (delete p m2)); [|lia].
    apply IH.
    + intros q hq Hq. assert (q <> p) by (intros ->; congruence).
      destruct (Hsub q hq) as (h3 & ? & ?); [by rewrite lookup_insert_ne|].
      exists h3. by rewrite lookup_delete_ne.
    + intros q hq [_ Hq]%lookup_delete_Some. eauto.
Qed.

Lemma listed_charge_le_total w :
  charges_nonneg (objs (mem w)) -> listed_charge w <= total_charge (objs (mem w)).
Proof.
  intros Hnn. unfold listed_charge. apply total_charge_mono; [|done].
  intros p h [Hp _]%map_lookup_filter_Some. eauto.
Qed.

Lemma listed_charge_empty w :
  lru_ (this w) = [] -> listed_charge w = 0.
Proof.
  intros Hl. unfold listed_charge.
  replace (filter _ _) with (∅ : gmap positive (LRUHandle Key Value));
    [apply total_charge_empty|].
  symmetry. apply map_empty_filter. intros p h _ Hin. simpl in *.
  rewrite Hl in Hin. by apply elem_of_nil in Hin.
Qed.

Lemma registered_listed w p : registered w p -> p ∈ (lru_ (this w)).*2.
Proof.
  intros (k & it & _ & Hn). simpl in Hn. apply list_elem_of_fmap.
  exists (it, p). split; [done|]. by apply node_ptr_Some.
Qed.

Lemma registered_charge_le_listed w :
  charges_nonneg (objs (mem w)) -> registered_charge w <= listed_charge w.
Proof.
  intros Hnn. unfold registered_charge, listed_charge. apply total_charge_mono.
  - intros p h [Hp Hr]%map_lookup_filter_Some. exists h. split; [|done].
    apply map_lookup_filter_Some. split; [done|]. simpl in *. by apply registered_listed.
  - intros p h [Hp _]%map_lookup_filter_Some. eauto.
Qed.

Lemma shrinks_refl w : shrinks w w.
Proof. split; eauto. Qed.

Lemma shrinks_trans w1 w2 w3 : shrinks w1 w2 -> shrinks w2 w3 -> shrinks w1 w3.
Proof.
  intros [Hc1 Ho1 Hr1] [Hc2 Ho2 Hr2]. split; [congruence| |auto].
  intros p h3 (h2 & Hp2 & ?)%Ho2. apply Ho1 in Hp2 as (h1 & ? & ?).
  exists h1. split; [done|congruence].
Qed.

Lemma shrinks_released p h w :
  objs (mem w) !! p = Some h -> shrinks w (released p h w).
Proof.
  intros Hp. split.
  - apply released_capacity.
  - intros q hq. unfold released. case_bool_decide; simpl.
    + intros [_ Hq]%lookup_delete_Some. eauto.
    + intros [[<- <-]|[_ Hq]]%lookup_insert_Some; eauto.
  - intros q. by rewrite released_lru.
Qed.

Lemma shrinks_shrink w l (t : gmap Key positive) :
  l `sublist_of` lru_ (this w) ->
  shrinks w (mkWorld (mem w) (mkCache (usage_ (this w)) (capacity_ (this w)) l t)).
Proof.
  intros Hl. split; simpl; [done|eauto|].
  intros q Hq. eapply elem_of_sublist; [done|]. by apply fmap_sublist.
Qed.

Lemma shrinks_looked_up it p h w :
  node_ptr it (lru_ (this w)) = Some p ->
  objs (mem w) !! p = Some h -> shrinks w (looked_up it p h w).
Proof.
  intros Hn Hp. unfold looked_up.
  destruct (lru_ (this w)) as [|n l] eqn:Hl; [apply shrinks_refl|].
  rewrite <- Hl in *. clear Hl.
  assert (forall q hq,
             <[p := mkHandle (key h) (value h) (wrap (refs h + 1)) (charge h)]>
               (objs (mem w)) !! q = Some hq ->
             exists h0, objs (mem w) !! q = Some h0 /\ charge h0 = charge hq) as Hobjs.
  { intros q hq [[<- <-]|[_ Hq]]%lookup_insert_Some; eauto. }
  case_bool_decide; split; simpl; try done.
  intros q [Heq|Hq]%elem_of_cons.
  - subst q. apply list_elem_of_fmap. exists (it, p). split; [done|]. by apply node_ptr_Some.
  - eapply elem_of_sublist; [done|]. apply fmap_sublist, drop_node_sublist.
Qed.

Lemma bounded_shrinks cap room w w' :
  bounded cap room w -> wf w' -> shrinks w w' -> bounded cap room w'.
Proof.
  intros [] Hwf' []. 
  assert (charges_nonneg (objs (mem w'))) as Hnn'.
  { intros p h' (h & Hp & <-)%sh_objs0. eauto. }
  split; try done.
  - assert (total_charge (objs (mem w')) <= total_charge (objs (mem w))); [|lia].
    by apply total_charge_mono.
  - congruence.
  - etrans; [|done]. unfold listed_charge. apply total_charge_mono.
    + intros p h' [(h & Hp & ?)%sh_objs0 Hr]%map_lookup_filter_Some.
      exists h. split; [|done]. apply map_lookup_filter_Some. split; [done|]. simpl in *. auto.
    + intros p h [Hp _]%map_lookup_filter_Some. eauto.
Qed.

Lemma shrinks_evict_one w w' :
  wf w -> evict_one w = Ok (tt, w') -> shrinks w w'.
Proof.
  intros Hwf (l & it & p & h & Hl & Hp & _ & ->)%evict_one_Ok.
  eapply shrinks_trans; [|by apply shrinks_released].
  apply shrinks_shrink. rewrite Hl. by apply sublist_inserts_r.
Qed.

Lemma shrinks_prune_one p w w' :
  wf w -> prune_one p w = Ok (tt, w') -> shrinks w w'.
Proof.
  intros Hwf (h & Hp & ->)%prune_one_Ok. case_bool_decide; [|apply shrinks_refl].
  eapply shrinks_trans; [|by apply shrinks_released].
  destruct w as [? []]. by apply (shrinks_shrink (mkWorld _ (mkCache _ _ _ _))).
Qed.

Lemma shrinks_step op r w w' :
  wf w -> (forall k v c, op <> OInsert k v c) -> step op w = Ok (r, w') -> shrinks w w'.
Proof.
  intros Hwf Hop Hs. destruct op as [k v c|k|handle|k|]; simpl in Hs.
  - by destruct (Hop k v c).
  - apply Lookup_Ok in Hs as [(_ & _ & ->)|(it & p & h & Hk & Hn & Hp & _ & ->)].
    + apply shrinks_refl.
    + by apply shrinks_looked_up.
  - apply bind_Ok in Hs as ([] & w1 & Hr & Hs). injection Hs as <- <-.
    destruct handle as [p|]; [|done].
    apply Release_Ok in Hr as (h & Hp & _ & ->). by apply shrinks_released.
  - apply bind_Ok in Hs as ([] & w1 & He & Hs). injection Hs as <- <-.
    apply Erase_Ok in He as [(_ & ->)|(it & p & h & Hk & Hn & Hp & _ & ->)];
      [apply shrinks_refl|].
    eapply shrinks_trans; [by apply (shrinks_released p h)|].
    rewrite <- (released_capacity p h w), <- (released_lru p h w), <- (released_table p h w).
    apply shrinks_shrink. rewrite released_lru. apply drop_node_sublist.
  - apply bind_Ok in Hs as ([] & w1 & Hp & Hs). injection Hs as <- <-.
    unfold Prune in Hp. apply bind_Ok in Hp as (w0 & w2 & Hg & Hp). injection Hg as <- <-.
    cut (wf w1 /\ shrinks w w1); [tauto|].
    revert Hp. apply (for_each_ind (fun w' => wf w' /\ shrinks w w'));
      [|split; [done|apply shrinks_refl]].
    intros n w2 w3 _ [Hwf2 Hsh] Hpr. split; [by eapply wf_prune_one|].
    eapply shrinks_trans; [done|]. by eapply shrinks_prune_one.
Qed.

Lemma bounded_installed cap room k v c w :
  bounded cap (c + room) w -> 0 <= c -> 0 <= room -> table_ (this w) !! k = None ->
  wf (installed k v c w) /\ charges_nonneg (objs (mem (installed k v c w))) /\
  total_charge (objs (mem (installed k v c w))) + room < SIZE_MOD /\
  capacity_ (this (installed k v c w)) = cap.
Proof.
  intros [] Hc Hroom Hk. split; [by apply wf_installed|].
  assert (objs (mem w) !! brk (mem w) = None) as Hfresh.
  { destruct (objs (mem w) !! brk (mem w)) eqn:E; [|done].
    apply (wf_live w bd_wf0) in E. lia. }
  unfold installed. simpl. repeat split; [| |done].
  - intros q hq [[<- <-]|[_ Hq]]%lookup_insert_Some; simpl; eauto.
  - rewrite total_charge_insert by done. simpl. lia.
Qed.

Lemma bounded_step cap room op r w w' :
  0 <= cap -> 0 <= room -> charge_nonneg op ->
  bounded cap (inserted_charge [op] + room) w ->
  step op w = Ok (r, w') -> bounded cap room w'.
Proof.
  intros Hcap Hroom Hop Hb Hs.
  assert ((exists k v c, op = OInsert k v c) \/ ~ (exists k v c, op = OInsert k v c))
    as [(k & v & c & ->)|Hni].
  { destruct op; eauto; right; intros (? & ? & ? & ?); discriminate. }
  - simpl in *. apply bind_Ok in Hs as (hd & w1 & Hi & Hs). injection Hs as <- <-.
    apply Insert_Ok in Hi as (Hk & -> & He).
    rewrite Z.add_0_r in Hb.
    destruct (bounded_installed cap room k v c w Hb Hop Hroom Hk) as (Hwf1 & Hnn1 & Hroom1 & Hcap1).
    assert (wf w1 /\ shrinks (installed k v c w) w1) as [Hwf' Hsh].
    { revert He. apply (evict_loop_ind (fun w' => wf w' /\ shrinks (installed k v c w) w'));
        [|split; [done|apply shrinks_refl]].
      intros w2 w3 [Hwf2 Hsh2] Ho. split; [by eapply wf_evict_one|].
      eapply shrinks_trans; [done|]. by apply shrinks_evict_one. }
    pose proof Hsh as [Hc Ho _].
    assert (charges_nonneg (objs (mem w1))) as Hnn'.
    { intros p h' (h & Hp & <-)%Ho. eauto. }
    assert (total_charge (objs (mem w1)) <= total_charge (objs (mem (installed k v c w)))).
    { by apply total_charge_mono. }
    pose proof (total_charge_nonneg _ Hnn') as Hnn0.
    split; [done|done|lia|congruence|].
    apply evict_loop_exit in He as [Hu|Hl]; [| |simpl; lia].
    + etrans; [by apply listed_charge_le_total|].
      rewrite (wf_usage w1 Hwf'), wrap_small in Hu by (unfold in_size_t; lia).
      rewrite <- Hcap1, <- Hc. done.
    + by rewrite listed_charge_empty.
  - assert (inserted_charge [op] = 0) as Hz.
    { destruct op; simpl; try done. destruct Hni; eauto. }
    rewrite Hz, Z.add_0_l in Hb.
    apply (bounded_shrinks cap room w); [done|eapply wf_step; [apply Hb|done]|].
    eapply shrinks_step; [apply Hb| |done]. intros k v c ->. apply Hni; eauto.
Qed.

(** ** The list is ordered by recency *)

Lemma evict_loop_prefix n w w' :
  evict_loop n w = Ok (tt, w') -> exists gone, lru_ (this w) = lru_ (this w') ++ gone.
Proof.
  apply (evict_loop_ind (fun w' => exists gone, lru_ (this w) = lru_ (this w') ++ gone)).
  - intros w1 w2 [gone Hg] (l & it & p & h & Hl & _ & _ & ->)%evict_one_Ok.
    rewrite released_lru. simpl. exists ((it, p) :: gone).
    rewrite Hg, Hl. by rewrite <- app_assoc.
  - exists []. by rewrite app_nil_r.
Qed.

Lemma looked_up_ptrs k it p h w :
  wf w -> table_ (this w) !! k = Some it -> node_ptr it (lru_ (this w)) = Some p ->
  exists ps : list positive, (lru_ (this (looked_up it p h w))).*2 = p :: ps /\
             ps `sublist_of` (lru_ (this w)).*2 /\ p ∉ ps.
Proof.
  intros Hwf Hk Hn. unfold looked_up.
  pose proof (wf_ptrs w Hwf) as Hnd.
  destruct (lru_ (this w)) as [|[a b] l] eqn:Hl; [done|].
  case_bool_decide as Hmv.
  - exists (drop_node it ((a, b) :: l)).*2. split; [done|]. split.
    + apply fmap_sublist, drop_node_sublist.
    + intros ([it' q] & Hq & Hin)%list_elem_of_fmap. simpl in Hq. subst q.
      apply drop_node_elem in Hin as [Hin Hne]. simpl in Hne. apply Hne. symmetry.
      eapply (NoDup_snd_inj ((a, b) :: l)); eauto. by apply node_ptr_Some.
  - simpl in Hmv. subst it.
    simpl in Hn. rewrite decide_True in Hn by done. injection Hn as ->.
    simpl. rewrite Hl. exists l.*2. split; [done|]. split.
    + by apply sublist_cons.
    + simpl in Hnd. by apply NoDup_cons in Hnd as [? _].
Qed.

Lemma recent_step hist op r w w' :
  wf w -> recent_list hist (lru_ (this w)).*2 -> step op w = Ok (r, w') ->
  recent_list (match r with Some p => p :: hist | None => hist end) (lru_ (this w')).*2.
Proof.
  intros Hwf Hrec Hs. destruct op as [k v c|k|handle|k|]; simpl in Hs.
  - apply bind_Ok in Hs as (hd & w1 & Hi & Hs). injection Hs as <- <-.
    apply Insert_Ok in Hi as (Hk & -> & He).
    apply evict_loop_prefix in He as [gone Hg]. unfold installed in Hg at 1. simpl in Hg.
    apply (recent_sublist _ (brk (mem w) :: (lru_ (this w)).*2)).
    + change (brk (mem w) :: (lru_ (this w)).*2)
        with ((Pos.succ (brk (mem w)), brk (mem w)) :: lru_ (this w)).*2.
      rewrite Hg, fmap_app. by apply sublist_inserts_r.
    + eapply recent_touch; [done|done|].
      intros (n & Hn & Hin)%list_elem_of_fmap. apply (wf_nodes w Hwf) in Hin. lia.
  - apply Lookup_Ok in Hs as [(_ & -> & ->)|(it & p & h & Hk & Hn & Hp & -> & ->)]; [done|].
    destruct (looked_up_ptrs k it p h w Hwf Hk Hn) as (ps & -> & Hsub & Hni).
    by eapply recent_touch.
  - apply bind_Ok in Hs as ([] & w1 & Hr & Hs). injection Hs as <- <-.
    destruct handle as [p|]; [|done].
    apply Release_Ok in Hr as (h & Hp & _ & ->). by rewrite released_lru.
  - apply bind_Ok in Hs as ([] & w1 & He & Hs). injection Hs as <- <-.
    apply Erase_Ok in He as [(_ & ->)|(it & p & h & Hk & Hn & Hp & _ & ->)]; [done|].
    simpl. eapply recent_sublist; [|done]. apply fmap_sublist, drop_node_sublist.
  - apply bind_Ok in Hs as ([] & w1 & Hp & Hs). injection Hs as <- <-.
    unfold Prune in Hp. apply bind_Ok in Hp as (w0 & w2 & Hg & Hp). injection Hg as <- <-.
    replace (lru_ (this w1)) with (lru_ (this w)); [done|]. symmetry.
    revert Hp. apply (for_each_ind (fun w' => lru_ (this w') = lru_ (this w))); [|done].
    intros n w2 w3 _ Hl (h & _ & ->)%prune_one_Ok. case_bool_decide; [|done].
    by rewrite released_lru.
Qed.

Lemma touched_cons r rs :
  touched (r :: rs) = touched rs ++ match r with Some p => [p] | None => [] end.
Proof. unfold touched. simpl. destruct r; simpl; [done|by rewrite app_nil_r]. Qed.

Lemma recent_run ops : forall hist rs w w',
  wf w -> recent_list hist (lru_ (this w)).*2 -> run ops w = Ok (rs, w') ->
  recent_list (touched rs ++ hist) (lru_ (this w')).*2.
Proof.
  induction ops as [|op ops IH]; simpl; intros hist rs w w' Hwf Hrec Hr.
  - by injection Hr as <- <-.
  - apply bind_Ok in Hr as (r & w1 & Hs & Hr).
    apply bind_Ok in Hr as (rs' & w2 & Hr & Hret). injection Hret as <- <-.
    rewrite touched_cons, <- app_assoc.
    eapply IH; [by eapply wf_step| |done].
    pose proof (recent_step hist op r w w1 Hwf Hrec Hs) as Hrec'. by destruct r.
Qed.

(** ** An oversized [Insert] drains the list *)

Lemma evict_loop_continue n w w1 :
  capacity_ (this w) < usage_ (this w) -> lru_ (this w) <> [] ->
  evict_one w = Ok (tt, w1) -> evict_loop (S n) w = evict_loop n w1.
Proof.
  intros Hu Hl Ho. simpl. erewrite bind_eq by reflexivity.
  rewrite bool_decide_eq_true_2 by done. rewrite bool_decide_eq_false_2 by done. simpl.
  by erewrite bind_eq by done.
Qed.

Lemma evict_loop_stop n w : lru_ (this w) = [] -> evict_loop n w = Ok (tt, w).
Proof.
  intros Hl. destruct n; [done|]. simpl. erewrite bind_eq by reflexivity.
  rewrite (bool_decide_eq_true_2 (lru_ (this w) = [])) by done.
  by rewrite andb_false_r.
Qed.

Lemma draining_usage c it0 p0 h0 l w :
  draining c it0 p0 h0 l w -> c <= usage_ (this w).
Proof.
  intros []. rewrite dr_usage0, (total_charge_delete p0 h0 _ dr_new0), dr_charge0.
  assert (0 <= total_charge (delete p0 (objs (mem w)))); [|lia].
  apply total_charge_nonneg. intros q hq [Hne Hq]%lookup_delete_Some.
  pose proof (dr_live0 q hq Hq) as [?|Hin]%elem_of_cons; [done|].
  destruct (dr_old0 q Hin) as (hq' & Hq' & _ & ?). congruence.
Qed.

Lemma drained c it0 p0 h0 l : forall n w,
  draining c it0 p0 h0 l w -> (length l < n)%nat ->
  exists w', evict_loop n w = Ok (tt, w') /\
    lru_ (this w') = [] /\ table_ (this w') = ∅ /\
    objs (mem w') = {[p0 := mkHandle (key h0) (value h0) 1 c]} /\
    usage_ (this w') = c /\ capacity_ (this w') = capacity_ (this w) /\
    brk (mem w') = brk (mem w).
Proof.
  induction l as [|[it q] l IH] using rev_ind; intros n w Hd Hn.
  - pose proof (draining_usage _ _ _ _ _ _ Hd) as Hc. destruct Hd.
    destruct n as [|n]; [simpl in Hn; lia|].
    assert (evict_one w = Ok (tt, released p0 h0 (mkWorld (mem w)
              (mkCache (usage_ (this w)) (capacity_ (this w)) []
                       (delete (key h0) (table_ (this w))))))) as Ho.
    { rewrite (evict_one_eq [] it0 p0 h0) by done.
      rewrite (Release_live p0 h0) by done.
      assert (0 < refs h0) as Hx by lia.
      by rewrite (bool_decide_eq_true_2 _ Hx). }
    erewrite (evict_loop_continue n w); [|lia|by rewrite dr_lru0|exact Ho].
    rewrite evict_loop_stop by (by rewrite released_lru).
    eexists. split; [done|].
    assert (wrap (refs h0 - 1) = 1) as Hw by (rewrite dr_refs0; reflexivity).
    unfold released. rewrite Hw. simpl.
    assert (objs (mem w) = {[p0 := h0]}) as Hobjs.
    { apply map_eq. intros q. destruct (decide (q = p0)) as [->|Hne].
      - by rewrite lookup_singleton_eq.
      - rewrite lookup_singleton_ne by done. destruct (objs (mem w) !! q) eqn:E; [|done].
        apply dr_live0 in E. simpl in E. apply list_elem_of_singleton in E. done. }
    repeat split; try done.
    + apply map_empty. intros k. destruct (delete (key h0) (table_ (this w)) !! k) eqn:E; [|done].
      apply lookup_delete_Some in E as [Hne E].
      destruct (dr_table0 k _ E) as (q & hq & Hq%list_elem_of_singleton & Hhq & Hk).
      subst q. congruence.
    + rewrite Hobjs, insert_singleton_eq, dr_charge0. done.
    + rewrite dr_usage0, Hobjs. unfold total_charge. rewrite map_fold_singleton. lia.
  - pose proof (draining_usage _ _ _ _ _ _ Hd) as Hc. destruct Hd.
    rewrite length_app in Hn. simpl in Hn. destruct n as [|n]; [lia|].
    destruct (dr_old0 q) as (hq & Hq & Hr & Hcq).
    { rewrite fmap_app. apply elem_of_app. right. simpl. left. }
    assert (q <> p0) as Hqp.
    { intros ->. apply NoDup_cons in dr_ptrs0 as [Hni _]. apply Hni.
      rewrite fmap_app. apply elem_of_app. right. simpl. left. }
    assert (q ∉ l.*2) as Hql.
    { apply NoDup_cons in dr_ptrs0 as [_ Hnd]. rewrite fmap_app in Hnd.
      apply NoDup_app in Hnd as (_ & Hnd & _). intros Hin. apply (Hnd q Hin). simpl. left. }
    set (w1 := released q hq (mkWorld (mem w)
              (mkCache (usage_ (this w)) (capacity_ (this w)) ((it0, p0) :: l)
                       (delete (key hq) (table_ (this w)))))).
    assert (evict_one w = Ok (tt, w1)) as Ho.
    { rewrite (evict_one_eq ((it0, p0) :: l) it q hq) by done.
      rewrite (Release_live q hq) by done.
      assert (0 < refs hq) as Hx by lia.
      by rewrite (bool_decide_eq_true_2 _ Hx). }
    erewrite (evict_loop_continue n w); [|lia|by rewrite dr_lru0|exact Ho].
    assert (wrap (refs hq - 1) = 0) as Hw by (rewrite Hr; reflexivity).
    assert (total_charge (objs (mem w)) = charge hq + total_charge (delete q (objs (mem w))))
      as Htot by (by apply total_charge_delete).
    destruct (IH n w1) as (w' & He & Hres); [|lia|].
    + subst w1. unfold released. rewrite Hw. simpl.
      split; simpl; try done.
      * apply NoDup_cons in dr_ptrs0 as [Hni Hnd]. apply NoDup_cons. split.
        -- intros Hin. apply Hni. rewrite fmap_app. apply elem_of_app. by left.
        -- rewrite fmap_app in Hnd. by apply NoDup_app in Hnd as (? & _ & _).
      * by rewrite lookup_delete_ne.
      * intros q' Hq'. destruct (dr_old0 q') as (hq' & ? & ? & ?).
        { rewrite fmap_app. apply elem_of_app. by left. }
        exists hq'. rewrite lookup_delete_ne by (intros ->; done). done.
      * intros q' hq' [Hne Hq']%lookup_delete_Some.
        apply dr_live0 in Hq'. rewrite fmap_app in Hq'. simpl in Hq'.
        apply elem_of_cons in Hq' as [->|Hq']; [left|]. right.
        apply elem_of_app in Hq' as [?|Hq']; [done|].
        apply list_elem_of_singleton in Hq'. done.
      * intros k' it' [Hne Hk']%lookup_delete_Some.
        destruct (dr_table0 k' it' Hk') as (q' & hq' & Hin & Hq' & Hkey).
        assert (q' <> q) as Hne' by (intros ->; congruence).
        exists q', hq'. rewrite lookup_delete_ne by done. split; [|done].
        rewrite fmap_app in Hin. simpl in Hin.
        apply elem_of_cons in Hin as [->|Hin]; [left|]. right.
        apply elem_of_app in Hin as [?|Hin]; [done|].
        apply list_elem_of_singleton in Hin. done.
      * rewrite wrap_small; [lia|]. unfold in_size_t.
        assert (0 <= total_charge (delete q (objs (mem w)))); [|lia].
        rewrite (total_charge_delete p0 h0) by (by rewrite lookup_delete_ne).
        assert (0 <= total_charge (delete p0 (delete q (objs (mem w))))); [|lia].
        apply total_charge_nonneg.
        intros q' hq' [Hne1 [Hne2 Hq']%lookup_delete_Some]%lookup_delete_Some.
        pose proof (dr_live0 q' hq' Hq') as [?|Hin]%elem_of_cons; [done|].
        destruct (dr_old0 q' Hin) as (hq'' & ? & _ & ?). congruence.
      * assert (in_size_t (usage_ (this w) - charge hq)) as Hin; [|rewrite wrap_small; [|done]; destruct Hin; lia].
        unfold in_size_t. split; [|lia]. rewrite dr_usage0, Htot.
        assert (0 <= total_charge (delete q (objs (mem w)))); [|lia].
        rewrite (total_charge_delete p0 h0) by (by rewrite lookup_delete_ne).
        assert (0 <= total_charge (delete p0 (delete q (objs (mem w))))); [|lia].
        apply total_charge_nonneg.
        intros q' hq' [Hne1 [Hne2 Hq']%lookup_delete_Some]%lookup_delete_Some.
        pose proof (dr_live0 q' hq' Hq') as [?|Hin]%elem_of_cons; [done|].
        destruct (dr_old0 q' Hin) as (hq'' & ? & _ & ?). congruence.
    + exists w'. split; [done|]. subst w1. rewrite released_capacity, released_brk in Hres.
      done.
Qed.

End Facts.

(** * The properties of the cache *)

Section Claims.

Context {Key : Type} `{Countable Key} {Value : Type}.

Implicit Types (w : World Key Value) (p it : positive) (h : LRUHandle Key Value)
  (l : list (positive * positive)) (ops : list (Op Key Value)).

Lemma wf_reached cap ops rs w :
  run ops (fresh_world cap) = Ok (rs, w) -> wf w.
Proof. apply wf_run, wf_fresh_world. Qed.

Lemma prune_run_keeps l : forall w w',
  NoDup l.*2 ->
  for_each l prune_one w = Ok (tt, w') ->
  lru_ (this w') = lru_ (this w) /\
  table_ (this w') ⊆ table_ (this w) /\
  (forall q, q ∉ l.*2 -> objs (mem w') !! q = objs (mem w) !! q) /\
  (forall n h, n ∈ l -> objs (mem w) !! n.2 = Some h -> refs h = 1 ->
     objs (mem w') !! n.2 = None /\ table_ (this w') !! key h = None).
Proof.
  induction l as [|[it p] l IH]; simpl; intros w w' Hnd Hf.
  - injection Hf as <-. split; [done|]. split; [done|]. split; [done|].
    intros n h Hn. by apply elem_of_nil in Hn.
  - apply NoDup_cons in Hnd as [Hni Hnd].
    apply bind_Ok in Hf as ([] & w1 & Hp & Hf).
    destruct (IH w1 w' Hnd Hf) as (Hl & Ht & Hout & Hin).
    apply prune_one_Ok in Hp as (hp & Hhp & Hw1).
    assert (lru_ (this w1) = lru_ (this w) /\ table_ (this w1) ⊆ table_ (this w) /\
            forall q, q <> p -> objs (mem w1) !! q = objs (mem w) !! q) as (Hl1 & Ht1 & Ho1).
    { rewrite Hw1. case_bool_decide; [|done].
      rewrite released_lru, released_table. simpl.
      split; [done|]. split; [apply delete_subseteq|].
      intros q Hq. by rewrite released_other. }
    split; [congruence|]. split; [by etrans|]. split.
    + intros q [Hqp Hq]%not_elem_of_cons. rewrite Hout by done. by apply Ho1.
    + intros n h [->|Hn]%elem_of_cons Hh Hone; simpl in *.
      * rewrite Hhp in Hh. injection Hh as ->.
        rewrite bool_decide_eq_true_2 in Hw1 by done.
        assert (objs (mem w1) !! p = None /\ table_ (this w1) !! key h = None) as [Hd Hk].
        { rewrite Hw1. unfold released. rewrite Hone.
          rewrite bool_decide_eq_true_2 by reflexivity. simpl.
          split; apply lookup_delete_eq. }
        split; [by rewrite Hout|]. by eapply lookup_weaken_None.
      * apply Hin; [done| |done]. rewrite Ho1; [done|]. intros Heq. apply Hni.
        rewrite <- Heq. apply list_elem_of_fmap. by exists n.
Qed.

Lemma prune_run_live l : forall w w',
  for_each l prune_one w = Ok (tt, w') ->
  forall n, n ∈ l -> is_Some (objs (mem w) !! n.2).
Proof.
  induction l as [|[it p] l IH]; simpl; intros w w' Hf n Hn.
  - by apply elem_of_nil in Hn.
  - apply bind_Ok in Hf as ([] & w1 & Hp & Hf).
    apply prune_one_Ok in Hp as (hp & Hhp & Hw1).
    apply elem_of_cons in Hn as [->|Hn]; [by exists hp|].
    destruct (IH w1 w' Hf n Hn) as [h Hh]. revert Hh. rewrite Hw1.
    case_bool_decide; [|by exists h]. unfold released. case_bool_decide; simpl.
    + intros [_ Hh]%lookup_delete_Some. by exists h.
    + intros [[<- _]|[_ Hh]]%lookup_insert_Some; [by exists hp|by exists h].
Qed.

(** C1.  [Prune] never takes a node out of the list: an entry that only
    the cache pins (count 1) is erased from the table and deleted, but its
    node stays in [lru_] with the freed pointer, so that a later [Prune] over
    the same list has no defined outcome. *)
Theorem Prune_leaves_unpinned_listed w w' :
  NoDup (lru_ (this w)).*2 ->
  Prune w = Ok (tt, w') ->
  lru_ (this w') = lru_ (this w) /\
  (forall n h, n ∈ lru_ (this w) -> objs (mem w) !! n.2 = Some h -> refs h = 1 ->
     objs (mem w') !! n.2 = None /\ table_ (this w') !! key h = None) /\
  ((exists n h, n ∈ lru_ (this w) /\ objs (mem w) !! n.2 = Some h /\ refs h = 1) ->
     forall w'', Prune w' <> Ok (tt, w'')).
Proof.
  intros Hnd Hp. unfold Prune in Hp.
  apply bind_Ok in Hp as (w0 & w1 & Hg & Hp). injection Hg as <- <-.
  destruct (prune_run_keeps _ _ _ Hnd Hp) as (Hl & _ & _ & Hfreed).
  split; [done|]. split; [done|].
  intros (n & h & Hn & Hh & Hone) w'' Hp'. unfold Prune in Hp'.
  apply bind_Ok in Hp' as (w2 & w3 & Hg & Hp'). injection Hg as <- <-.
  rewrite Hl in Hp'.
  destruct (prune_run_live _ _ _ Hp' n Hn) as [h' Hh'].
  destruct (Hfreed n h Hn Hh Hone) as [Hnone _]. congruence.
Qed.

(** C2.  [Insert] of a key that is registered has no defined outcome: the
    list node is erased (line 97) before the same iterator is dereferenced
    for [Release] (line 99).  Whatever the world, the call never reaches the
    state the overwrite is meant to produce. *)
Theorem Insert_registered_undefined w (k : Key) (v : Value) (c : Z) it :
  table_ (this w) !! k = Some it -> Insert k v c w = UB.
Proof.
  intros Hk. unfold Insert.
  (* the new handle is allocated, the key is found *)
  erewrite bind_eq by reflexivity.
  erewrite bind_eq by (unfold table_find; simpl; rewrite Hk; reflexivity).
  apply bind_UB.
  destruct (node_ptr it (lru_ (this w))) as [old|] eqn:Hn.
  - (* the stored iterator is valid: its node is erased, the table entry
       too, and then the iterator is dereferenced *)
    erewrite bind_eq by (unfold list_erase; simpl; rewrite Hn; reflexivity).
    erewrite bind_eq by reflexivity.
    apply bind_UB. unfold list_deref. simpl. by rewrite node_ptr_drop_same.
  - (* the stored iterator was already stale *)
    apply bind_UB. unfold list_erase. simpl. by rewrite Hn.
Qed.

(** C7.  In a world reached from a new cache, when [Lookup] finds an entry
    that is not at the front it moves the entry to a new list node but leaves
    the old iterator in the table, so that the next [Lookup] of the same key
    dereferences an erased iterator. *)
Theorem Lookup_after_move_undefined cap ops rs w (k : Key) p w' :
  run ops (fresh_world cap) = Ok (rs, w) ->
  Lookup k w = Ok (Some p, w') ->
  head (lru_ (this w)).*2 <> Some p ->
  Lookup k w' = UB.
Proof.
  intros Hwf%wf_reached Hl Hfront.
  apply Lookup_Ok in Hl as [(_ & ? & _)|(it & q & h & Hk & Hn & Hp & Heq & ->)]; [done|].
  injection Heq as <-.
  pose proof (wf_table w Hwf k it Hk) as Hlt.
  unfold looked_up. destruct (lru_ (this w)) as [|[a b] l] eqn:Hlru; [done|].
  case_bool_decide as Hmv.
  - apply (Lookup_stale k it); simpl; [done|].
    rewrite decide_False by lia. apply node_ptr_drop_same.
  - simpl in Hmv. subst a. simpl in Hn. rewrite decide_True in Hn by done.
    injection Hn as ->. by destruct Hfront.
Qed.

(** C4.  In every world reached from a new cache: [usage_] is the total
    charge of the handles not yet deleted (modulo 2^64); [Release] of a live
    handle deletes it and subtracts its charge exactly when the count goes
    from 1 to 0, and otherwise only decrements the count; and an entry that
    is pinned from outside (count at least 2 while listed, or no longer
    listed) survives every call other than the holder's own [Release], with
    its key, value and charge, and stays counted in [usage_]. *)
Theorem pin_count_governs_reclamation cap ops rs w :
  run ops (fresh_world cap) = Ok (rs, w) ->
  usage_ (this w) = wrap (total_charge (objs (mem w))) /\
  forall p h, objs (mem w) !! p = Some h ->
    (0 < refs h ->
       Release (Some p) w = Ok (tt, released p h w) /\
       if decide (refs h = 1)
       then objs (mem (released p h w)) !! p = None /\
            usage_ (this (released p h w)) = wrap (usage_ (this w) - charge h)
       else objs (mem (released p h w)) !! p =
              Some (mkHandle (key h) (value h) (refs h - 1) (charge h)) /\
            usage_ (this (released p h w)) = usage_ (this w)) /\
    (forall op r w',
       op <> ORelease (Some p) ->
       (p ∈ (lru_ (this w)).*2 -> 2 <= refs h) ->
       step op w = Ok (r, w') ->
       exists h', objs (mem w') !! p = Some h' /\ same_entry h h' /\
                  usage_ (this w') = wrap (total_charge (objs (mem w')))).
Proof.
  intros Hwf%wf_reached. split; [by apply wf_usage|].
  intros p h Hp. split.
  - intros Hpos. split.
    { rewrite (Release_live p h w Hp). by rewrite bool_decide_eq_true_2. }
    pose proof (wf_refs w Hwf p h Hp) as Hr. unfold released.
    case_decide as Hone.
    + rewrite Hone. rewrite bool_decide_eq_true_2 by reflexivity. simpl.
      by rewrite lookup_delete_eq.
    + assert (wrap (refs h - 1) = refs h - 1) as Hw.
      { apply wrap_small. unfold in_size_t in *. lia. }
      rewrite Hw. rewrite bool_decide_eq_false_2 by lia. simpl.
      by rewrite lookup_insert_eq.
  - intros op r w' Hop Hpin Hs.
    destruct (step_pinned op r p h w w' Hwf Hp Hop Hpin Hs) as (h' & Hp' & Hsame).
    exists h'. repeat split; try done; try apply Hsame.
    apply wf_usage. by eapply wf_step.
Qed.

(** C3, amended.  When the capacity is not negative, no charge is negative
    and the charges inserted add up to less than 2^64, then after every call
    of every sequence of calls with defined behaviour the charges of the
    registered entries, and even those of all live entries still in the
    list, add up to at most the capacity. *)
Theorem registered_charge_within_capacity cap ops rs w :
  0 <= cap ->
  Forall charge_nonneg ops ->
  inserted_charge ops < SIZE_MOD ->
  run ops (fresh_world cap) = Ok (rs, w) ->
  registered_charge w <= listed_charge w <= capacity_ (this w).
Proof.
  intros Hcap Hnn Hroom Hrun.
  assert (forall ops, Forall charge_nonneg ops -> 0 <= inserted_charge ops) as Hins.
  { clear. induction 1 as [|op ops Hop _ IH]; simpl; [done|].
    destruct op; simpl in *; lia. }
  cut (bounded cap 0 w).
  { intros []. rewrite bd_capacity0. split; [|done]. by apply registered_charge_le_listed. }
  assert (bounded cap (inserted_charge ops) (fresh_world cap : World Key Value)) as Hb.
  { split; simpl; [apply wf_fresh_world|done| |done|].
    - by rewrite total_charge_empty.
    - unfold listed_charge. simpl. rewrite map_filter_empty. by rewrite total_charge_empty. }
  clear Hroom. revert Hb Hrun. generalize (fresh_world cap : World Key Value).
  revert rs. induction Hnn as [|op ops Hop Hnn IH]; simpl; intros rs w0 Hb Hrun.
  - by injection Hrun as <- <-.
  - apply bind_Ok in Hrun as (r & w1 & Hs & Hrun).
    apply bind_Ok in Hrun as (rs' & w2 & Hrun & Hret). injection Hret as <- <-.
    apply (IH rs' w1); [|done].
    apply (bounded_step cap (inserted_charge ops) op r w0); try done; [by apply Hins|].
    replace (inserted_charge [op] + inserted_charge ops)
      with (inserted_charge (op :: ops)); [done|].
    simpl. destruct op; lia.
Qed.

(** C5.  In a world reached from a new cache by calls that returned the
    handles [rs], the list is ordered by recency of the last [Insert] or
    [Lookup] of each entry, newest first, and the eviction loop of [Insert]
    removes a suffix of it: every node the loop removes was touched less
    recently than every node it keeps, the new entry included. *)
Theorem eviction_takes_least_recent cap ops rs w (k : Key) (v : Value) (c : Z) hd w' :
  run ops (fresh_world cap) = Ok (rs, w) ->
  Insert k v c w = Ok (hd, w') ->
  exists it gone,
    (it, hd) :: lru_ (this w) = lru_ (this w') ++ gone /\
    StronglySorted (more_recent (hd :: touched rs)) ((it, hd) :: lru_ (this w)).*2 /\
    forall n g, n ∈ lru_ (this w') -> g ∈ gone ->
                more_recent (hd :: touched rs) n.2 g.2.
Proof.
  intros Hrun Hi. pose proof (wf_reached _ _ _ _ Hrun) as Hwf.
  assert (recent_list (touched rs ++ []) (lru_ (this w)).*2) as Hrec.
  { eapply recent_run; [apply wf_fresh_world| |done]. apply recent_nil. }
  rewrite app_nil_r in Hrec.
  apply Insert_Ok in Hi as (Hk & -> & He).
  apply evict_loop_prefix in He as [gone Hg]. unfold installed in Hg at 1. simpl in Hg.
  assert (recent_list (brk (mem w) :: touched rs) (brk (mem w) :: (lru_ (this w)).*2))
    as [_ Hss].
  { eapply recent_touch; [done|done|].
    intros (n & Hn & Hin)%list_elem_of_fmap. apply (wf_nodes w Hwf) in Hin. lia. }
  exists (Pos.succ (brk (mem w))), gone. split; [done|]. split; [done|].
  intros n g Hn Hgone.
  change (brk (mem w) :: (lru_ (this w)).*2)
    with ((Pos.succ (brk (mem w)), brk (mem w)) :: lru_ (this w)).*2 in Hss.
  rewrite Hg, fmap_app in Hss.
  eapply StronglySorted_app_1_elem_of; [done|..]; apply list_elem_of_fmap; eauto.
Qed.

(** C8, amended.  [Release] fails its assertion exactly when the handle
    points to a live entry whose count is not positive; a null pointer or a
    pointer to a deleted entry is dereferenced unchecked; on a live entry
    with a positive count the count drops by one, and when it reaches zero
    the charge is subtracted from [usage_] and the entry is deleted. *)
Theorem Release_contract w (handle : option positive) :
  (fails_fatally (Release handle w) <->
     exists p h, handle = Some p /\ objs (mem w) !! p = Some h /\ refs h <= 0) /\
  (Release handle w = UB <->
     handle = None \/ exists p, handle = Some p /\ objs (mem w) !! p = None) /\
  (forall p h, handle = Some p -> objs (mem w) !! p = Some h ->
     0 < refs h < SIZE_MOD ->
     exists w', Release handle w = Ok (tt, w') /\
       lru_ (this w') = lru_ (this w) /\ table_ (this w') = table_ (this w) /\
       capacity_ (this w') = capacity_ (this w) /\
       if decide (refs h = 1)
       then objs (mem w') = delete p (objs (mem w)) /\
            usage_ (this w') = wrap (usage_ (this w) - charge h)
       else objs (mem w') =
              <[p := mkHandle (key h) (value h) (refs h - 1) (charge h)]> (objs (mem w)) /\
            usage_ (this w') = usage_ (this w)).
Proof.
  unfold fails_fatally. destruct handle as [p|].
  - destruct (objs (mem w) !! p) as [h|] eqn:Hp.
    + rewrite (Release_live p h w Hp). repeat split.
      * case_bool_decide; [done|]. intros _. exists p, h. repeat split; [done|lia].
      * intros (p' & h' & Heq & Hp' & Hr). injection Heq as <-.
        rewrite Hp in Hp'. injection Hp' as <-. by rewrite bool_decide_eq_false_2 by lia.
      * by case_bool_decide.
      * intros [?|(p' & Heq & Hp')]; [done|]. injection Heq as <-. congruence.
      * intros p' h' Heq Hp' Hr. injection Heq as <-. rewrite Hp in Hp'.
        injection Hp' as <-.
        rewrite bool_decide_eq_true_2 by lia. eexists. split; [done|].
        rewrite released_lru, released_table, released_capacity.
        repeat split. unfold released. case_decide as Hone.
        -- rewrite Hone. by rewrite bool_decide_eq_true_2 by reflexivity.
        -- assert (wrap (refs h - 1) = refs h - 1) as Hw.
           { apply wrap_small. unfold in_size_t. lia. }
           rewrite Hw. by rewrite bool_decide_eq_false_2 by lia.
    + rewrite (Release_dangling p w Hp). repeat split; try done.
      * intros (p' & h' & Heq & Hp' & _). injection Heq as <-. congruence.
      * intros _. right. by exists p.
      * intros p' h' Heq Hp'. injection Heq as <-. congruence.
  - repeat split; try done.
    + by intros (p & h & ? & _).
    + by left.
Qed.

(** C10, amended.  On a quiescent world, when key [k] is not registered and
    [usage_ + c] does not pass 2^64, [Insert] of a charge [c] above the
    capacity empties the list and the table, the new entry included: every
    [Lookup] then returns null and changes nothing, while the returned handle
    is the only live entry, holds [v] with count 1, and [usage_] is [c] until
    [Release] of that handle deletes it and brings [usage_] to 0. *)
Theorem oversized_insert_evicts_itself w (k : Key) (v : Value) (c : Z) :
  quiescent w ->
  table_ (this w) !! k = None ->
  capacity_ (this w) < c ->
  0 <= c ->
  usage_ (this w) + c < SIZE_MOD ->
  exists w',
    Insert k v c w = Ok (brk (mem w), w') /\
    lru_ (this w') = [] /\
    table_ (this w') = ∅ /\
    (forall k', Lookup k' w' = Ok (None, w')) /\
    objs (mem w') = {[brk (mem w) := mkHandle k v 1 c]} /\
    usage_ (this w') = c /\
    exists w'', Release (Some (brk (mem w))) w' = Ok (tt, w'') /\
                objs (mem w'') = ∅ /\ usage_ (this w'') = 0.
Proof.
  intros (Hnd & Hlive & Hlisted & Htable & Husage) Hk Hover Hc Hroom.
  pose proof (proj1 (Forall_forall _ _) Hlisted) as Hlisted'.
  assert (0 <= total_charge (objs (mem w))) as Hnn.
  { apply total_charge_nonneg. intros q hq Hq. by apply Hlive in Hq as (_ & _ & ? & _). }
  assert (objs (mem w) !! brk (mem w) = None) as Hfresh.
  { destruct (objs (mem w) !! brk (mem w)) eqn:E; [|done].
    apply Hlive in E as (_ & _ & _ & ?). lia. }
  assert (brk (mem w) ∉ (lru_ (this w)).*2) as Hni.
  { intros [hq Hq]%Hlisted'. congruence. }
  destruct (drained c (Pos.succ (brk (mem w))) (brk (mem w)) (mkHandle k v 2 c)
              (lru_ (this w)) (S (length (lru_ (this w)))) (installed k v c w))
    as (w' & He & Hl' & Ht' & Ho' & Hu' & Hc' & Hb'); [|lia|].
  { unfold installed. split; simpl; try done.
    - by apply NoDup_cons.
    - apply lookup_insert_eq.
    - intros q Hq. destruct (Hlisted' q Hq) as [hq Hq'].
      exists hq. rewrite lookup_insert_ne by (intros <-; done).
      split; [done|]. by apply Hlive in Hq' as (_ & ? & ? & _).
    - intros q hq [[<- <-]|[_ Hq]]%lookup_insert_Some; [left|right].
      by apply Hlive in Hq as (? & _).
    - intros k' it' [[<- <-]|[Hne Hk']]%lookup_insert_Some.
      + exists (brk (mem w)). eexists. split; [left|]. by rewrite lookup_insert_eq.
      + apply Htable in Hk'. apply Exists_exists in Hk' as (q & Hq & Hkey).
        destruct (objs (mem w) !! q) as [hq|] eqn:Ehq; [|done]. simpl in Hkey.
        injection Hkey as Hkey.
        exists q, hq. split; [by right|]. rewrite lookup_insert_ne by (intros <-; done).
        done.
    - rewrite Husage. rewrite wrap_small by (unfold in_size_t; lia).
      rewrite total_charge_insert by done. simpl. lia.
    - rewrite Husage. rewrite wrap_small by (unfold in_size_t; lia). lia. }
  exists w'. rewrite (Insert_unregistered k v c w Hk).
  erewrite bind_eq by exact He. simpl in Ho'.
  repeat split; try done.
  - intros k'. apply Lookup_absent. by rewrite Ht'.
  - assert (objs (mem w') !! brk (mem w) = Some (mkHandle k v 1 c)) as Hp.
    { rewrite Ho'. apply lookup_singleton_eq. }
    rewrite (Release_live _ _ _ Hp). simpl. eexists. split; [done|].
    unfold released. simpl. rewrite Ho', Hu', delete_singleton_eq. split; [done|].
    rewrite Z.sub_diag. reflexivity.
Qed.

End Claims.

(** * The sharded cache *)

Section Sharding.

Context {Key : Type} `{Countable Key} {Value : Type}.

Variable hash : Key -> Z.

Implicit Types (r : SharedLRUCache.SharedWorld Key Value).

Lemma kNumShards_16 : SharedLRUCache.kNumShards = 16.
Proof. reflexivity. Qed.

Lemma per_capacity_in_range (C : Z) :
  0 <= C <= SIZE_MOD - 16 -> SharedLRUCache.per_capacity C = ceil_div C 16.
Proof.
  intros HC. unfold SharedLRUCache.per_capacity, ceil_div. rewrite kNumShards_16.
  destruct (decide (C = SIZE_MOD - 16)) as [->|Hne]; [reflexivity|].
  rewrite (wrap_small (C + 16)) by (unfold in_size_t; lia).
  rewrite wrap_small by (unfold in_size_t; lia).
  Z.div_mod_to_equations. lia.
Qed.

Lemma init_replicate (C : Z) :
  SharedLRUCache.init (Key:=Key) C =
  replicate 16 (set_capacity (SharedLRUCache.per_capacity C) LRUCache_new).
Proof. reflexivity. Qed.

Lemma on_shard_Ok {A} (i : nat) (m : M Key Value A) r a r' :
  SharedLRUCache.on_shard i m r = Ok (a, r') ->
  exists s s', SharedLRUCache.shard_ r !! i = Some s /\
    m (mkWorld (SharedLRUCache.smem r) s) = Ok (a, mkWorld (SharedLRUCache.smem r') s') /\
    SharedLRUCache.shard_ r' = <[i := s']> (SharedLRUCache.shard_ r).
Proof.
  unfold SharedLRUCache.on_shard.
  destruct (SharedLRUCache.shard_ r !! i) as [s|]; [|done].
  destruct (m _) as [[a' [m' s']]| |] eqn:Hm; try done.
  intros Heq. injection Heq as <- <-. by exists s, s'.
Qed.

(** C6, amended.  For a total capacity [C] of at most 2^64 - 16 the
    constructor makes 16 shards, each of capacity the ceiling of [C / 16];
    the index [hash k mod 16] always designates one of 16 shards; [Insert],
    [LookUp] and [Erase] run on that shard alone, and [Release] on the shard
    chosen by the key read through the handle; the other shards are left as
    they were. *)
Theorem shards_capacity_and_routing (C : Z) :
  0 <= C <= SIZE_MOD - 16 ->
  (length (SharedLRUCache.init (Key:=Key) C) = 16%nat /\
   forall s, s ∈ SharedLRUCache.init (Key:=Key) C -> capacity_ s = ceil_div C 16) /\
  (forall r (k : Key),
     length (SharedLRUCache.shard_ r) = 16%nat ->
     is_Some (SharedLRUCache.shard_ r !! Z.to_nat (hash k mod 16))) /\
  (forall r (k : Key) (v : Value) (c : Z) res r',
     SharedLRUCache.Insert hash k v c r = Ok (res, r') ->
     exists s s', SharedLRUCache.shard_ r !! Z.to_nat (hash k mod 16) = Some s /\
       Insert k v c (mkWorld (SharedLRUCache.smem r) s)
         = Ok (res, mkWorld (SharedLRUCache.smem r') s') /\
       SharedLRUCache.shard_ r' = <[Z.to_nat (hash k mod 16) := s']> (SharedLRUCache.shard_ r)) /\
  (forall r (k : Key) res r',
     SharedLRUCache.LookUp hash k r = Ok (res, r') ->
     exists s s', SharedLRUCache.shard_ r !! Z.to_nat (hash k mod 16) = Some s /\
       Lookup k (mkWorld (SharedLRUCache.smem r) s)
         = Ok (res, mkWorld (SharedLRUCache.smem r') s') /\
       SharedLRUCache.shard_ r' = <[Z.to_nat (hash k mod 16) := s']> (SharedLRUCache.shard_ r)) /\
  (forall r (k : Key) res r',
     SharedLRUCache.Erase hash k r = Ok (res, r') ->
     exists s s', SharedLRUCache.shard_ r !! Z.to_nat (hash k mod 16) = Some s /\
       Erase k (mkWorld (SharedLRUCache.smem r) s)
         = Ok (res, mkWorld (SharedLRUCache.smem r') s') /\
       SharedLRUCache.shard_ r' = <[Z.to_nat (hash k mod 16) := s']> (SharedLRUCache.shard_ r)) /\
  (forall r (p : positive) res r',
     SharedLRUCache.Release hash (Some p) r = Ok (res, r') ->
     exists h s s', objs (SharedLRUCache.smem r) !! p = Some h /\
       SharedLRUCache.shard_ r !! Z.to_nat (hash (key h) mod 16) = Some s /\
       Release (Some p) (mkWorld (SharedLRUCache.smem r) s)
         = Ok (res, mkWorld (SharedLRUCache.smem r') s') /\
       SharedLRUCache.shard_ r' =
         <[Z.to_nat (hash (key h) mod 16) := s']> (SharedLRUCache.shard_ r)).
Proof.
  intros HC. rewrite init_replicate. repeat split.
  - intros s [-> _]%elem_of_replicate. simpl. by apply per_capacity_in_range.
  - intros r k Hlen. apply lookup_lt_is_Some. rewrite Hlen.
    pose proof (Z.mod_pos_bound (hash k) 16). lia.
  - intros r k v c res r' Hs. by apply on_shard_Ok in Hs.
  - intros r k res r' Hs. by apply on_shard_Ok in Hs.
  - intros r k res r' Hs. by apply on_shard_Ok in Hs.
  - intros r p res r'. unfold SharedLRUCache.Release.
    destruct (objs (SharedLRUCache.smem r) !! p) as [h|]; [|done].
    intros (s & s' & ? & ? & ?)%on_shard_Ok. by exists h, s, s'.
Qed.

End Sharding.

(** * Caches used by the protocol

    The defects settled above all start from a list that holds a deleted
    pointer or a table that holds an erased iterator.  A cache is tidy when
    neither has happened yet; on a tidy cache the member functions can be
    followed forwards, and each of them is shown to return. *)

Section Tidy.

Context {Key : Type} `{Countable Key} {Value : Type}.

Implicit Types (w : World Key Value) (p it : positive) (h : LRUHandle Key Value)
  (l : list (positive * positive)) (ops : list (Op Key Value)).

Lemma tidy_wf w : tidy w -> wf w.
Proof.
  intros (Hit & Hpt & Hnodes & Hobjs & Htab & Hus).
  pose proof (proj1 (Forall_forall _ _) Hnodes) as Hnodes'.
  split; try done.
  - intros p h Hp. by apply Hobjs in Hp as [? _].
  - intros n Hn. apply Hnodes' in Hn. tauto.
  - intros k it Hk. by apply Htab in Hk as [? _].
  - intros k1 k2 it Hk1 Hk2. apply Htab in Hk2 as [_ Hinj]. by apply (Hinj k1 it).
  - intros p h Hp. apply Hobjs in Hp as [_ ?]. unfold in_size_t. lia.
Qed.

Lemma tidy_listed w q :
  tidy w -> q ∈ (lru_ (this w)).*2 -> exists h, objs (mem w) !! q = Some h.
Proof.
  intros (_ & _ & Hnodes & _) (n & -> & Hn)%list_elem_of_fmap.
  apply (proj1 (Forall_forall _ _) Hnodes) in Hn as (_ & _ & [h Hh]). by exists h.
Qed.

Lemma tidy_refs w p h : tidy w -> objs (mem w) !! p = Some h -> 1 <= refs h < SIZE_MOD.
Proof. intros (_ & _ & _ & Hobjs & _) Hp. by apply Hobjs in Hp as [_ ?]. Qed.

Lemma tidy_intro w :
  wf w ->
  (forall q, q ∈ (lru_ (this w)).*2 -> is_Some (objs (mem w) !! q)) ->
  (forall p h, objs (mem w) !! p = Some h -> 1 <= refs h) ->
  tidy w.
Proof.
  intros [Hwl Hwn Hwi Hwp Hwt Hwj Hwr Hwu] Hlive Hpos.
  split; [done|]. split; [done|]. split; [|split; [|split; [|done]]].
  - apply Forall_forall. intros n Hn. destruct (Hwn n Hn). split; [done|]. split; [done|].
    apply Hlive. apply list_elem_of_fmap. by exists n.
  - intros p h Hp. split; [eauto|]. pose proof (Hwr p h Hp) as Hr.
    pose proof (Hpos p h Hp). unfold in_size_t in Hr. lia.
  - intros k it Hk. split; [eauto|]. intros k' it' Hk' ->. eauto.
Qed.

Lemma tidy_fresh_world cap : tidy (fresh_world cap : World Key Value).
Proof.
  apply tidy_intro; [apply wf_fresh_world|..]; simpl.
  - intros q Hq. by apply elem_of_nil in Hq.
  - intros p h Hp. by rewrite lookup_empty in Hp.
Qed.

(** [Release] of a pin the caller holds. *)
Lemma tidy_released p h w :
  tidy w -> objs (mem w) !! p = Some h -> (p ∈ (lru_ (this w)).*2 -> 2 <= refs h) ->
  tidy (released p h w).
Proof.
  intros Ht Hp Hheld. pose proof (tidy_wf _ Ht) as Hwf.
  pose proof (tidy_refs _ _ _ Ht Hp) as Hr.
  apply tidy_intro; [by apply wf_released|..].
  - rewrite released_lru. intros q Hq.
    destruct (decide (q = p)) as [->|Hne].
    + specialize (Hheld Hq). unfold released.
      rewrite bool_decide_eq_false_2.
      * simpl. rewrite lookup_insert_eq. by eexists.
      * rewrite wrap_small by (unfold in_size_t; lia). lia.
    + rewrite released_other by done. destruct (tidy_listed _ _ Ht Hq) as [hq ?]. by exists hq.
  - intros q hq. unfold released. case_bool_decide as Hz; simpl.
    + intros [_ Hq]%lookup_delete_Some. by apply (tidy_refs _ _ _ Ht) in Hq as [? _].
    + intros [[<- <-]|[_ Hq]]%lookup_insert_Some; simpl.
      * rewrite wrap_small in * by (unfold in_size_t; lia). lia.
      * by apply (tidy_refs _ _ _ Ht) in Hq as [? _].
Qed.

(** Dropping list nodes and table entries. *)
Lemma tidy_shrink w l (t : gmap Key positive) :
  tidy w -> l `sublist_of` lru_ (this w) -> t ⊆ table_ (this w) ->
  tidy (mkWorld (mem w) (mkCache (usage_ (this w)) (capacity_ (this w)) l t)).
Proof.
  intros Ht Hl Hsub. apply tidy_intro; [apply wf_shrink; [by apply tidy_wf|done|done]|..]; simpl.
  - intros q Hq. destruct (tidy_listed w q Ht) as [h Hh]; [|by exists h].
    eapply elem_of_sublist; [done|]. by apply fmap_sublist.
  - intros p h Hp. by apply (tidy_refs _ _ _ Ht) in Hp as [? _].
Qed.

Lemma released_shrunk p h w l (t : gmap Key positive) :
  released p h (mkWorld (mem w) (mkCache (usage_ (this w)) (capacity_ (this w)) l t)) =
  mkWorld (mem (released p h w))
          (mkCache (usage_ (this (released p h w))) (capacity_ (this w)) l t).
Proof. unfold released. by case_bool_decide. Qed.

(** A node taken out of the list, its handle released. *)
Lemma tidy_unlinked p h w l (t : gmap Key positive) :
  tidy w -> objs (mem w) !! p = Some h ->
  l `sublist_of` lru_ (this w) -> p ∉ l.*2 -> t ⊆ table_ (this w) ->
  tidy (released p h (mkWorld (mem w) (mkCache (usage_ (this w)) (capacity_ (this w)) l t))).
Proof.
  intros Ht Hp Hl Hni Hsub. apply tidy_released; [by apply tidy_shrink|done|]. simpl. done.
Qed.

Lemma released_refs p h w :
  1 <= refs h < SIZE_MOD ->
  objs (mem (released p h w)) =
  if decide (refs h = 1) then delete p (objs (mem w))
  else <[p := mkHandle (key h) (value h) (refs h - 1) (charge h)]> (objs (mem w)).
Proof.
  intros Hr. unfold released. rewrite wrap_small by (unfold in_size_t; lia).
  case_decide as Hone.
  - by rewrite bool_decide_eq_true_2 by lia.
  - by rewrite bool_decide_eq_false_2 by lia.
Qed.

Lemma released_usage p h w :
  1 <= refs h < SIZE_MOD ->
  usage_ (this (released p h w)) =
  if decide (refs h = 1) then wrap (usage_ (this w) - charge h) else usage_ (this w).
Proof.
  intros Hr. unfold released. rewrite wrap_small by (unfold in_size_t; lia).
  case_decide as Hone.
  - by rewrite bool_decide_eq_true_2 by lia.
  - by rewrite bool_decide_eq_false_2 by lia.
Qed.

Lemma Release_tidy p h w :
  tidy w -> objs (mem w) !! p = Some h -> Release (Some p) w = Ok (tt, released p h w).
Proof.
  intros Ht Hp. rewrite (Release_live p h w Hp).
  pose proof (tidy_refs _ _ _ Ht Hp). by rewrite bool_decide_eq_true_2 by lia.
Qed.

(** ** The eviction loop on a tidy cache *)

Lemma evict_loop_done n w :
  usage_ (this w) <= capacity_ (this w) \/ lru_ (this w) = [] ->
  evict_loop n w = Ok (tt, w).
Proof.
  intros Hc. destruct n; [done|]. simpl. erewrite bind_eq by reflexivity.
  destruct Hc as [Hu|Hl].
  - by rewrite bool_decide_eq_false_2 by lia.
  - rewrite (bool_decide_eq_true_2 (lru_ (this w) = [])) by done.
    by rewrite andb_false_r.
Qed.

Lemma evict_one_tidy w l it q :
  tidy w -> lru_ (this w) = l ++ [(it, q)] ->
  exists h, objs (mem w) !! q = Some h /\ (q ∉ l.*2) /\
    evict_one w =
      Ok (tt, released q h (mkWorld (mem w)
                (mkCache (usage_ (this w)) (capacity_ (this w)) l
                         (delete (key h) (table_ (this w)))))) /\
    tidy (released q h (mkWorld (mem w)
            (mkCache (usage_ (this w)) (capacity_ (this w)) l
                     (delete (key h) (table_ (this w)))))).
Proof.
  intros Ht Hl.
  destruct (tidy_listed w q Ht) as [h Hq].
  { rewrite Hl, fmap_app. apply elem_of_app. right. simpl. left. }
  assert (q ∉ l.*2) as Hni.
  { destruct Ht as (_ & Hnd & _). rewrite Hl, fmap_app in Hnd.
    apply NoDup_app in Hnd as (_ & Hnd & _). intros Hin. apply (Hnd q Hin). simpl. left. }
  assert (l `sublist_of` lru_ (this w)) as Hsub.
  { rewrite Hl. by apply sublist_inserts_r. }
  exists h. split; [done|]. split; [done|]. split.
  - rewrite (evict_one_eq l it q h w Hl Hq).
    apply Release_tidy; [|done]. apply tidy_shrink; [done|done|apply delete_subseteq].
  - apply tidy_unlinked; [done|done|done|done|apply delete_subseteq].
Qed.

Lemma evict_loop_tidy n : forall w,
  tidy w ->
  exists w' gone,
    evict_loop n w = Ok (tt, w') /\ tidy w' /\
    lru_ (this w) = lru_ (this w') ++ gone /\
    capacity_ (this w') = capacity_ (this w) /\
    brk (mem w') = brk (mem w) /\
    table_ (this w') ⊆ table_ (this w) /\
    (forall q, q ∉ gone.*2 -> objs (mem w') !! q = objs (mem w) !! q) /\
    (forall q h, q ∈ gone.*2 -> objs (mem w) !! q = Some h ->
       table_ (this w') !! key h = None /\
       objs (mem w') !! q =
         if decide (refs h = 1) then None
         else Some (mkHandle (key h) (value h) (refs h - 1) (charge h))) /\
    (forall k, (forall q h, q ∈ gone.*2 -> objs (mem w) !! q = Some h -> key h <> k) ->
       table_ (this w') !! k = table_ (this w) !! k).
Proof.
  induction n as [|n IH]; intros w Ht.
  - exists w, []. split; [done|]. split; [done|]. split; [by rewrite app_nil_r|].
    split; [done|]. split; [done|]. split; [done|]. split; [done|]. split; [|done].
    intros q h Hq. by apply elem_of_nil in Hq.
  - destruct (decide (usage_ (this w) <= capacity_ (this w) \/ lru_ (this w) = []))
      as [Hstop|Hgo].
    { exists w, []. split; [by apply evict_loop_done|]. split; [done|].
      split; [by rewrite app_nil_r|].
      split; [done|]. split; [done|]. split; [done|]. split; [done|]. split; [|done].
      intros q h Hq. by apply elem_of_nil in Hq. }
    assert (capacity_ (this w) < usage_ (this w)) as Hover by lia.
    assert (lru_ (this w) <> []) as Hne by tauto.
    destruct (lru_ (this w)) as [|[it q] l _] eqn:Hl using rev_ind; [done|].
    rewrite <- Hl in Hne.
    destruct (evict_one_tidy w l it q Ht Hl) as (h & Hq & Hni & Ho & Ht1).
    set (w1 := released q h (mkWorld (mem w)
            (mkCache (usage_ (this w)) (capacity_ (this w)) l
                     (delete (key h) (table_ (this w)))))) in *.
    destruct (IH w1 Ht1) as (w' & gone & He & Ht' & Hl' & Hc' & Hb' & Hsub' & Hout' & Hin' & Hk').
    assert (lru_ (this w1) = l) as Hl1 by (unfold w1; by rewrite released_lru).
    assert (table_ (this w1) = delete (key h) (table_ (this w))) as Htab1
      by (unfold w1; by rewrite released_table).
    assert (forall q', q' <> q -> objs (mem w1) !! q' = objs (mem w) !! q') as Hother.
    { intros q' Hq'. unfold w1. by rewrite released_other. }
    assert (objs (mem w1) !! q =
            if decide (refs h = 1) then None
            else Some (mkHandle (key h) (value h) (refs h - 1) (charge h))) as Hself.
    { unfold w1. rewrite released_refs by (by apply (tidy_refs w q)). simpl.
      case_decide; [apply lookup_delete_eq|apply lookup_insert_eq]. }
    assert (q ∉ gone.*2) as Hqg.
    { intros Hin. apply Hni. rewrite <- Hl1, Hl', fmap_app. apply elem_of_app. by right. }
    exists w', (gone ++ [(it, q)]).
    split; [by rewrite (evict_loop_continue n w w1 Hover Hne Ho)|].
    split; [done|].
    split; [by rewrite app_assoc, <- Hl', Hl1|].
    split; [by rewrite Hc'; unfold w1; rewrite released_capacity|].
    split; [by rewrite Hb'; unfold w1; rewrite released_brk|].
    split; [etrans; [done|]; rewrite Htab1; apply delete_subseteq|].
    split; [|split].
    + intros q'. rewrite fmap_app, elem_of_app. simpl. rewrite list_elem_of_singleton.
      intros Hq'. rewrite Hout' by tauto. apply Hother. intros ->. tauto.
    + intros q' h'. rewrite fmap_app, elem_of_app. simpl. rewrite list_elem_of_singleton.
      intros [Hq'| ->] Hh'.
      * apply Hin'; [done|]. rewrite Hother; [done|]. by intros ->.
      * rewrite Hq in Hh'. injection Hh' as <-. split.
        -- eapply lookup_weaken_None; [|done]. rewrite Htab1. apply lookup_delete_eq.
        -- by rewrite Hout'.
    + intros k Hk. rewrite Hk'.
      * rewrite Htab1. apply lookup_delete_ne. apply (Hk q h); [|done].
        rewrite fmap_app, elem_of_app. right. simpl. left.
      * intros q' h' Hq' Hh'. apply (Hk q' h').
        -- rewrite fmap_app, elem_of_app. by left.
        -- rewrite <- Hother; [done|]. by intros ->.
Qed.

Lemma tidy_installed k v c w :
  tidy w -> table_ (this w) !! k = None -> tidy (installed k v c w).
Proof.
  intros Ht Hk. apply tidy_intro; [apply wf_installed; [by apply tidy_wf|done]| |]; simpl.
  - intros q [->|Hq]%elem_of_cons.
    + rewrite lookup_insert_eq. by eexists.
    + destruct (tidy_listed w q Ht Hq) as [h Hh].
      destruct (decide (q = brk (mem w))) as [->|Hne].
      * rewrite lookup_insert_eq. by eexists.
      * rewrite lookup_insert_ne by done. by exists h.
  - intros p h [[<- <-]|[_ Hp]]%lookup_insert_Some; simpl; [lia|].
    by apply (tidy_refs w p h Ht) in Hp as [? _].
Qed.

Lemma tidy_fresh_address w : tidy w -> objs (mem w) !! brk (mem w) = None.
Proof.
  intros Ht. destruct (objs (mem w) !! brk (mem w)) as [h|] eqn:E; [|done].
  apply (wf_live w (tidy_wf w Ht)) in E. lia.
Qed.

Lemma tidy_fresh_unlisted w : tidy w -> brk (mem w) ∉ (lru_ (this w)).*2.
Proof.
  intros Ht [h Hh]%(tidy_listed w _ Ht). by rewrite tidy_fresh_address in Hh.
Qed.

(** ** [Erase] of a key whose iterator is valid *)

Lemma Erase_valid k it p h w :
  table_ (this w) !! k = Some it -> node_ptr it (lru_ (this w)) = Some p ->
  objs (mem w) !! p = Some h -> 0 < refs h ->
  Erase k w =
  Ok (tt, released p h (mkWorld (mem w)
            (mkCache (usage_ (this w)) (capacity_ (this w))
                     (drop_node it (lru_ (this w))) (delete k (table_ (this w)))))).
Proof.
  intros Hk Hn Hp Hr. unfold Erase.
  erewrite bind_eq by (unfold table_find; rewrite Hk; reflexivity).
  cbv beta iota.
  erewrite bind_eq by (unfold list_deref; rewrite Hn; reflexivity).
  erewrite bind_eq
    by (rewrite (Release_live p h w Hp), bool_decide_eq_true_2 by done; reflexivity).
  erewrite bind_eq
    by (unfold list_erase; rewrite released_lru, Hn; reflexivity).
  unfold table_erase, with_table, with_lru. simpl.
  rewrite released_shrunk, released_table, released_capacity. done.
Qed.

Lemma Erase_stale k it w :
  table_ (this w) !! k = Some it -> node_ptr it (lru_ (this w)) = None -> Erase k w = UB.
Proof.
  intros Hk Hn. unfold Erase.
  erewrite bind_eq by (unfold table_find; rewrite Hk; reflexivity).
  cbv beta iota. apply bind_UB. unfold list_deref. by rewrite Hn.
Qed.

Lemma node_ptr_unique it p l :
  NoDup l.*2 -> node_ptr it l = Some p -> p ∉ (drop_node it l).*2.
Proof.
  intros Hnd Hn%node_ptr_Some ([it' q] & Heq & Hin)%list_elem_of_fmap.
  simpl in Heq. subst q. apply drop_node_elem in Hin as [Hin Hne]. simpl in Hne.
  apply Hne. by apply (NoDup_snd_inj l it' it p).
Qed.

Lemma drop_node_fresh it l : it ∉ l.*1 -> drop_node it l = l.
Proof.
  intros Hni. induction l as [|[a b] l IH]; [done|].
  unfold drop_node in *. rewrite filter_cons. simpl in *.
  apply not_elem_of_cons in Hni as [Hne Hni].
  rewrite decide_True by done. f_equal. by apply IH.
Qed.

Lemma drop_node_head it p l : it ∉ l.*1 -> drop_node it ((it, p) :: l) = l.
Proof.
  intros Hni. unfold drop_node. rewrite filter_cons. simpl.
  rewrite decide_False by tauto. by apply drop_node_fresh.
Qed.

(** ** [Lookup] *)

Lemma looked_up_front it p h l w :
  lru_ (this w) = (it, p) :: l ->
  looked_up it p h w =
  mkWorld (mkHeap (<[p := mkHandle (key h) (value h) (wrap (refs h + 1)) (charge h)]>
                     (objs (mem w))) (brk (mem w))) (this w).
Proof.
  intros Hl. unfold looked_up. rewrite Hl. simpl.
  by rewrite bool_decide_eq_false_2 by tauto.
Qed.

Lemma looked_up_stale k it p h w :
  wf w -> table_ (this w) !! k = Some it -> node_ptr it (lru_ (this w)) = Some p ->
  head (lru_ (this w)).*2 <> Some p ->
  table_ (this (looked_up it p h w)) !! k = Some it /\
  node_ptr it (lru_ (this (looked_up it p h w))) = None.
Proof.
  intros Hwf Hk Hn Hfront.
  pose proof (wf_table w Hwf k it Hk) as Hlt.
  unfold looked_up. destruct (lru_ (this w)) as [|[a b] l] eqn:Hlru; [done|].
  case_bool_decide as Hmv; simpl.
  - split; [done|]. rewrite decide_False by lia. apply node_ptr_drop_same.
  - simpl in Hmv. assert (it = a) as -> by (destruct (decide (it = a)); [done|tauto]).
    simpl in Hn. rewrite decide_True in Hn by done.
    injection Hn as ->. by destruct Hfront.
Qed.

Lemma tidy_looked_up k it p h w :
  tidy w -> table_ (this w) !! k = Some it -> node_ptr it (lru_ (this w)) = Some p ->
  objs (mem w) !! p = Some h -> refs h + 1 < SIZE_MOD ->
  tidy (looked_up it p h w).
Proof.
  intros Ht Hk Hn Hp Hroom.
  pose proof (tidy_refs w p h Ht Hp) as Hr.
  assert (forall q, q ∈ (lru_ (this w)).*2 ->
            is_Some (<[p := mkHandle (key h) (value h) (wrap (refs h + 1)) (charge h)]>
                       (objs (mem w)) !! q)) as Hlive.
  { intros q Hq. destruct (decide (q = p)) as [->|Hne].
    - rewrite lookup_insert_eq. by eexists.
    - rewrite lookup_insert_ne by done. destruct (tidy_listed w q Ht Hq) as [hq ?]. by exists hq. }
  assert (forall q hq,
            <[p := mkHandle (key h) (value h) (wrap (refs h + 1)) (charge h)]>
              (objs (mem w)) !! q = Some hq -> 1 <= refs hq) as Hpos.
  { intros q hq [[<- <-]|[_ Hq]]%lookup_insert_Some; simpl.
    - rewrite wrap_small by (unfold in_size_t; lia). lia.
    - by apply (tidy_refs w q hq Ht) in Hq as [? _]. }
  apply tidy_intro; [apply (wf_looked_up k); [by apply tidy_wf|done..]| |].
  - unfold looked_up. destruct (lru_ (this w)) as [|[a b] l] eqn:Hl.
    + intros q Hq. rewrite Hl in Hq. by apply elem_of_nil in Hq.
    + rewrite <- Hl in *. case_bool_decide; simpl; [|done].
      intros q [->|Hq]%elem_of_cons.
      * rewrite lookup_insert_eq. by eexists.
      * apply Hlive. eapply elem_of_sublist; [done|]. apply fmap_sublist, drop_node_sublist.
  - unfold looked_up. destruct (lru_ (this w)) as [|[a b] l] eqn:Hl.
    + intros q hq Hq. by apply (tidy_refs w q hq Ht) in Hq as [? _].
    + case_bool_decide; simpl; done.
Qed.

(** ** The range-for loops over the list *)

(** [Release] of every element, as the destructor does. *)
Lemma release_all l : forall w,
  NoDup l.*2 ->
  (forall q, q ∈ l.*2 -> exists h, objs (mem w) !! q = Some h /\ 1 <= refs h < SIZE_MOD) ->
  exists w',
    for_each l (fun p => Release (Some p)) w = Ok (tt, w') /\
    lru_ (this w') = lru_ (this w) /\ table_ (this w') = table_ (this w) /\
    capacity_ (this w') = capacity_ (this w) /\ brk (mem w') = brk (mem w) /\
    (forall q, q ∉ l.*2 -> objs (mem w') !! q = objs (mem w) !! q) /\
    (forall q h, q ∈ l.*2 -> objs (mem w) !! q = Some h ->
       objs (mem w') !! q =
         if decide (refs h = 1) then None
         else Some (mkHandle (key h) (value h) (refs h - 1) (charge h))) /\
    (wf w -> wf w').
Proof.
  induction l as [|[it p] l IH]; intros w Hnd Hlive.
  - exists w. split; [done|]. do 4 (split; [done|]). split; [done|]. split; [|done].
    intros q h Hq. by apply elem_of_nil in Hq.
  - simpl in Hnd. apply NoDup_cons in Hnd as [Hni Hnd].
    destruct (Hlive p) as (h & Hp & Hr); [simpl; left|].
    set (w1 := released p h w).
    assert (Release (Some p) w = Ok (tt, w1)) as Hrel.
    { rewrite (Release_live p h w Hp). by rewrite bool_decide_eq_true_2 by lia. }
    assert (forall q, q <> p -> objs (mem w1) !! q = objs (mem w) !! q) as Hother.
    { intros q Hq. unfold w1. by rewrite released_other. }
    assert (objs (mem w1) !! p =
            if decide (refs h = 1) then None
            else Some (mkHandle (key h) (value h) (refs h - 1) (charge h))) as Hself.
    { unfold w1. rewrite released_refs by done.
      case_decide; [apply lookup_delete_eq|apply lookup_insert_eq]. }
    destruct (IH w1 Hnd) as (w' & Hf & Hl' & Ht' & Hc' & Hb' & Hout & Hin & Hwf).
    { intros q Hq. rewrite Hother by (intros ->; done). apply Hlive. simpl. by right. }
    exists w'. split.
    { simpl. erewrite bind_eq by exact Hrel. done. }
    split; [by rewrite Hl'; unfold w1; rewrite released_lru|].
    split; [by rewrite Ht'; unfold w1; rewrite released_table|].
    split; [by rewrite Hc'; unfold w1; rewrite released_capacity|].
    split; [by rewrite Hb'; unfold w1; rewrite released_brk|].
    split; [|split].
    + simpl. intros q [Hqp Hq]%not_elem_of_cons. rewrite Hout by done. by apply Hother.
    + simpl. intros q hq [->|Hq]%elem_of_cons Hhq.
      * rewrite Hp in Hhq. injection Hhq as <-. by rewrite Hout.
      * apply Hin; [done|]. rewrite Hother; [done|]. by intros ->.
    + intros Hw. apply Hwf. unfold w1. by apply wf_released.
Qed.

(** The loop stops at the first element whose handle was deleted. *)
Lemma release_all_dangling l : forall w,
  NoDup l.*2 ->
  (forall q h, q ∈ l.*2 -> objs (mem w) !! q = Some h -> 1 <= refs h) ->
  (exists q, q ∈ l.*2 /\ objs (mem w) !! q = None) ->
  for_each l (fun p => Release (Some p)) w = UB.
Proof.
  induction l as [|[it p] l IH]; intros w Hnd Hpos (q & Hq & Hdead).
  - by apply elem_of_nil in Hq.
  - simpl in Hnd. apply NoDup_cons in Hnd as [Hni Hnd]. simpl.
    destruct (objs (mem w) !! p) as [h|] eqn:Hp.
    + assert (1 <= refs h) as Hr by (apply (Hpos p h); [simpl; left|done]).
      assert (Release (Some p) w = Ok (tt, released p h w)) as Hrel.
      { rewrite (Release_live p h w Hp). by rewrite bool_decide_eq_true_2 by lia. }
      erewrite bind_eq by exact Hrel.
      simpl in Hq. apply elem_of_cons in Hq as [->|Hq]; [congruence|].
      apply IH; [done| |].
      * intros q' h' Hq' Hh'. rewrite released_other in Hh' by (intros ->; done).
        apply (Hpos q' h'); [simpl; by right|done].
      * exists q. split; [done|]. rewrite released_other; [done|]. by intros ->.
    + apply bind_UB. by apply Release_dangling.
Qed.

(** One element of [Prune]. *)
Lemma prune_one_live p h w :
  objs (mem w) !! p = Some h ->
  prune_one p w =
  if bool_decide (refs h = 1)
  then Release (Some p) (with_table (delete (key h) (table_ (this w))) w)
  else Ok (tt, w).
Proof.
  intros Hp. unfold prune_one.
  erewrite bind_eq by (unfold load; rewrite Hp; reflexivity).
  cbv beta. case_bool_decide; [|done].
  erewrite bind_eq by reflexivity. cbv beta.
  destruct (table_ (this w) !! key h) as [it|] eqn:Hk.
  - by erewrite bind_eq by reflexivity.
  - erewrite bind_eq by reflexivity. unfold with_table.
    rewrite delete_id by done. by destruct w as [? []].
Qed.

Lemma prune_all l : forall w,
  NoDup l.*2 ->
  (forall q, q ∈ l.*2 -> exists h, objs (mem w) !! q = Some h /\ 1 <= refs h < SIZE_MOD) ->
  exists w',
    for_each l prune_one w = Ok (tt, w') /\
    lru_ (this w') = lru_ (this w) /\
    capacity_ (this w') = capacity_ (this w) /\ brk (mem w') = brk (mem w) /\
    (forall q, q ∉ l.*2 -> objs (mem w') !! q = objs (mem w) !! q) /\
    (forall q h, q ∈ l.*2 -> objs (mem w) !! q = Some h ->
       objs (mem w') !! q = if decide (refs h = 1) then None else Some h) /\
    (forall k, (forall q h, q ∈ l.*2 -> objs (mem w) !! q = Some h -> refs h = 1 ->
                  key h <> k) ->
       table_ (this w') !! k = table_ (this w) !! k) /\
    (wf w -> wf w').
Proof.
  induction l as [|[it p] l IH]; intros w Hnd Hlive.
  - exists w. split; [done|]. do 3 (split; [done|]). split; [done|]. split; [|done].
    intros q h Hq. by apply elem_of_nil in Hq.
  - simpl in Hnd. apply NoDup_cons in Hnd as [Hni Hnd].
    destruct (Hlive p) as (h & Hp & Hr); [simpl; left|].
    set (w1 := if bool_decide (refs h = 1)
               then released p h (with_table (delete (key h) (table_ (this w))) w)
               else w).
    assert (prune_one p w = Ok (tt, w1)) as Hpr.
    { rewrite (prune_one_live p h w Hp). unfold w1. case_bool_decide; [|done].
      rewrite (Release_live p h) by done. by rewrite bool_decide_eq_true_2 by lia. }
    assert (lru_ (this w1) = lru_ (this w) /\ capacity_ (this w1) = capacity_ (this w) /\
            brk (mem w1) = brk (mem w)) as (Hl1 & Hc1 & Hb1).
    { unfold w1. case_bool_decide; [|done].
      by rewrite released_lru, released_capacity, released_brk. }
    assert (forall q, q <> p -> objs (mem w1) !! q = objs (mem w) !! q) as Hother.
    { intros q Hq. unfold w1. case_bool_decide; [|done]. by rewrite released_other. }
    assert (objs (mem w1) !! p = if decide (refs h = 1) then None else Some h) as Hself.
    { unfold w1. case_bool_decide as Hone.
      - rewrite decide_True by done. rewrite released_refs by done.
        rewrite decide_True by done. apply lookup_delete_eq.
      - by rewrite decide_False by done. }
    assert (forall k, (refs h = 1 -> key h <> k) ->
              table_ (this w1) !! k = table_ (this w) !! k) as Htab1.
    { intros k Hk. unfold w1. case_bool_decide as Hone; [|done].
      rewrite released_table. simpl. apply lookup_delete_ne. by apply Hk. }
    assert (wf w -> wf w1) as Hwf1.
    { intros Hw. unfold w1. case_bool_decide; [|done].
      apply wf_released; [|done]. apply wf_shrink; [done|done|apply delete_subseteq]. }
    destruct (IH w1 Hnd) as (w' & Hf & Hl' & Hc' & Hb' & Hout & Hin & Htab & Hwf).
    { intros q Hq. rewrite Hother by (intros ->; done). apply Hlive. simpl. by right. }
    exists w'. split.
    { simpl. erewrite bind_eq by exact Hpr. done. }
    split; [congruence|]. split; [congruence|]. split; [congruence|].
    split; [|split; [|split]].
    + simpl. intros q [Hqp Hq]%not_elem_of_cons. rewrite Hout by done. by apply Hother.
    + simpl. intros q hq [->|Hq]%elem_of_cons Hhq.
      * rewrite Hp in Hhq. injection Hhq as <-. by rewrite Hout.
      * apply Hin; [done|]. rewrite Hother; [done|]. by intros ->.
    + intros k Hk. rewrite Htab.
      * apply Htab1. intros Hone. apply (Hk p h); [simpl; left|done|done].
      * intros q hq Hq Hhq. rewrite Hother in Hhq by (intros ->; done).
        apply (Hk q hq); [simpl; by right|done].
    + auto.
Qed.

(** ** [Debug] *)

Lemma debug_all l : forall w,
  (forall q, q ∈ l.*2 -> is_Some (objs (mem w) !! q)) ->
  exists hs, Forall2 (fun n h => objs (mem w) !! n.2 = Some h) l hs /\
    for_each_out l debug_one w = Ok (concat (debug_line <$> hs), w).
Proof.
  induction l as [|[it p] l IH]; intros w Hlive.
  - exists []. split; [constructor|done].
  - destruct (Hlive p) as [h Hp]; [simpl; left|].
    destruct (IH w) as (hs & Hall & Hf).
    { intros q Hq. apply Hlive. simpl. by right. }
    exists (h :: hs). split; [by constructor|]. simpl.
    erewrite bind_eq
      by (unfold debug_one; erewrite bind_eq
            by (unfold load; rewrite Hp; reflexivity); reflexivity).
    erewrite bind_eq by exact Hf. done.
Qed.

Lemma debug_dangling l : forall w,
  (exists q, q ∈ l.*2 /\ objs (mem w) !! q = None) ->
  for_each_out l debug_one w = UB.
Proof.
  induction l as [|[it p] l IH]; intros w (q & Hq & Hdead).
  - by apply elem_of_nil in Hq.
  - simpl. destruct (objs (mem w) !! p) as [h|] eqn:Hp.
    + erewrite bind_eq
        by (unfold debug_one; erewrite bind_eq
              by (unfold load; rewrite Hp; reflexivity); reflexivity).
      apply bind_UB. apply IH. exists q. split; [|done].
      simpl in Hq. apply elem_of_cons in Hq as [->|Hq]; [congruence|done].
    + apply bind_UB. unfold debug_one. apply bind_UB. unfold load. by rewrite Hp.
Qed.

(** ** The fuel of the eviction loop *)

Lemma evict_loop_fuel n : forall w,
  (length (lru_ (this w)) <= n)%nat ->
  evict_loop n w = evict_loop (length (lru_ (this w))) w.
Proof.
  induction n as [|n IH]; intros w Hlen.
  - by replace (length (lru_ (this w))) with 0%nat by lia.
  - destruct (decide (usage_ (this w) <= capacity_ (this w) \/ lru_ (this w) = []))
      as [Hstop|Hgo].
    { by rewrite !evict_loop_done. }
    assert (capacity_ (this w) < usage_ (this w)) as Hover by lia.
    assert (lru_ (this w) <> []) as Hne by tauto.
    destruct (length (lru_ (this w))) as [|m] eqn:Hm.
    { destruct (lru_ (this w)); [done|discriminate]. }
    destruct (evict_one w) as [[[] w1]| |] eqn:Ho.
    + rewrite (evict_loop_continue n w w1 Hover Hne Ho).
      rewrite (evict_loop_continue m w w1 Hover Hne Ho).
      apply evict_one_Ok in Ho as (l & it & p & h & Hl & _ & _ & Hw1).
      assert (length (lru_ (this w1)) = m) as Hm1.
      { rewrite Hw1, released_lru. simpl. rewrite Hl, length_app in Hm. simpl in Hm. lia. }
      rewrite IH by lia. by rewrite Hm1.
    + simpl. erewrite !bind_eq by reflexivity.
      rewrite bool_decide_eq_true_2 by done. rewrite bool_decide_eq_false_2 by done. simpl.
      unfold mbind, M_bind, bind. by rewrite Ho.
    + simpl. erewrite !bind_eq by reflexivity.
      rewrite bool_decide_eq_true_2 by done. rewrite bool_decide_eq_false_2 by done. simpl.
      unfold mbind, M_bind, bind. by rewrite Ho.
Qed.

Lemma tidy_set_capacity cap w : tidy w -> tidy (mkWorld (mem w) (set_capacity cap (this w))).
Proof. done. Qed.

(** ** One call that the protocol allows *)

Lemma allowed_step (op : Op Key Value) w :
  tidy w -> allowed op w ->
  exists r w', step op w = Ok (r, w') /\ tidy w'.
Proof.
  intros Ht Hop. destruct op as [k v c|k|handle|k|]; simpl in Hop.
  - pose proof (tidy_installed k v c w Ht Hop) as Ht0.
    destruct (evict_loop_tidy (S (length (lru_ (this w)))) (installed k v c w) Ht0)
      as (w' & gone & He & Ht' & _).
    exists (Some (brk (mem w))), w'. split; [|done].
    assert (Insert k v c w = Ok (brk (mem w), w')) as Hi.
    { rewrite (Insert_unregistered k v c w Hop). by erewrite bind_eq by exact He. }
    cbn [step]. by erewrite bind_eq by exact Hi.
  - cbn [step]. destruct (table_ (this w) !! k) as [it|] eqn:Hk.
    + destruct (node_ptr it (lru_ (this w))) as [p|] eqn:Hn; [|done].
      destruct (objs (mem w) !! p) as [h|] eqn:Hp; [|done].
      exists (Some p), (looked_up it p h w). split.
      * rewrite (Lookup_valid k it p w Hk Hn). by rewrite Hp.
      * by apply (tidy_looked_up k).
    + exists None, w. split; [by apply Lookup_absent|done].
  - destruct handle as [p|]; [|done].
    destruct (objs (mem w) !! p) as [h|] eqn:Hp; [|done].
    exists None, (released p h w). split.
    + cbn [step]. erewrite bind_eq by (by apply Release_tidy). done.
    + by apply tidy_released.
  - simpl. destruct (table_ (this w) !! k) as [it|] eqn:Hk.
    + destruct Hop as [p Hn].
      destruct (tidy_listed w p Ht) as [h Hp].
      { apply node_ptr_Some in Hn. apply list_elem_of_fmap. by exists (it, p). }
      pose proof (tidy_refs w p h Ht Hp) as Hr.
      eexists None, _. split.
      * erewrite bind_eq by (apply (Erase_valid k it p h w Hk Hn Hp); lia). done.
      * apply tidy_unlinked; [done|done|apply drop_node_sublist| |apply delete_subseteq].
        apply node_ptr_unique; [|done]. by destruct Ht as (_ & ? & _).
    + exists None, w. split; [|done]. by erewrite bind_eq by (by apply Erase_absent).
  - exists None, w. split; [|done]. cbn [step].
    assert (NoDup (lru_ (this w)).*2) as Hnd by (by destruct Ht as (_ & ? & _)).
    destruct (prune_all (lru_ (this w)) w Hnd)
      as (w' & Hf & Hl' & Hc' & Hb' & Hout & Hin & Htab & Hwf).
    { intros q Hq. destruct (tidy_listed w q Ht Hq) as [hq Hhq]. exists hq. split; [done|].
      by apply (tidy_refs w q hq Ht). }
    specialize (Hwf (tidy_wf w Ht)).
    pose proof (proj1 (Forall_forall _ _) Hop) as Hall.
    assert (objs (mem w') = objs (mem w)) as Hobjs.
    { apply map_eq. intros q. destruct (decide (q ∈ (lru_ (this w)).*2)) as [Hlisted|Hni].
      - destruct (tidy_listed w q Ht Hlisted) as [h Hh].
        rewrite (Hin q h Hlisted Hh), Hh. specialize (Hall q Hlisted).
        cbv beta in Hall. rewrite Hh in Hall.
        by rewrite decide_False.
      - by apply Hout. }
    assert (table_ (this w') = table_ (this w)) as Htable.
    { apply map_eq. intros k. apply Htab. intros q h Hq Hh Hone.
      specialize (Hall q Hq). cbv beta in Hall. rewrite Hh in Hall. done. }
    assert (usage_ (this w') = usage_ (this w)) as Hus.
    { rewrite (wf_usage w' Hwf), (wf_usage w (tidy_wf w Ht)). by rewrite Hobjs. }
    assert (w' = w) as Heq.
    { destruct w as [[o b] [u cp l t]], w' as [[o' b'] [u' cp' l' t']]. simpl in *.
      by subst. }
    unfold Prune. erewrite bind_eq by (erewrite bind_eq by reflexivity; exact Hf).
    by rewrite Heq.
Qed.

End Tidy.

(** * The history of a cache *)

Section History.

Context {Key : Type} `{Countable Key} {Value : Type}.

Implicit Types (w : World Key Value) (p it : positive) (h : LRUHandle Key Value)
  (l : list (positive * positive)) (ops : list (Op Key Value))
  (hist : list (Op Key Value * option positive)).

(** ** What the calls keep *)

Lemma released_fields p h w q h' :
  objs (mem w) !! p = Some h ->
  objs (mem (released p h w)) !! q = Some h' ->
  exists h0, objs (mem w) !! q = Some h0 /\ same_entry h0 h'.
Proof.
  intros Hp. unfold released. case_bool_decide; simpl.
  - intros [_ Hq]%lookup_delete_Some. by exists h'.
  - intros [[<- <-]|[_ Hq]]%lookup_insert_Some; [by exists h|by exists h'].
Qed.

Lemma node_ptr_app_l it p l1 l2 :
  node_ptr it l1 = Some p -> node_ptr it (l1 ++ l2) = Some p.
Proof.
  induction l1 as [|[a b] l1 IH]; simpl; [done|]. case_decide; [done|apply IH].
Qed.

Lemma node_ptr_dropped it0 it p l :
  node_ptr it (drop_node it0 l) = Some p -> node_ptr it l = Some p.
Proof.
  intros Hn. destruct (decide (it = it0)) as [->|Hne].
  - by rewrite node_ptr_drop_same in Hn.
  - by rewrite node_ptr_drop_ne in Hn.
Qed.

Lemma latest_insert_snoc_None (k : Key) hist e :
  inserted_as k e = None -> latest_insert k (hist ++ [e]) = latest_insert k hist.
Proof.
  intros He. unfold latest_insert. rewrite omap_app. simpl. rewrite He.
  by rewrite app_nil_r.
Qed.

Lemma latest_insert_snoc_Some (k : Key) hist e x :
  inserted_as k e = Some x -> latest_insert k (hist ++ [e]) = Some x.
Proof.
  intros He. unfold latest_insert. rewrite omap_app. simpl. rewrite He.
  apply last_snoc.
Qed.

(** A call that is no [Insert]: the table and the nodes can only go, the
    handles keep what they hold. *)
Lemma recorded_kept hist w w' (e : Op Key Value * option positive) :
  recorded hist w ->
  (forall k, inserted_as k e = None) ->
  table_ (this w') ⊆ table_ (this w) ->
  (forall it p, node_ptr it (lru_ (this w')) = Some p ->
                (it < brk (mem w))%positive -> node_ptr it (lru_ (this w)) = Some p) ->
  (forall k it, table_ (this w) !! k = Some it -> (it < brk (mem w))%positive) ->
  (forall q h', objs (mem w') !! q = Some h' ->
                exists h0, objs (mem w) !! q = Some h0 /\ same_entry h0 h') ->
  recorded (hist ++ [e]) w'.
Proof.
  intros [Htab Hent] He Hsub Hnodes Hlt Hfields. split.
  - intros k it Hk. rewrite latest_insert_snoc_None by done.
    apply (Htab k it). by eapply lookup_weaken.
  - intros k it p Hk Hn. rewrite latest_insert_snoc_None by done.
    assert (table_ (this w) !! k = Some it) as Hk0 by (by eapply lookup_weaken).
    destruct (Hent k it p Hk0) as (v & c & Hlatest & Hh).
    { apply Hnodes; [done|]. by apply (Hlt k). }
    exists v, c. split; [done|]. intros h' Hh'.
    destruct (Hfields p h' Hh') as (h0 & Hh0 & Hk' & Hv' & Hc').
    destruct (Hh h0 Hh0) as (? & ? & ?). split; [congruence|]. split; congruence.
Qed.

Lemma evict_loop_kept n w w' :
  evict_loop n w = Ok (tt, w') ->
  table_ (this w') ⊆ table_ (this w) /\
  forall q h', objs (mem w') !! q = Some h' ->
               exists h0, objs (mem w) !! q = Some h0 /\ same_entry h0 h'.
Proof.
  apply (evict_loop_ind
           (fun w1 => table_ (this w1) ⊆ table_ (this w) /\
                      forall q h', objs (mem w1) !! q = Some h' ->
                        exists h0, objs (mem w) !! q = Some h0 /\ same_entry h0 h')).
  - intros w1 w2 [Hsub Hf] (l & it & p & h & Hl & Hp & _ & ->)%evict_one_Ok.
    rewrite released_table. simpl. split.
    + etrans; [apply delete_subseteq|done].
    + intros q h' Hq. apply released_fields in Hq as (h1 & Hq1 & Hs1); [|done].
      simpl in Hq1. destruct (Hf q h1 Hq1) as (h0 & Hq0 & Hs0).
      exists h0. split; [done|]. destruct Hs0 as (? & ? & ?), Hs1 as (? & ? & ?).
      repeat split; congruence.
  - split; [done|]. intros q h' Hq. exists h'. by split.
Qed.

Lemma prune_kept l : forall w w',
  for_each l prune_one w = Ok (tt, w') ->
  lru_ (this w') = lru_ (this w) /\
  table_ (this w') ⊆ table_ (this w) /\
  forall q h', objs (mem w') !! q = Some h' ->
               exists h0, objs (mem w) !! q = Some h0 /\ same_entry h0 h'.
Proof.
  intros w w'.
  apply (for_each_ind
           (fun w1 => lru_ (this w1) = lru_ (this w) /\
                      table_ (this w1) ⊆ table_ (this w) /\
                      forall q h', objs (mem w1) !! q = Some h' ->
                        exists h0, objs (mem w) !! q = Some h0 /\ same_entry h0 h')
           prune_one l).
  - intros n w1 w2 _ (Hl & Hsub & Hf) (h & Hp & ->)%prune_one_Ok.
    case_bool_decide; [|done].
    rewrite released_lru, released_table. simpl. split; [done|]. split.
    + etrans; [apply delete_subseteq|done].
    + intros q h' Hq. apply released_fields in Hq as (h1 & Hq1 & Hs1); [|done].
      simpl in Hq1. destruct (Hf q h1 Hq1) as (h0 & Hq0 & Hs0).
      exists h0. split; [done|]. destruct Hs0 as (? & ? & ?), Hs1 as (? & ? & ?).
      repeat split; congruence.
  - split; [done|]. split; [done|]. intros q h' Hq. exists h'. by split.
Qed.

Lemma recorded_step hist (op : Op Key Value) r w w' :
  wf w -> recorded hist w -> step op w = Ok (r, w') -> recorded (hist ++ [(op, r)]) w'.
Proof.
  intros Hwf Hrec Hs.
  pose proof (wf_table w Hwf) as Hlt.
  destruct op as [k0 v0 c0|k0|handle|k0|]; cbn [step] in Hs.
  - (* Insert *)
    apply bind_Ok in Hs as (hd & w1 & Hi & Hs). injection Hs as <- <-.
    apply Insert_Ok in Hi as (Hk0 & -> & He).
    destruct (evict_loop_kept _ _ _ He) as [Hsub Hfields].
    destruct (evict_loop_prefix _ _ _ He) as [gone Hgone].
    simpl in Hsub, Hfields, Hgone.
    assert (forall k, k <> k0 ->
              inserted_as k (OInsert k0 v0 c0, Some (brk (mem w))) = None) as Hother.
    { intros k Hne. simpl. by rewrite decide_False by done. }
    assert (inserted_as k0 (OInsert k0 v0 c0, Some (brk (mem w)))
            = Some (brk (mem w), v0, c0)) as Hself.
    { simpl. by rewrite decide_True. }
    destruct Hrec as [Htab Hent]. split.
    + intros k it Hk. destruct (decide (k = k0)) as [->|Hne].
      * rewrite (latest_insert_snoc_Some _ _ _ _ Hself). by eexists.
      * rewrite latest_insert_snoc_None by (by apply Hother).
        apply (lookup_weaken _ _ _ _ Hk) in Hsub.
        rewrite lookup_insert_ne in Hsub by done. by apply (Htab k it).
    + intros k it p Hk Hn.
      apply (lookup_weaken _ _ _ _ Hk) in Hsub.
      apply (node_ptr_app_l _ _ _ gone) in Hn. rewrite <- Hgone in Hn. simpl in Hn.
      destruct (decide (k = k0)) as [->|Hne].
      * rewrite lookup_insert_eq in Hsub. injection Hsub as <-.
        rewrite decide_True in Hn by done. injection Hn as <-.
        rewrite (latest_insert_snoc_Some _ _ _ _ Hself).
        exists v0, c0. split; [done|]. intros h' Hh'.
        destruct (Hfields _ _ Hh') as (h0 & Hh0 & Hk' & Hv' & Hc').
        rewrite lookup_insert_eq in Hh0. injection Hh0 as <-. done.
      * rewrite lookup_insert_ne in Hsub by done.
        pose proof (Hlt k it Hsub) as Hit.
        rewrite decide_False in Hn by lia.
        rewrite latest_insert_snoc_None by (by apply Hother).
        destruct (Hent k it p Hsub Hn) as (v & c & Hlatest & Hh).
        exists v, c. split; [done|]. intros h' Hh'.
        destruct (Hfields _ _ Hh') as (h0 & Hh0 & Hk' & Hv' & Hc').
        assert (p <> brk (mem w)) as Hpne.
        { apply node_ptr_Some, (wf_nodes w Hwf) in Hn. simpl in Hn. lia. }
        rewrite lookup_insert_ne in Hh0 by done.
        destruct (Hh h0 Hh0) as (? & ? & ?). split; [congruence|]. split; congruence.
  - (* Lookup *)
    apply Lookup_Ok in Hs as [(_ & -> & ->)|(it & p & h & Hk & Hn & Hp & -> & ->)].
    + apply (recorded_kept hist w); try done.
      intros q h' Hq. exists h'. by split.
    + apply (recorded_kept hist w); try done.
      * unfold looked_up. destruct (lru_ (this w)) as [|[a b] l]; [done|].
        by case_bool_decide.
      * intros it' p' Hn' Hit'. revert Hn'. unfold looked_up.
        destruct (lru_ (this w)) as [|[a b] l] eqn:Hl; [done|]. rewrite <- Hl.
        case_bool_decide; simpl; [|done].
        rewrite decide_False by lia. apply node_ptr_dropped.
      * intros q h'.
        assert (objs (mem (looked_up it p h w)) !! q = Some h' ->
                <[p := mkHandle (key h) (value h) (wrap (refs h + 1)) (charge h)]>
                  (objs (mem w)) !! q = Some h') as Hobj.
        { unfold looked_up. destruct (lru_ (this w)) as [|[a b] l] eqn:Hl.
          - done.
          - by case_bool_decide. }
        intros [[<- <-]|[_ Hq]]%Hobj%lookup_insert_Some; [by exists h|by exists h'].
  - (* Release *)
    apply bind_Ok in Hs as ([] & w1 & Hr & Hs). injection Hs as <- <-.
    destruct handle as [p|]; [|done].
    apply Release_Ok in Hr as (h & Hp & _ & ->).
    apply (recorded_kept hist w); try done.
    + by rewrite released_table.
    + intros it' p' Hn' _. by rewrite released_lru in Hn'.
    + intros q h'. by apply released_fields.
  - (* Erase *)
    apply bind_Ok in Hs as ([] & w1 & He & Hs). injection Hs as <- <-.
    apply Erase_Ok in He as [(_ & ->)|(it & p & h & Hk & Hn & Hp & _ & ->)].
    + apply (recorded_kept hist w); try done.
      intros q h' Hq. exists h'. by split.
    + apply (recorded_kept hist w); try done; simpl.
      * apply delete_subseteq.
      * intros it' p' Hn' _. by apply node_ptr_dropped in Hn'.
      * intros q h'. by apply released_fields.
  - (* Prune *)
    apply bind_Ok in Hs as ([] & w1 & Hp & Hs). injection Hs as <- <-.
    unfold Prune in Hp. apply bind_Ok in Hp as (w0 & w2 & Hg & Hp). injection Hg as <- <-.
    destruct (prune_kept _ _ _ Hp) as (Hl & Hsub & Hfields).
    apply (recorded_kept hist w); try done.
    intros it' p' Hn' _. by rewrite Hl in Hn'.
Qed.

Lemma recorded_run ops : forall hist rs w w',
  wf w -> recorded hist w -> run ops w = Ok (rs, w') -> recorded (hist ++ zip ops rs) w'.
Proof.
  induction ops as [|op ops IH]; simpl; intros hist rs w w' Hwf Hrec Hr.
  - injection Hr as <- <-. by rewrite app_nil_r.
  - apply bind_Ok in Hr as (r & w1 & Hs & Hr).
    apply bind_Ok in Hr as (rs' & w2 & Hr & Hret). injection Hret as <- <-.
    simpl. rewrite cons_middle, app_assoc.
    apply (IH _ _ w1); [by eapply wf_step| |done].
    by apply (recorded_step hist op r w).
Qed.

Lemma recorded_fresh_world cap : recorded [] (fresh_world cap : World Key Value).
Proof. split; simpl; intros k it; by rewrite lookup_empty. Qed.

(** Calls other than [Insert]: the table can only lose keys, and the
    handles keep what they hold. *)
Lemma step_kept (op : Op Key Value) r w w' :
  (forall k v c, op <> OInsert k v c) ->
  step op w = Ok (r, w') ->
  table_ (this w') ⊆ table_ (this w) /\
  forall q h', objs (mem w') !! q = Some h' ->
               exists h0, objs (mem w) !! q = Some h0 /\ same_entry h0 h'.
Proof.
  intros Hop Hs.
  assert (forall q h', objs (mem w) !! q = Some h' ->
            exists h0, objs (mem w) !! q = Some h0 /\ same_entry h0 h') as Hsame.
  { intros q h' Hq. exists h'. by split. }
  destruct op as [k0 v0 c0|k0|handle|k0|]; cbn [step] in Hs.
  - by destruct (Hop k0 v0 c0).
  - apply Lookup_Ok in Hs as [(_ & -> & ->)|(it & p & h & Hk & Hn & Hp & -> & ->)]; [done|].
    assert (table_ (this (looked_up it p h w)) = table_ (this w) /\
            objs (mem (looked_up it p h w)) =
              <[p := mkHandle (key h) (value h) (wrap (refs h + 1)) (charge h)]>
                (objs (mem w))) as [-> ->].
    { unfold looked_up. destruct (lru_ (this w)) as [|[a b] l]; [done|].
      by case_bool_decide. }
    split; [done|].
    intros q h' [[<- <-]|[_ Hq]]%lookup_insert_Some; [by exists h|by exists h'].
  - apply bind_Ok in Hs as ([] & w1 & Hr & Hs). injection Hs as <- <-.
    destruct handle as [p|]; [|done].
    apply Release_Ok in Hr as (h & Hp & _ & ->).
    rewrite released_table. split; [done|]. intros q h'. by apply released_fields.
  - apply bind_Ok in Hs as ([] & w1 & He & Hs). injection Hs as <- <-.
    apply Erase_Ok in He as [(_ & ->)|(it & p & h & Hk & Hn & Hp & _ & ->)]; [done|].
    simpl. split; [apply delete_subseteq|]. intros q h'. by apply released_fields.
  - apply bind_Ok in Hs as ([] & w1 & Hp & Hs). injection Hs as <- <-.
    unfold Prune in Hp. apply bind_Ok in Hp as (w0 & w2 & Hg & Hp). injection Hg as <- <-.
    by destruct (prune_kept _ _ _ Hp) as (_ & ? & ?).
Qed.

(** ** A cache with room for everything *)

Lemma looked_up_table it p h w : table_ (this (looked_up it p h w)) = table_ (this w).
Proof.
  unfold looked_up. destruct (lru_ (this w)) as [|[a b] l]; [done|]. by case_bool_decide.
Qed.

(** One call, other than [Prune], on a cache whose capacity covers the
    charges held and still to come: nothing is evicted, and the table
    changes as the call says. *)
Lemma roomy_step cap room (op : Op Key Value) r w w' :
  0 <= room -> cap < SIZE_MOD -> charge_nonneg op -> op <> OPrune ->
  wf w -> charges_nonneg (objs (mem w)) ->
  total_charge (objs (mem w)) + (inserted_charge [op] + room) <= cap ->
  capacity_ (this w) = cap ->
  step op w = Ok (r, w') ->
  (wf w' /\ charges_nonneg (objs (mem w')) /\
   total_charge (objs (mem w')) + room <= cap /\ capacity_ (this w') = cap) /\
  forall (k : Key) (b : bool),
    (is_Some (table_ (this w) !! k) <-> b = true) ->
    (is_Some (table_ (this w') !! k) <-> present_after k b op = true).
Proof.
  intros Hroom Hcap Hop Hnp Hwf Hnn Htot Hc Hs.
  pose proof (total_charge_nonneg _ Hnn) as Hpos.
  assert (forall w1, shrinks w w1 ->
            charges_nonneg (objs (mem w1)) /\
            total_charge (objs (mem w1)) <= total_charge (objs (mem w)) /\
            capacity_ (this w1) = cap) as Hshr.
  { intros w1 [Hc1 Ho1 _].
    assert (charges_nonneg (objs (mem w1))) as Hnn1.
    { intros q h' (h0 & Hq & <-)%Ho1. eauto. }
    split; [done|]. split; [by apply total_charge_mono|congruence]. }
  assert ((forall k0 v0 c0, op <> OInsert k0 v0 c0) ->
          wf w' /\ charges_nonneg (objs (mem w')) /\
          total_charge (objs (mem w')) + room <= cap /\ capacity_ (this w') = cap) as Hother.
  { intros Hni. split; [by eapply wf_step|].
    destruct (Hshr w') as (? & ? & ?); [by eapply shrinks_step|].
    assert (inserted_charge [op] = 0) as Hz.
    { destruct op; simpl; try done. by destruct (Hni k v c). }
    split; [done|]. split; [lia|done]. }
  destruct op as [k0 v0 c0|k0|handle|k0|]; [| | | |done].
  - cbn [step] in Hs. apply bind_Ok in Hs as (hd & w1 & Hi & Hs). injection Hs as <- <-.
    apply Insert_Ok in Hi as (Hk & -> & He).
    simpl in Hop, Htot. rewrite Z.add_0_r in Htot.
    assert (usage_ (this (installed k0 v0 c0 w)) = total_charge (objs (mem w)) + c0) as Hu.
    { simpl. rewrite (wf_usage w Hwf), wrap_add_l. apply wrap_small. unfold in_size_t. lia. }
    rewrite evict_loop_done in He by (left; rewrite Hu; simpl; lia).
    injection He as <-.
    assert (objs (mem w) !! brk (mem w) = None) as Hfresh.
    { destruct (objs (mem w) !! brk (mem w)) eqn:E; [|done].
      apply (wf_live w Hwf) in E. lia. }
    split.
    + split; [by apply wf_installed|]. simpl. split; [|split; [|done]].
      * intros q hq [[<- <-]|[_ Hq]]%lookup_insert_Some; simpl; eauto.
      * rewrite total_charge_insert by done. simpl. lia.
    + intros k b Hb. simpl. destruct (decide (k0 = k)) as [->|Hne].
      * rewrite lookup_insert_eq. split; [done|eauto].
      * by rewrite lookup_insert_ne.
  - split; [by apply Hother|]. intros k b Hb. cbn [step] in Hs. simpl.
    apply Lookup_Ok in Hs as [(_ & _ & ->)|(it & p & h & _ & _ & _ & _ & ->)]; [done|].
    by rewrite looked_up_table.
  - split; [by apply Hother|]. intros k b Hb. cbn [step] in Hs. simpl.
    apply bind_Ok in Hs as ([] & w1 & Hr & Hs). injection Hs as <- <-.
    destruct handle as [p|]; [|done].
    apply Release_Ok in Hr as (h & _ & _ & ->). by rewrite released_table.
  - split; [by apply Hother|]. intros k b Hb. cbn [step] in Hs. simpl.
    apply bind_Ok in Hs as ([] & w1 & He & Hs). injection Hs as <- <-.
    assert (table_ (this w1) = delete k0 (table_ (this w))) as ->.
    { apply Erase_Ok in He as [(Hk & ->)|(it & p & h & _ & _ & _ & _ & ->)]; [|done].
      by rewrite delete_id. }
    destruct (decide (k0 = k)) as [->|Hne].
    + rewrite lookup_delete_eq. split; [by intros []|done].
    + by rewrite lookup_delete_ne.
Qed.

Lemma roomy_run cap ops : forall room rs w w',
  0 <= room -> cap < SIZE_MOD -> Forall charge_nonneg ops -> OPrune ∉ ops ->
  wf w -> charges_nonneg (objs (mem w)) ->
  total_charge (objs (mem w)) + (inserted_charge ops + room) <= cap ->
  capacity_ (this w) = cap ->
  run ops w = Ok (rs, w') ->
  forall (k : Key) (b : bool),
    (is_Some (table_ (this w) !! k) <-> b = true) ->
    (is_Some (table_ (this w') !! k) <-> foldl (present_after k) b ops = true).
Proof.
  induction ops as [|op ops IH]; intros room rs w w' Hroom Hcap Hall Hnp Hwf Hnn Htot Hc Hr k b Hb.
  - simpl in Hr. by injection Hr as <- <-.
  - simpl in Hr. apply bind_Ok in Hr as (r & w1 & Hs & Hr).
    apply bind_Ok in Hr as (rs' & w2 & Hr & Hret). injection Hret as <- <-.
    apply Forall_cons in Hall as [Hop Hall].
    apply not_elem_of_cons in Hnp as [Hnp1 Hnp].
    assert (0 <= inserted_charge ops) as Hic.
    { clear -Hall. induction Hall as [|[] ? ? ?]; simpl in *; lia. }
    assert (inserted_charge (op :: ops) = inserted_charge [op] + inserted_charge ops) as Hsplit.
    { destruct op; simpl; lia. }
    destruct (roomy_step cap (inserted_charge ops + room) op r w w1)
      as ((Hwf1 & Hnn1 & Htot1 & Hc1) & Htab); try done; [lia|lia|].
    simpl. apply (IH room rs' w1 w2); try done. by apply Htab.
Qed.

(** ** The counts and the pins *)

Lemma outstanding_snoc p hist (e : Op Key Value * option positive) :
  outstanding p (hist ++ [e]) = pin_after p (outstanding p hist) e.
Proof. unfold outstanding. by rewrite foldl_app. Qed.

Lemma own_pin_iff q w w' :
  (q ∈ (lru_ (this w')).*2 <-> q ∈ (lru_ (this w)).*2) -> own_pin q w' = own_pin q w.
Proof. unfold own_pin. intros Hq. repeat case_decide; tauto. Qed.

Lemma own_pin_unlinked p q w w' :
  p ∈ (lru_ (this w)).*2 ->
  (forall x, x ∈ (lru_ (this w')).*2 <-> x ∈ (lru_ (this w)).*2 /\ x <> p) ->
  own_pin q w' = own_pin q w - (if decide (q = p) then 1 else 0).
Proof.
  unfold own_pin. intros Hp Hx. specialize (Hx q).
  repeat case_decide; subst; try lia; tauto.
Qed.

Lemma drop_node_ptrs it p l x :
  NoDup l.*1 -> NoDup l.*2 -> node_ptr it l = Some p ->
  x ∈ (drop_node it l).*2 <-> x ∈ l.*2 /\ x <> p.
Proof.
  intros Hni Hnp Hn. split.
  - intros ([it' x'] & -> & [Hin Hne]%drop_node_elem)%list_elem_of_fmap. simpl in *. split.
    + apply list_elem_of_fmap. by exists (it', x').
    + intros ->. apply Hne. apply (NoDup_snd_inj l it' it p); [done|done|].
      by apply node_ptr_Some.
  - intros [([it' x'] & -> & Hin)%list_elem_of_fmap Hne]. simpl in *.
    apply list_elem_of_fmap. exists (it', x'). split; [done|].
    apply drop_node_elem. split; [done|]. simpl. intros ->.
    apply Hne. apply (elem_of_node_ptr _ _ _ Hni) in Hin. congruence.
Qed.

Lemma own_pin_looked_up it p h q w :
  wf w -> node_ptr it (lru_ (this w)) = Some p ->
  own_pin q (looked_up it p h w) = own_pin q w.
Proof.
  intros Hwf Hn. apply own_pin_iff. unfold looked_up.
  destruct (lru_ (this w)) as [|n l] eqn:Hl; [done|].
  case_bool_decide; [|simpl; by rewrite Hl]. simpl.
  assert (p ∈ (n :: l).*2) as Hp.
  { apply list_elem_of_fmap. exists (it, p). split; [done|]. by apply node_ptr_Some. }
  pose proof (drop_node_ptrs it p (n :: l) q) as Hd.
  rewrite <- Hl in Hd at 1 2. specialize (Hd (wf_iters w Hwf) (wf_ptrs w Hwf) Hn).
  rewrite elem_of_cons, Hd. destruct (decide (q = p)) as [->|]; tauto.
Qed.

Lemma looked_up_objs it p h w :
  node_ptr it (lru_ (this w)) = Some p ->
  objs (mem (looked_up it p h w)) =
    <[p := mkHandle (key h) (value h) (wrap (refs h + 1)) (charge h)]> (objs (mem w)).
Proof.
  intros Hn. unfold looked_up. destruct (lru_ (this w)) as [|[a b] l]; [done|].
  by case_bool_decide.
Qed.

Lemma released_same p h w h' :
  objs (mem (released p h w)) !! p = Some h' -> refs h' = wrap (refs h + -1).
Proof.
  unfold released. case_bool_decide; simpl.
  - by rewrite lookup_delete_eq.
  - rewrite lookup_insert_eq. by intros [= <-].
Qed.

Lemma released_kept p h w q h' :
  objs (mem (released p h w)) !! q = Some h' -> q <> p -> objs (mem w) !! q = Some h'.
Proof. intros Hq Hne. by rewrite released_other in Hq. Qed.

(** A call that changes the count of the handle at [p] by [d] and leaves
    the other handles alone keeps the counts in step with a tally that
    changes accordingly. *)
Lemma counted_change (f f' : positive -> Z) p h (d : Z) w w' :
  counted f w -> objs (mem w) !! p = Some h ->
  (forall q h', objs (mem w') !! q = Some h' -> q <> p -> objs (mem w) !! q = Some h') ->
  (forall h', objs (mem w') !! p = Some h' -> refs h' = wrap (refs h + d)) ->
  (forall q, f' q + own_pin q w' = f q + own_pin q w + (if decide (q = p) then d else 0)) ->
  counted f' w'.
Proof.
  intros Hc Hp Hother Hsame Htally q h' Hq. specialize (Htally q).
  destruct (decide (q = p)) as [->|Hne].
  - rewrite (Hsame h' Hq), (Hc p h Hp), wrap_add_l. f_equal. lia.
  - rewrite (Hc q h' (Hother q h' Hq Hne)). f_equal. lia.
Qed.

Lemma counted_same (f f' : positive -> Z) w w' :
  counted f w ->
  (forall q h', objs (mem w') !! q = Some h' -> objs (mem w) !! q = Some h') ->
  (forall q, f' q + own_pin q w' = f q + own_pin q w) ->
  counted f' w'.
Proof.
  intros Hc Hsub Htally q h' Hq. rewrite (Hc q h' (Hsub q h' Hq)). f_equal.
  by rewrite Htally.
Qed.

Lemma counted_evict_one f w w' :
  wf w -> counted f w -> evict_one w = Ok (tt, w') -> counted f w'.
Proof.
  intros Hwf Hc (l & it & p & h & Hl & Hp & _ & ->)%evict_one_Ok.
  apply (counted_change f f p h (-1) w); [done|done| | |].
  { intros q h' Hq Hne. by apply released_kept in Hq. }
  { intros h' Hq. by apply released_same in Hq. }
  intros q. rewrite (own_pin_unlinked p q w).
  - destruct (decide (q = p)); lia.
  - rewrite Hl, fmap_app, elem_of_app. right. by left.
  - intros x. rewrite released_lru. simpl.
    pose proof (wf_ptrs w Hwf) as Hnd. rewrite Hl, fmap_app in Hnd |- *.
    apply NoDup_app in Hnd as (_ & Hdis & _). simpl in *.
    rewrite elem_of_app. split.
    + intros Hx. split; [by left|]. intros ->. apply (Hdis p Hx). by left.
    + intros [[Hx|Hx] Hne]; [done|].
      by apply elem_of_cons in Hx as [->|Hx%elem_of_nil].
Qed.

(** One call keeps the counts in step with the history. *)
Lemma counted_step hist (op : Op Key Value) r w w' :
  wf w -> counted (fun p => outstanding p hist) w ->
  step op w = Ok (r, w') ->
  counted (fun p => outstanding p (hist ++ [(op, r)])) w'.
Proof.
  intros Hwf Hc Hs.
  destruct op as [k v c|k|handle|k|]; cbn [step] in Hs.
  - apply bind_Ok in Hs as (hd & w1 & Hi & Hs). injection Hs as <- <-.
    apply Insert_Ok in Hi as (Hk & -> & He).
    set (f1 := fun q => outstanding q (hist ++ [(OInsert k v c, Some (brk (mem w)))])).
    cut (wf w1 /\ counted f1 w1); [tauto|].
    revert He. apply (evict_loop_ind (fun w2 => wf w2 /\ counted f1 w2)).
    { intros w2 w3 [Hwf2 Hc2] Ho. split; [by eapply wf_evict_one|].
      by apply (counted_evict_one f1 w2). }
    split; [by apply wf_installed|].
    assert (brk (mem w) ∉ (lru_ (this w)).*2) as Hfresh.
    { intros ([it q] & Hq & Hin)%list_elem_of_fmap. simpl in Hq. subst q.
      apply (wf_nodes w Hwf) in Hin as [_ Hlt]. simpl in Hlt. lia. }
    intros q h'. unfold f1. rewrite outstanding_snoc. unfold own_pin. simpl.
    intros [[<- <-]|[Hne Hq]]%lookup_insert_Some.
    + rewrite decide_True by done. rewrite decide_True by (by left). done.
    + rewrite (Hc q h' Hq). f_equal. unfold own_pin.
      rewrite (decide_False (P := brk (mem w) = q)) by done.
      destruct (decide (q ∈ (lru_ (this w)).*2)) as [Hin|Hni].
      * rewrite decide_True by (by right). lia.
      * rewrite decide_False by (by intros [->|?]%elem_of_cons). lia.
  - apply Lookup_Ok in Hs as [(_ & -> & ->)|(it & p & h & Hk & Hn & Hp & -> & ->)].
    + apply (counted_same _ _ w w Hc); [done|].
      intros q. by rewrite outstanding_snoc.
    + apply (counted_change _ _ p h 1 w _ Hc Hp).
      * intros q h' Hq Hne. rewrite looked_up_objs in Hq by done.
        by rewrite lookup_insert_ne in Hq.
      * intros h'. rewrite looked_up_objs by done. rewrite lookup_insert_eq.
        by intros [= <-].
      * intros q. rewrite outstanding_snoc, own_pin_looked_up by done.
        simpl. destruct (decide (p = q)), (decide (q = p)); subst; try done; lia.
  - apply bind_Ok in Hs as ([] & w1 & Hr & Hs). injection Hs as <- <-.
    destruct handle as [p|]; [|done].
    apply Release_Ok in Hr as (h & Hp & _ & ->).
    apply (counted_change _ _ p h (-1) w _ Hc Hp); [apply released_kept|apply released_same|].
    intros q. rewrite outstanding_snoc, (own_pin_iff q w) by (by rewrite released_lru).
    simpl. destruct (decide (p = q)), (decide (q = p)); subst; try done; lia.
  - apply bind_Ok in Hs as ([] & w1 & He & Hs). injection Hs as <- <-.
    apply Erase_Ok in He as [(_ & ->)|(it & p & h & Hk & Hn & Hp & _ & ->)].
    + apply (counted_same _ _ w w Hc); [done|].
      intros q. by rewrite outstanding_snoc.
    + apply (counted_change _ _ p h (-1) w _ Hc Hp).
      * intros q h'. apply released_kept.
      * intros h'. apply released_same.
      * intros q. rewrite outstanding_snoc. simpl.
        rewrite (own_pin_unlinked p q w).
        -- destruct (decide (q = p)); lia.
        -- apply list_elem_of_fmap. exists (it, p). split; [done|]. by apply node_ptr_Some.
        -- intros x. simpl. apply drop_node_ptrs; [apply Hwf|apply Hwf|done].
  - apply bind_Ok in Hs as ([] & w1 & Hp & Hs). injection Hs as <- <-.
    unfold Prune in Hp. apply bind_Ok in Hp as (w0 & w2 & Hg & Hp). injection Hg as <- <-.
    assert (lru_ (this w1) = lru_ (this w) /\
            forall q h', objs (mem w1) !! q = Some h' -> objs (mem w) !! q = Some h')
      as [Hl Hsub].
    { revert Hp.
      apply (for_each_ind
               (fun w2 => lru_ (this w2) = lru_ (this w) /\
                  forall q h', objs (mem w2) !! q = Some h' -> objs (mem w) !! q = Some h'));
        [|done].
      intros n w2 w3 _ [Hl2 Hsub2] (h & Hh & ->)%prune_one_Ok.
      case_bool_decide as Hone; [|done].
      rewrite released_lru. split; [done|]. intros q h' Hq. apply Hsub2.
      destruct (decide (q = n.2)) as [->|Hne].
      - apply released_same in Hq as Hr. unfold released in Hq. rewrite Hone in Hq.
        rewrite bool_decide_eq_true_2 in Hq by done. simpl in Hq.
        by rewrite lookup_delete_eq in Hq.
      - by apply released_kept in Hq. }
    apply (counted_same _ _ w w1 Hc Hsub).
    intros q. by rewrite outstanding_snoc, (own_pin_iff q w) by (by rewrite Hl).
Qed.

Lemma counted_run ops : forall hist rs w w',
  wf w -> counted (fun p => outstanding p hist) w ->
  run ops w = Ok (rs, w') ->
  counted (fun p => outstanding p (hist ++ zip ops rs)) w'.
Proof.
  induction ops as [|op ops IH]; simpl; intros hist rs w w' Hwf Hc Hr.
  - injection Hr as <- <-. by rewrite app_nil_r.
  - apply bind_Ok in Hr as (r & w1 & Hs & Hr).
    apply bind_Ok in Hr as (rs' & w2 & Hr & Hret). injection Hret as <- <-.
    simpl. rewrite cons_middle, app_assoc.
    apply (IH _ _ w1); [by eapply wf_step|by apply (counted_step hist op r w)|done].
Qed.

End History.

(** * Further properties of the member functions *)

Section Calls.

Context {Key : Type} `{Countable Key} {Value : Type}.

Implicit Types (w : World Key Value) (p it : positive) (h : LRUHandle Key Value)
  (l : list (positive * positive)) (ops : list (Op Key Value)).

(** X1.  After any sequence of calls with defined behaviour on a new cache,
    a [Lookup] that returns a handle returns the handle that the latest
    [Insert] of that key returned, and the entry holds the key, the value
    and the charge given to that [Insert]; a key that was never inserted is
    not found. *)
Theorem Lookup_returns_latest_insert cap ops rs w (k : Key) :
  run ops (fresh_world cap) = Ok (rs, w) ->
  (forall p w', Lookup k w = Ok (Some p, w') ->
     exists v c h,
       latest_insert k (zip ops rs) = Some (p, v, c) /\
       objs (mem w) !! p = Some h /\ key h = k /\ value h = v /\ charge h = c /\
       objs (mem w') !! p = Some (mkHandle k v (wrap (refs h + 1)) c)) /\
  (latest_insert k (zip ops rs) = None -> Lookup k w = Ok (None, w)).
Proof.
  intros Hrun.
  pose proof (recorded_run ops [] rs _ w (wf_fresh_world cap) (recorded_fresh_world cap) Hrun)
    as [Htab Hent].
  simpl in Htab, Hent. split.
  - intros p w' Hl.
    apply Lookup_Ok in Hl as [(_ & ? & _)|(it & q & h & Hk & Hn & Hp & Heq & ->)]; [done|].
    injection Heq as <-.
    destruct (Hent k it p Hk Hn) as (v & c & Hlatest & Hh).
    destruct (Hh h Hp) as (Hkey & Hval & Hch).
    exists v, c, h. do 5 (split; [done|]).
    rewrite <- Hkey, <- Hval, <- Hch.
    unfold looked_up. destruct (lru_ (this w)) as [|[a b] l] eqn:Hlru; [done|].
    case_bool_decide; simpl; apply lookup_insert_eq.
  - intros Hnone. apply Lookup_absent.
    destruct (table_ (this w) !! k) as [it|] eqn:Hk; [|done].
    destruct (Htab k it Hk) as [x Hx]. congruence.
Qed.

(** X2.  In a world reached from a new cache, no call changes what an entry
    holds, and only [Insert] adds anything: after a call every live handle
    either was live before with the same key, value and charge, or is the
    handle that this [Insert] returned, holding what was inserted; the
    capacity is unchanged; and after a call other than [Insert] every key of
    the table was in the table and every listed pointer was listed. *)
Theorem handles_keep_their_contents cap ops rs w (op : Op Key Value) r w' :
  run ops (fresh_world cap) = Ok (rs, w) ->
  step op w = Ok (r, w') ->
  capacity_ (this w') = capacity_ (this w) /\
  (forall q h', objs (mem w') !! q = Some h' ->
     (exists h, objs (mem w) !! q = Some h /\ same_entry h h') \/
     (exists k v c, op = OInsert k v c /\ r = Some q /\
                    key h' = k /\ value h' = v /\ charge h' = c)) /\
  ((forall k v c, op <> OInsert k v c) ->
     table_ (this w') ⊆ table_ (this w) /\
     forall q, q ∈ (lru_ (this w')).*2 -> q ∈ (lru_ (this w)).*2).
Proof.
  intros Hwf%wf_reached Hs.
  assert ((exists k v c, op = OInsert k v c) \/ forall k v c, op <> OInsert k v c)
    as [(k & v & c & ->)|Hop].
  { destruct op; [left; eauto|right; intros; discriminate..]. }
  - cbn [step] in Hs. apply bind_Ok in Hs as (hd & w1 & Hi & Hs). injection Hs as <- <-.
    apply Insert_Ok in Hi as (Hk & -> & He).
    destruct (evict_loop_kept _ _ _ He) as [_ Hfields]. simpl in Hfields.
    split; [|split].
    + revert He. apply (evict_loop_ind (fun w0 => capacity_ (this w0) = capacity_ (this w))).
      * intros w2 w3 Hc (l & it & p & h & _ & _ & _ & ->)%evict_one_Ok.
        by rewrite released_capacity.
      * done.
    + intros q h' Hq. destruct (Hfields q h' Hq) as (h0 & Hq0 & Hk' & Hv' & Hc').
      apply lookup_insert_Some in Hq0 as [[<- <-]|[_ Hq0]].
      * right. by exists k, v, c.
      * left. by exists h0.
    + intros Hop. by destruct (Hop k v c).
  - destruct (shrinks_step op r w w' Hwf Hop Hs) as [Hc _ Hlisted].
    destruct (step_kept op r w w' Hop Hs) as [Hsub Hfields].
    split; [done|]. split; [|done].
    intros q h' Hq. left. by apply Hfields.
Qed.

(** X3.  Reference counting: after any sequence of calls with defined
    behaviour on a new cache, the count of every live handle is the number
    of times a call returned the handle, minus the number of times it was
    released, both since the [Insert] that created it, plus one while the
    handle is in the list, as a [size_t]. *)
Theorem refs_counts_pins cap ops rs w p h :
  run ops (fresh_world cap) = Ok (rs, w) ->
  objs (mem w) !! p = Some h ->
  refs h = wrap (outstanding p (zip ops rs) + own_pin p w).
Proof.
  intros Hr Hp.
  apply (counted_run ops [] rs (fresh_world cap) w); [apply wf_fresh_world| |done|done].
  intros q hq Hq. simpl in Hq. by rewrite lookup_empty in Hq.
Qed.

(** X4.  With charges that are not negative and add up to no more than the
    capacity, and without [Prune], nothing is ever evicted: after any
    sequence of calls with defined behaviour on a new cache, a key is in the
    table exactly when its latest [Insert] came after its latest [Erase],
    and [Lookup] reports it as not found exactly when it is not. *)
Theorem enough_capacity_keeps_every_key cap ops rs w (k : Key) :
  cap < SIZE_MOD ->
  Forall charge_nonneg ops ->
  inserted_charge ops <= cap ->
  OPrune ∉ ops ->
  run ops (fresh_world cap) = Ok (rs, w) ->
  (is_Some (table_ (this w) !! k) <-> present k ops = true) /\
  (Lookup k w = Ok (None, w) <-> present k ops = false).
Proof.
  intros Hcap Hall Hsum Hnp Hr.
  assert (is_Some (table_ (this w) !! k) <-> present k ops = true) as Hiff.
  { apply (roomy_run cap ops 0 rs (fresh_world cap) w); try done.
    - apply wf_fresh_world.
    - simpl. pose proof (total_charge_empty (Key:=Key) (Value:=Value)) as E.
      rewrite E. lia.
    - simpl. rewrite lookup_empty. split; [by intros []|done]. }
  split; [done|]. split.
  - intros Hl. apply Lookup_Ok in Hl as [(Hk & _)|(? & ? & ? & _ & _ & _ & ? & _)]; [|done].
    destruct (present k ops); [|done].
    destruct (proj2 Hiff eq_refl) as [it Hit]. congruence.
  - intros Hp. apply Lookup_absent.
    destruct (table_ (this w) !! k) as [it|] eqn:Hk; [|done].
    rewrite (proj1 Hiff) in Hp by eauto. done.
Qed.

(** X5.  Every sequence of calls that the protocol allows, started on a tidy
    cache, runs to its end without undefined behaviour and without a failed
    assertion, and leaves the cache tidy. *)
Theorem allowed_run_defined ops : forall w,
  tidy w -> allowed_run ops w ->
  exists rs w', run ops w = Ok (rs, w') /\ tidy w' /\ length rs = length ops.
Proof.
  induction ops as [|op ops IH]; intros w Ht Hops.
  - exists [], w. by split.
  - destruct Hops as [Hop Hrest].
    destruct (allowed_step op w Ht Hop) as (r & w1 & Hs & Ht1).
    rewrite Hs in Hrest.
    destruct (IH w1 Ht1 Hrest) as (rs & w' & Hr & Ht' & Hlen).
    exists (r :: rs), w'. split; [|split; [done|simpl; by rewrite Hlen]].
    simpl. erewrite bind_eq by exact Hs. erewrite bind_eq by exact Hr. done.
Qed.

(** X6.  On a tidy cache [Insert] of a key that is not in the table always
    returns: the handle was not live before, the cache is tidy again,
    [usage_] is within the capacity unless the list was emptied, the new
    entry either heads the list with count 2 or was evicted by this very
    call and is left with the caller's pin only, and handles that were not
    in the list are untouched.  When the charge fits under the capacity
    nothing is evicted: the call only adds the new entry. *)
Theorem Insert_returns_new_handle w (k : Key) (v : Value) (c : Z) :
  tidy w ->
  table_ (this w) !! k = None ->
  exists w',
    Insert k v c w = Ok (brk (mem w), w') /\
    tidy w' /\
    objs (mem w) !! brk (mem w) = None /\
    capacity_ (this w') = capacity_ (this w) /\
    (usage_ (this w') <= capacity_ (this w') \/ lru_ (this w') = []) /\
    ((exists it l', lru_ (this w') = (it, brk (mem w)) :: l' /\
        objs (mem w') !! brk (mem w) = Some (mkHandle k v 2 c)) \/
     (lru_ (this w') = [] /\
        objs (mem w') !! brk (mem w) = Some (mkHandle k v 1 c))) /\
    (forall q h, objs (mem w) !! q = Some h -> q ∉ (lru_ (this w)).*2 ->
       objs (mem w') !! q = Some h) /\
    (wrap (usage_ (this w) + c) <= capacity_ (this w) -> w' = installed k v c w).
Proof.
  intros Ht Hk.
  pose proof (tidy_installed k v c w Ht Hk) as Ht0.
  pose proof (tidy_fresh_address w Ht) as Hfresh.
  pose proof (tidy_fresh_unlisted w Ht) as Hunl.
  destruct (evict_loop_tidy (S (length (lru_ (this w)))) (installed k v c w) Ht0)
    as (w' & gone & He & Ht' & Hl' & Hc' & _ & _ & Hout & Hin & _).
  exists w'. rewrite (Insert_unregistered k v c w Hk).
  erewrite bind_eq by exact He.
  split; [done|]. split; [done|]. split; [done|]. split; [done|]. split.
  { apply (evict_loop_exit _ _ _ He). simpl. lia. }
  assert (wrap (usage_ (this w) + c) <= capacity_ (this w) -> w' = installed k v c w)
    as Hfits.
  { intros Hroom. rewrite evict_loop_done in He by (left; simpl; lia). by injection He. }
  simpl in Hl', Hout, Hin. split; [|split; [|done]].
  - destruct (lru_ (this w')) as [|n l'] eqn:Hlw'.
    + right. split; [done|]. simpl in Hl'.
      destruct (Hin (brk (mem w)) (mkHandle k v 2 c)) as [_ Hobj].
      * rewrite <- Hl'. simpl. left.
      * apply lookup_insert_eq.
      * done.
    + left. simpl in Hl'. injection Hl' as <- Hl'. exists (Pos.succ (brk (mem w))), l'.
      split; [done|]. rewrite Hout; [apply lookup_insert_eq|].
      intros Hg. apply Hunl. rewrite Hl', fmap_app. apply elem_of_app. by right.
  - intros q h Hq Hni. rewrite Hout.
    + rewrite lookup_insert_ne; [done|]. intros <-. congruence.
    + intros Hg. assert (q ∈ (brk (mem w) :: (lru_ (this w)).*2)) as Hin'.
      { change (q ∈ ((Pos.succ (brk (mem w)), brk (mem w)) :: lru_ (this w)).*2).
        rewrite Hl', fmap_app. apply elem_of_app. by right. }
      apply elem_of_cons in Hin' as [->|?]; [congruence|done].
Qed.

(** X7.  After [Insert] of a key that no entry of a tidy cache carries,
    either the new entry was evicted by the call itself, and [Lookup] of the
    key returns null, or [Lookup] returns the very handle [Insert] returned,
    now with count 3, and changes nothing else in the cache.  When the
    charge fits under the capacity the second case applies. *)
Theorem Insert_then_Lookup w (k : Key) (v : Value) (c : Z) :
  tidy w ->
  table_ (this w) !! k = None ->
  (forall q h, q ∈ (lru_ (this w)).*2 -> objs (mem w) !! q = Some h -> key h <> k) ->
  exists w',
    Insert k v c w = Ok (brk (mem w), w') /\
    ((lru_ (this w') = [] /\ Lookup k w' = Ok (None, w')) \/
     (exists w'',
        Lookup k w' = Ok (Some (brk (mem w)), w'') /\
        objs (mem w'') !! brk (mem w) = Some (mkHandle k v 3 c) /\
        this w'' = this w')) /\
    (wrap (usage_ (this w) + c) <= capacity_ (this w) -> lru_ (this w') <> []).
Proof.
  intros Ht Hk Hkeys.
  pose proof (tidy_installed k v c w Ht Hk) as Ht0.
  pose proof (tidy_fresh_address w Ht) as Hfresh.
  pose proof (tidy_fresh_unlisted w Ht) as Hunl.
  destruct (evict_loop_tidy (S (length (lru_ (this w)))) (installed k v c w) Ht0)
    as (w' & gone & He & Ht' & Hl' & Hc' & _ & _ & Hout & Hin & Htab).
  exists w'. rewrite (Insert_unregistered k v c w Hk).
  erewrite bind_eq by exact He.
  split; [done|]. simpl in Hl', Hout, Hin, Htab. split.
  - destruct (lru_ (this w')) as [|n l'] eqn:Hlw'.
    + left. split; [done|]. simpl in Hl'. apply Lookup_absent.
      destruct (Hin (brk (mem w)) (mkHandle k v 2 c)) as [Hgone _].
      * rewrite <- Hl'. simpl. left.
      * apply lookup_insert_eq.
      * done.
    + right. simpl in Hl'. injection Hl' as <- Hl'.
      assert (brk (mem w) ∉ gone.*2) as Hng.
      { intros Hg. apply Hunl. rewrite Hl', fmap_app. apply elem_of_app. by right. }
      assert (objs (mem w') !! brk (mem w) = Some (mkHandle k v 2 c)) as Hobj.
      { rewrite Hout by done. apply lookup_insert_eq. }
      assert (table_ (this w') !! k = Some (Pos.succ (brk (mem w)))) as Hk'.
      { rewrite Htab; [apply lookup_insert_eq|].
        intros q h Hq Hh. assert (q <> brk (mem w)) as Hne by (intros ->; done).
        rewrite lookup_insert_ne in Hh by done. apply (Hkeys q h); [|done].
        rewrite Hl', fmap_app. apply elem_of_app. by right. }
      eexists. rewrite (Lookup_valid k (Pos.succ (brk (mem w))) (brk (mem w)) w' Hk')
        by (rewrite Hlw'; simpl; by rewrite decide_True).
      rewrite Hobj. split; [done|].
      rewrite (looked_up_front _ _ _ l' w' Hlw'). simpl.
      split; [|done]. rewrite lookup_insert_eq. done.
  - intros Hroom Hnil.
    rewrite evict_loop_done in He by (left; simpl; lia).
    injection He as <-. simpl in Hnil. done.
Qed.

(** X8.  [Erase] of a key whose iterator designates a node of a tidy cache
    always returns: the key leaves the table, the node leaves the list,
    nothing else in the table or the list changes, and the cache's pin is
    released, so that the handle is deleted, and its charge subtracted,
    exactly when no caller holds it.  The cache is tidy again; a [Lookup] of
    the key now returns null and a second [Erase] does nothing. *)
Theorem Erase_unregisters w (k : Key) it p h :
  tidy w ->
  table_ (this w) !! k = Some it ->
  node_ptr it (lru_ (this w)) = Some p ->
  objs (mem w) !! p = Some h ->
  exists w',
    Erase k w = Ok (tt, w') /\
    tidy w' /\
    table_ (this w') = delete k (table_ (this w)) /\
    lru_ (this w') = drop_node it (lru_ (this w)) /\
    (p ∉ (lru_ (this w')).*2) /\
    capacity_ (this w') = capacity_ (this w) /\
    (if decide (refs h = 1)
     then objs (mem w') = delete p (objs (mem w)) /\
          usage_ (this w') = wrap (usage_ (this w) - charge h)
     else objs (mem w') =
            <[p := mkHandle (key h) (value h) (refs h - 1) (charge h)]> (objs (mem w)) /\
          usage_ (this w') = usage_ (this w)) /\
    Lookup k w' = Ok (None, w') /\
    Erase k w' = Ok (tt, w').
Proof.
  intros Ht Hk Hn Hp.
  pose proof (tidy_refs w p h Ht Hp) as Hr.
  assert (p ∉ (drop_node it (lru_ (this w))).*2) as Hni.
  { apply node_ptr_unique; [|done]. by destruct Ht as (_ & ? & _). }
  eexists. split; [apply (Erase_valid k it p h w Hk Hn Hp); lia|].
  split.
  { apply tidy_unlinked; [done|done|apply drop_node_sublist|done|apply delete_subseteq]. }
  rewrite released_table, released_lru, released_capacity. simpl.
  split; [done|]. split; [done|]. split; [done|]. split; [done|].
  split.
  - rewrite released_refs, released_usage by done. simpl. by case_decide.
  - split.
    + apply Lookup_absent. rewrite released_table. simpl. apply lookup_delete_eq.
    + apply Erase_absent. rewrite released_table. simpl. apply lookup_delete_eq.
Qed.

(** X9.  In a world reached from a new cache, once [Lookup] has moved an
    entry to the front, its key cannot be erased any more: the table still
    holds the iterator of the erased node, and [Erase] dereferences it. *)
Theorem Erase_after_move_undefined cap ops rs w (k : Key) p w' :
  run ops (fresh_world cap) = Ok (rs, w) ->
  Lookup k w = Ok (Some p, w') ->
  head (lru_ (this w)).*2 <> Some p ->
  Erase k w' = UB.
Proof.
  intros Hwf%wf_reached Hl Hfront.
  apply Lookup_Ok in Hl as [(_ & ? & _)|(it & q & h & Hk & Hn & Hp & Heq & ->)]; [done|].
  injection Heq as <-.
  destruct (looked_up_stale k it p h w Hwf Hk Hn Hfront) as [Hk' Hn'].
  by apply (Erase_stale k it).
Qed.


(** X11.  The round trip [Insert], [Erase], [Release]: on a tidy cache with
    room for the charge, inserting a new key, erasing it and giving the
    handle back leaves the handles and the cache exactly as they were. *)
Theorem Insert_Erase_Release_restores w (k : Key) (v : Value) (c : Z) :
  tidy w ->
  table_ (this w) !! k = None ->
  wrap (usage_ (this w) + c) <= capacity_ (this w) ->
  exists w1 w2 w3,
    Insert k v c w = Ok (brk (mem w), w1) /\
    Erase k w1 = Ok (tt, w2) /\
    Release (Some (brk (mem w))) w2 = Ok (tt, w3) /\
    objs (mem w2) !! brk (mem w) = Some (mkHandle k v 1 c) /\
    objs (mem w3) = objs (mem w) /\
    this w3 = this w.
Proof.
  intros Ht Hk Hroom.
  pose proof (tidy_fresh_address w Ht) as Hfresh.
  assert (Pos.succ (brk (mem w)) ∉ (lru_ (this w)).*1) as Hit.
  { intros (n & Hn1 & Hn)%list_elem_of_fmap.
    apply (wf_nodes w (tidy_wf w Ht)) in Hn as [Hn _]. lia. }
  assert (usage_ (this w) = wrap (usage_ (this w))) as Hus.
  { destruct Ht as (_ & _ & _ & _ & _ & ->). unfold wrap. by rewrite Zmod_mod. }
  exists (installed k v c w). do 2 eexists.
  split.
  { rewrite (Insert_unregistered k v c w Hk).
    erewrite bind_eq by (apply evict_loop_done; left; simpl; lia). done. }
  split.
  { apply (Erase_valid k (Pos.succ (brk (mem w))) (brk (mem w)) (mkHandle k v 2 c)); simpl.
    - apply lookup_insert_eq.
    - by rewrite decide_True.
    - apply lookup_insert_eq.
    - lia. }
  assert (forall w0 : World Key Value,
            objs (mem (released (brk (mem w)) (mkHandle k v 2 c) w0)) =
            <[brk (mem w) := mkHandle k v 1 c]> (objs (mem w0)) /\
            usage_ (this (released (brk (mem w)) (mkHandle k v 2 c) w0)) = usage_ (this w0))
    as Hrel by (intros w0; split; reflexivity).
  split.
  { rewrite (Release_live _ (mkHandle k v 1 c)).
    - simpl. reflexivity.
    - rewrite (proj1 (Hrel _)). apply lookup_insert_eq. }
  split; [rewrite (proj1 (Hrel _)); apply lookup_insert_eq|].
  unfold released at 1 2. simpl.
  split.
  - rewrite !delete_insert_eq. by apply delete_id.
  - unfold with_usage_cache. simpl.
    rewrite drop_node_head by done. rewrite delete_insert_eq, delete_id by done.
    rewrite wrap_sub_l. replace (usage_ (this w) + c - c) with (usage_ (this w)) by lia.
    rewrite <- Hus. by destruct w as [? []].
Qed.

(** X12.  [Lookup] of the key of the entry at the front of the list followed
    by [Release] of the returned handle leaves the world exactly as it was. *)
Theorem Lookup_Release_front_restores w (k : Key) it p h l :
  lru_ (this w) = (it, p) :: l ->
  table_ (this w) !! k = Some it ->
  objs (mem w) !! p = Some h ->
  1 <= refs h ->
  refs h + 1 < SIZE_MOD ->
  exists w1,
    Lookup k w = Ok (Some p, w1) /\
    objs (mem w1) !! p = Some (mkHandle (key h) (value h) (refs h + 1) (charge h)) /\
    this w1 = this w /\
    Release (Some p) w1 = Ok (tt, w).
Proof.
  intros Hl Hk Hp Hr Hroom.
  assert (wrap (refs h + 1) = refs h + 1) as Hw by (apply wrap_small; unfold in_size_t; lia).
  eexists. split.
  { rewrite (Lookup_valid k it p w Hk) by (rewrite Hl; simpl; by rewrite decide_True).
    rewrite Hp. reflexivity. }
  rewrite (looked_up_front it p h l w Hl), Hw.
  split; [simpl; apply lookup_insert_eq|]. split; [done|].
  erewrite Release_live by (simpl; apply lookup_insert_eq).
  cbn [refs]. rewrite bool_decide_eq_true_2 by lia. f_equal. f_equal.
  unfold released. cbn [refs key value charge mem objs brk this].
  replace (refs h + 1 - 1) with (refs h) by lia.
  rewrite wrap_small by (unfold in_size_t; lia).
  rewrite bool_decide_eq_false_2 by lia.
  rewrite insert_insert_eq.
  replace (mkHandle (key h) (value h) (refs h) (charge h)) with h by (by destruct h).
  rewrite insert_id by done. by destruct w as [[] ?].
Qed.

(** X13.  [Lookup] of the key of the entry at the front can be repeated: [n]
    calls in a row return the same handle and add [n] to its count; the
    list, the table, [usage_] and every other handle stay as they were. *)
Theorem Lookup_front_repeatable (n : nat) : forall w (k : Key) it p h l,
  lru_ (this w) = (it, p) :: l ->
  table_ (this w) !! k = Some it ->
  objs (mem w) !! p = Some h ->
  0 <= refs h ->
  refs h + Z.of_nat n < SIZE_MOD ->
  exists w',
    run (replicate n (OLookup k)) w = Ok (replicate n (Some p), w') /\
    this w' = this w /\
    brk (mem w') = brk (mem w) /\
    objs (mem w') !! p =
      Some (mkHandle (key h) (value h) (refs h + Z.of_nat n) (charge h)) /\
    forall q, q <> p -> objs (mem w') !! q = objs (mem w) !! q.
Proof.
  induction n as [|n IH]; intros w k it p h l Hl Hk Hp Hr Hroom.
  - exists w. split; [done|]. split; [done|]. split; [done|]. split; [|done].
    rewrite Hp. f_equal. destruct h. simpl. f_equal. lia.
  - assert (wrap (refs h + 1) = refs h + 1) as Hw
      by (apply wrap_small; unfold in_size_t; lia).
    set (h1 := mkHandle (key h) (value h) (refs h + 1) (charge h)).
    set (w1 := mkWorld (mkHeap (<[p := h1]> (objs (mem w))) (brk (mem w))) (this w)).
    assert (Lookup k w = Ok (Some p, w1)) as Hlk.
    { rewrite (Lookup_valid k it p w Hk) by (rewrite Hl; simpl; by rewrite decide_True).
      rewrite Hp. by rewrite (looked_up_front it p h l w Hl), Hw. }
    destruct (IH w1 k it p h1 l) as (w' & Hrun & Hthis & Hbrk & Hobj & Hother); try done.
    { apply lookup_insert_eq. }
    { simpl. lia. }
    { simpl. lia. }
    exists w'. split.
    { simpl. erewrite bind_eq by exact Hlk. erewrite bind_eq by exact Hrun. done. }
    split; [done|]. split; [done|]. split.
    + rewrite Hobj. simpl. do 2 f_equal. lia.
    + intros q Hq. rewrite Hother by done. simpl. by rewrite lookup_insert_ne.
Qed.

(** X14.  The destructor on a tidy cache always returns, and releases the
    cache's pin on every listed entry: an entry that no caller holds is
    deleted, an entry a caller still holds survives with one pin less,
    handles outside the list are untouched, and [usage_] is again the total
    charge of the handles left.  When no caller holds anything, nothing is
    left. *)
Theorem Destroy_releases_every_entry w :
  tidy w ->
  exists w',
    Destroy w = Ok (tt, w') /\
    (forall q h, q ∈ (lru_ (this w)).*2 -> objs (mem w) !! q = Some h ->
       objs (mem w') !! q =
         if decide (refs h = 1) then None
         else Some (mkHandle (key h) (value h) (refs h - 1) (charge h))) /\
    (forall q, q ∉ (lru_ (this w)).*2 -> objs (mem w') !! q = objs (mem w) !! q) /\
    usage_ (this w') = wrap (total_charge (objs (mem w'))) /\
    ((forall q h, objs (mem w) !! q = Some h -> q ∈ (lru_ (this w)).*2 /\ refs h = 1) ->
       objs (mem w') = ∅ /\ usage_ (this w') = 0).
Proof.
  intros Ht.
  destruct (release_all (lru_ (this w)) w) as (w' & Hf & _ & _ & _ & _ & Hout & Hin & Hwf).
  { by destruct Ht as (_ & ? & _). }
  { intros q Hq. destruct (tidy_listed w q Ht Hq) as [h Hh]. exists h. split; [done|].
    by apply (tidy_refs w q h Ht). }
  specialize (Hwf (tidy_wf w Ht)).
  exists w'. split.
  { unfold Destroy. by erewrite bind_eq by reflexivity. }
  split; [done|]. split; [done|]. split; [by apply wf_usage|].
  intros Hall. assert (objs (mem w') = ∅) as Hempty.
  { apply map_empty. intros q. destruct (objs (mem w) !! q) as [h|] eqn:Hq.
    - destruct (Hall q h Hq) as [Hlisted Hone].
      rewrite (Hin q h Hlisted Hq). by rewrite decide_True.
    - destruct (decide (q ∈ (lru_ (this w)).*2)) as [Hlisted|Hni].
      + destruct (tidy_listed w q Ht Hlisted) as [h Hh]. congruence.
      + by rewrite Hout. }
  split; [done|]. rewrite (wf_usage w' Hwf), Hempty.
  pose proof (@total_charge_empty Key Value) as ->. done.
Qed.

(** X15.  After a [Prune] that found an entry with the cache's pin only, the
    destructor has undefined behaviour: the list still holds the pointer
    [Prune] deleted, and the destructor releases through it. *)
Theorem Destroy_after_Prune_undefined w :
  tidy w ->
  (exists n h, n ∈ lru_ (this w) /\ objs (mem w) !! n.2 = Some h /\ refs h = 1) ->
  exists w', Prune w = Ok (tt, w') /\ Destroy w' = UB.
Proof.
  intros Ht (n & h & Hn & Hh & Hone).
  assert (NoDup (lru_ (this w)).*2) as Hnd by (by destruct Ht as (_ & ? & _)).
  destruct (prune_all (lru_ (this w)) w Hnd) as (w' & Hf & Hl' & _ & _ & Hout & Hin & _ & _).
  { intros q Hq. destruct (tidy_listed w q Ht Hq) as [hq Hhq]. exists hq. split; [done|].
    by apply (tidy_refs w q hq Ht). }
  assert (forall q hq, objs (mem w') !! q = Some hq -> objs (mem w) !! q = Some hq) as Hsub.
  { intros q hq Hq. destruct (decide (q ∈ (lru_ (this w)).*2)) as [Hlisted|Hni].
    - destruct (tidy_listed w q Ht Hlisted) as [h0 Hh0].
      rewrite (Hin q h0 Hlisted Hh0) in Hq. case_decide; [done|congruence].
    - by rewrite Hout in Hq. }
  exists w'. split.
  { unfold Prune. by erewrite bind_eq by reflexivity. }
  unfold Destroy. erewrite bind_eq by reflexivity. rewrite Hl'.
  apply release_all_dangling; [done| |].
  - intros q hq _ Hq. apply Hsub in Hq. by apply (tidy_refs w q hq Ht) in Hq as [? _].
  - exists n.2. split; [apply list_elem_of_fmap; by exists n|].
    rewrite (Hin n.2 h); [by rewrite decide_True|apply list_elem_of_fmap; by exists n|done].
Qed.

(** X16.  [Prune] on a tidy cache always returns, never changes the list,
    and leaves alone every handle that is outside the list or that a caller
    holds.  When every listed entry is held by a caller it changes nothing
    at all; when some entry is not, the cache is no longer tidy. *)
Theorem Prune_spares_pinned w :
  tidy w ->
  exists w',
    Prune w = Ok (tt, w') /\
    lru_ (this w') = lru_ (this w) /\
    (forall q h, objs (mem w) !! q = Some h ->
       q ∉ (lru_ (this w)).*2 \/ refs h <> 1 -> objs (mem w') !! q = Some h) /\
    ((forall n h, n ∈ lru_ (this w) -> objs (mem w) !! n.2 = Some h -> refs h <> 1) ->
       w' = w) /\
    ((exists n h, n ∈ lru_ (this w) /\ objs (mem w) !! n.2 = Some h /\ refs h = 1) ->
       ~ tidy w').
Proof.
  intros Ht.
  assert (NoDup (lru_ (this w)).*2) as Hnd by (by destruct Ht as (_ & ? & _)).
  destruct (prune_all (lru_ (this w)) w Hnd)
    as (w' & Hf & Hl' & Hc' & Hb' & Hout & Hin & Htab & Hwf).
  { intros q Hq. destruct (tidy_listed w q Ht Hq) as [hq Hhq]. exists hq. split; [done|].
    by apply (tidy_refs w q hq Ht). }
  specialize (Hwf (tidy_wf w Ht)).
  exists w'. split.
  { unfold Prune. by erewrite bind_eq by reflexivity. }
  split; [done|]. split; [|split].
  - intros q h Hq Hcase. destruct (decide (q ∈ (lru_ (this w)).*2)) as [Hlisted|Hni].
    + rewrite (Hin q h Hlisted Hq). destruct Hcase as [?|Hne]; [done|].
      by rewrite decide_False.
    + by rewrite Hout.
  - intros Hall.
    assert (objs (mem w') = objs (mem w)) as Hobjs.
    { apply map_eq. intros q. destruct (decide (q ∈ (lru_ (this w)).*2)) as [Hlisted|Hni].
      - destruct (tidy_listed w q Ht Hlisted) as [h Hh].
        rewrite (Hin q h Hlisted Hh), Hh.
        apply list_elem_of_fmap in Hlisted as (n & -> & Hn).
        by rewrite decide_False by (by apply (Hall n h)).
      - by apply Hout. }
    assert (table_ (this w') = table_ (this w)) as Htable.
    { apply map_eq. intros k. apply Htab. intros q h Hq Hh Hone.
      apply list_elem_of_fmap in Hq as (n & -> & Hn). by destruct (Hall n h Hn Hh). }
    assert (usage_ (this w') = usage_ (this w)) as Hus.
    { rewrite (wf_usage w' Hwf), (wf_usage w (tidy_wf w Ht)). by rewrite Hobjs. }
    destruct w as [[o b] [u cp l t]], w' as [[o' b'] [u' cp' l' t']]. simpl in *.
    by subst.
  - intros (n & h & Hn & Hh & Hone) Ht'.
    destruct (tidy_listed w' n.2 Ht') as [h' Hh'].
    { rewrite Hl'. apply list_elem_of_fmap. by exists n. }
    rewrite (Hin n.2 h) in Hh'; [|apply list_elem_of_fmap; by exists n|done].
    by rewrite decide_True in Hh'.
Qed.

(** X17.  [Debug] writes the two header lines and one line for every list
    node, front first, and leaves the world as it is, provided every listed
    pointer designates a live handle; if one does not, the call reads
    through a deleted handle. *)
Theorem Debug_reads_only w :
  (Forall (fun q => is_Some (objs (mem w) !! q)) (lru_ (this w)).*2 ->
     exists hs,
       Forall2 (fun n h => objs (mem w) !! n.2 = Some h) (lru_ (this w)) hs /\
       Debug w = Ok (debug_header (this w) ++ concat (debug_line <$> hs), w)) /\
  (Exists (fun q => objs (mem w) !! q = None) (lru_ (this w)).*2 -> Debug w = UB).
Proof.
  split.
  - intros Hall. destruct (debug_all (lru_ (this w)) w) as (hs & Hhs & Hf).
    { intros q Hq. by apply (proj1 (Forall_forall _ _) Hall). }
    exists hs. split; [done|]. unfold Debug.
    erewrite bind_eq by reflexivity. erewrite bind_eq by exact Hf. done.
  - intros (q & Hq & Hdead)%Exists_exists. unfold Debug.
    erewrite bind_eq by reflexivity. apply bind_UB. apply debug_dangling. by exists q.
Qed.

(** X18.  The loop of [Insert] terminates within one iteration for every
    list node: running it for longer than the list is long changes nothing. *)
Theorem evict_loop_terminates (n : nat) w :
  (length (lru_ (this w)) <= n)%nat ->
  evict_loop n w = evict_loop (length (lru_ (this w))) w /\
  forall w', evict_loop n w = Ok (tt, w') ->
    (length (lru_ (this w')) <= length (lru_ (this w)))%nat /\
    (usage_ (this w') <= capacity_ (this w') \/ lru_ (this w') = []).
Proof.
  intros Hlen. split; [by apply evict_loop_fuel|].
  intros w' He. split.
  - destruct (evict_loop_prefix n w w' He) as [gone ->]. rewrite length_app. lia.
  - by apply (evict_loop_exit n w w').
Qed.

(** X19.  [set_capacity] changes the capacity and nothing else; it evicts
    nothing by itself.  On a tidy cache the next [Insert] of a new key runs
    under the new capacity: it returns with [usage_] within it or with the
    list emptied. *)
Theorem set_capacity_enforced_by_Insert w (cap : Z) (k : Key) (v : Value) (c : Z) :
  tidy w ->
  table_ (this w) !! k = None ->
  lru_ (set_capacity cap (this w)) = lru_ (this w) /\
  table_ (set_capacity cap (this w)) = table_ (this w) /\
  usage_ (set_capacity cap (this w)) = usage_ (this w) /\
  exists w',
    Insert k v c (mkWorld (mem w) (set_capacity cap (this w))) = Ok (brk (mem w), w') /\
    tidy w' /\
    capacity_ (this w') = cap /\
    (usage_ (this w') <= cap \/ lru_ (this w') = []).
Proof.
  intros Ht Hk. set (w0 := mkWorld (mem w) (set_capacity cap (this w))).
  assert (table_ (this w0) !! k = None) as Hk0 by done.
  pose proof (tidy_set_capacity cap w Ht) as Ht0. fold w0 in Ht0.
  split; [done|]. split; [done|]. split; [done|].
  pose proof (tidy_installed k v c w0 Ht0 Hk0) as Hti.
  destruct (evict_loop_tidy (S (length (lru_ (this w0)))) (installed k v c w0) Hti)
    as (w' & gone & He & Ht' & _ & Hc' & _).
  exists w'. rewrite (Insert_unregistered k v c w0 Hk0).
  erewrite bind_eq by exact He.
  split; [done|]. split; [done|]. split; [by rewrite Hc'|].
  replace cap with (capacity_ (this w')) by (by rewrite Hc').
  apply (evict_loop_exit _ _ _ He). simpl. lia.
Qed.

(** X20.  A cache as the constructor leaves it has capacity 0 and keeps
    nothing: an [Insert] with a positive charge evicts its own entry before
    it returns, so that the key is not found.  Once [set_capacity] has made
    room for the charge, the same [Insert] keeps the entry and [Lookup]
    finds it. *)
Theorem constructed_cache_needs_capacity (k : Key) (v : Value) (c cap : Z) :
  0 < c < SIZE_MOD ->
  (exists w',
     Insert k v c (mkWorld (mkHeap ∅ 1%positive) LRUCache_new) = Ok (1%positive, w') /\
     lru_ (this w') = [] /\
     objs (mem w') !! 1%positive = Some (mkHandle k v 1 c) /\
     usage_ (this w') = c /\
     Lookup k w' = Ok (None, w')) /\
  (c <= cap ->
   exists w' w'',
     Insert k v c (mkWorld (mkHeap ∅ 1%positive) (set_capacity cap LRUCache_new))
       = Ok (1%positive, w') /\
     usage_ (this w') = c /\
     Lookup k w' = Ok (Some 1%positive, w'') /\
     objs (mem w'') !! 1%positive = Some (mkHandle k v 3 c)).
Proof.
  intros Hc.
  assert (wrap (0 + c) = c) as Hwc by (apply wrap_small; unfold in_size_t; lia).
  split.
  - set (w := mkWorld (mkHeap (∅ : gmap positive (LRUHandle Key Value)) 1%positive)
                      (LRUCache_new (Key:=Key))).
    assert (table_ (this w) !! k = None) as Hk by apply lookup_empty.
    set (h2 := mkHandle k v 2 c).
    assert (evict_one (installed k v c w) =
            Ok (tt, released 1%positive h2
                      (mkWorld (mem (installed k v c w))
                         (mkCache (wrap (0 + c)) 0 []
                                  (delete k (table_ (this (installed k v c w))))))))
      as Ho.
    { rewrite (evict_one_eq [] 2%positive 1%positive h2); [|done|apply lookup_insert_eq].
      by rewrite (Release_live 1%positive h2) by apply lookup_insert_eq. }
    eexists. split.
    { rewrite (Insert_unregistered k v c w Hk).
      erewrite bind_eq; [reflexivity|].
      erewrite (evict_loop_continue 0); [reflexivity| | |exact Ho].
      - simpl. lia.
      - done. }
    rewrite released_lru. split; [done|].
    split; [unfold released; simpl; apply lookup_insert_eq|].
    split; [unfold released; simpl; done|].
    apply Lookup_absent. rewrite released_table. simpl. apply lookup_delete_eq.
  - intros Hcap.
    set (w := mkWorld (mkHeap (∅ : gmap positive (LRUHandle Key Value)) 1%positive)
                      (set_capacity cap (LRUCache_new (Key:=Key)))).
    assert (table_ (this w) !! k = None) as Hk by apply lookup_empty.
    exists (installed k v c w). eexists. split.
    { rewrite (Insert_unregistered k v c w Hk).
      erewrite bind_eq by (apply evict_loop_done; left; simpl; lia). done. }
    split; [done|]. split.
    { rewrite (Lookup_valid k 2%positive 1%positive (installed k v c w)).
      - simpl. rewrite lookup_insert_eq. reflexivity.
      - apply lookup_insert_eq.
      - done. }
    rewrite (looked_up_front 2%positive 1%positive _ [] (installed k v c w)) by done.
    simpl. apply lookup_insert_eq.
Qed.

End Calls.

(** * Further properties of the sharded cache *)

Section Router.

Context {Key : Type} `{Countable Key} {Value : Type}.

Variable hash : Key -> Z.

Implicit Types (r : SharedLRUCache.SharedWorld Key Value)
  (w : World Key Value) (h : LRUHandle Key Value).

Lemma on_shard_eq {A} (i : nat) (m : M Key Value A) r s a w' :
  SharedLRUCache.shard_ r !! i = Some s ->
  m (mkWorld (SharedLRUCache.smem r) s) = Ok (a, w') ->
  SharedLRUCache.on_shard i m r =
  Ok (a, SharedLRUCache.mkShared (mem w') (<[i := this w']> (SharedLRUCache.shard_ r))).
Proof. intros Hs Hm. unfold SharedLRUCache.on_shard. by rewrite Hs, Hm. Qed.

(** ** [Prune] of one shard, seen from the heap *)

Lemma prune_one_shrinks p w w' :
  prune_one p w = Ok (tt, w') ->
  capacity_ (this w') = capacity_ (this w) /\
  forall q h', objs (mem w') !! q = Some h' -> objs (mem w) !! q = Some h'.
Proof.
  intros (h & Hp & ->)%prune_one_Ok. case_bool_decide as Hone; [|done].
  rewrite released_capacity. split; [done|]. intros q h'.
  unfold released. rewrite Hone. rewrite bool_decide_eq_true_2 by reflexivity. simpl.
  by intros [_ ?]%lookup_delete_Some.
Qed.

Lemma Prune_shrinks w w' :
  Prune w = Ok (tt, w') ->
  capacity_ (this w') = capacity_ (this w) /\
  forall q h', objs (mem w') !! q = Some h' -> objs (mem w) !! q = Some h'.
Proof.
  unfold Prune. intros (w0 & w1 & Hg & Hf)%bind_Ok. injection Hg as <- <-.
  revert Hf.
  apply (for_each_ind
           (fun w1 => capacity_ (this w1) = capacity_ (this w) /\
                      forall q h', objs (mem w1) !! q = Some h' -> objs (mem w) !! q = Some h')
           prune_one (lru_ (this w))); [|done].
  intros n w1 w2 _ [Hc Hsub] [Hc' Hsub']%prune_one_shrinks. split; [congruence|]. auto.
Qed.

Lemma shards_fail_UB {A B} (F : Res (A * B) -> nat -> Res (A * B)) (idxs : list nat) :
  (forall i, F UB i = UB) -> foldl F UB idxs = UB.
Proof. intros HF. induction idxs as [|i idxs IH]; simpl; [done|]. by rewrite HF. Qed.

Lemma shards_fail_Assert {A B} (F : Res (A * B) -> nat -> Res (A * B)) (idxs : list nat) :
  (forall i, F AssertFail i = AssertFail) -> foldl F AssertFail idxs = AssertFail.
Proof. intros HF. induction idxs as [|i idxs IH]; simpl; [done|]. by rewrite HF. Qed.

Lemma prune_shards (idxs : list nat) : forall r r',
  foldl (fun acc idx => match acc with
                        | Ok (_, r1) => SharedLRUCache.on_shard idx Prune r1
                        | AssertFail => AssertFail
                        | UB => UB
                        end) (Ok (tt, r)) idxs = Ok (tt, r') ->
  (forall s, s ∈ SharedLRUCache.shard_ r -> NoDup (lru_ s).*2) ->
  lru_ <$> SharedLRUCache.shard_ r' = lru_ <$> SharedLRUCache.shard_ r /\
  capacity_ <$> SharedLRUCache.shard_ r' = capacity_ <$> SharedLRUCache.shard_ r /\
  (forall q h', objs (SharedLRUCache.smem r') !! q = Some h' ->
                objs (SharedLRUCache.smem r) !! q = Some h') /\
  (forall i s n h, i ∈ idxs -> SharedLRUCache.shard_ r !! i = Some s -> n ∈ lru_ s ->
     objs (SharedLRUCache.smem r) !! n.2 = Some h -> refs h = 1 ->
     objs (SharedLRUCache.smem r') !! n.2 = None).
Proof.
  induction idxs as [|i idxs IH]; intros r r' Hf Hnd.
  - simpl in Hf. injection Hf as <-. split; [done|]. split; [done|]. split; [done|].
    intros i s n h Hi. by apply elem_of_nil in Hi.
  - simpl in Hf.
    destruct (SharedLRUCache.on_shard i Prune r) as [[[] r1]| |] eqn:Ho.
    2:{ rewrite (shards_fail_Assert (A:=unit)) in Hf; done. }
    2:{ rewrite (shards_fail_UB (A:=unit)) in Hf; done. }
    apply on_shard_Ok in Ho as (s & s' & Hs & Hp & Hsh).
    assert (NoDup (lru_ s).*2) as Hnds by (eapply Hnd, list_elem_of_lookup_2, Hs).
    unfold Prune in Hp. pose proof Hp as Hp'.
    apply bind_Ok in Hp' as (w0 & w1 & Hg & Hrun). injection Hg as <- <-. simpl in Hrun.
    destruct (prune_run_keeps _ _ _ Hnds Hrun) as (Hl & _ & _ & Hfreed). simpl in Hl, Hfreed.
    destruct (Prune_shrinks _ _ Hp) as [Hc Hsub]. simpl in Hc, Hsub.
    destruct (IH r1 r' Hf) as (Hl' & Hc' & Hsub' & Hdel').
    { intros s0 Hs0. rewrite Hsh in Hs0.
      apply list_elem_of_lookup in Hs0 as [j Hj].
      destruct (decide (j = i)) as [->|Hne].
      - rewrite list_lookup_insert_eq in Hj by (by eapply lookup_lt_Some).
        injection Hj as <-. by rewrite Hl.
      - rewrite list_lookup_insert_ne in Hj by done.
        eapply Hnd, list_elem_of_lookup_2, Hj. }
    split; [|split; [|split]].
    + rewrite Hl', Hsh, list_fmap_insert, Hl. apply list_insert_id.
      by rewrite list_lookup_fmap, Hs.
    + rewrite Hc', Hsh, list_fmap_insert, Hc. apply list_insert_id.
      by rewrite list_lookup_fmap, Hs.
    + auto.
    + intros j sj n h Hj Hsj Hn Hh Hone.
      destruct (objs (SharedLRUCache.smem r') !! n.2) as [h'|] eqn:Hlive; [|done].
      exfalso. pose proof (Hsub' _ _ Hlive) as Hlive1.
      pose proof (Hsub _ _ Hlive1) as Hlive0. rewrite Hh in Hlive0. injection Hlive0 as <-.
      destruct (decide (j = i)) as [->|Hne].
      * rewrite Hs in Hsj. injection Hsj as <-.
        destruct (Hfreed n h Hn Hh Hone) as [Hdead _]. congruence.
      * apply elem_of_cons in Hj as [?|Hj]; [done|].
        assert (SharedLRUCache.shard_ r1 !! j = Some sj) as Hsj1.
        { by rewrite Hsh, list_lookup_insert_ne. }
        rewrite (Hdel' j sj n h Hj Hsj1 Hn Hlive1 Hone) in Hlive. done.
Qed.

(** ** [Debug] of every shard *)

Lemma Debug_live (m : Heap Key Value) (s : LRUCache Key) :
  Forall (fun q => is_Some (objs m !! q)) (lru_ s).*2 ->
  exists o, Debug (mkWorld m s) = Ok (o, mkWorld m s).
Proof.
  intros Hall. destruct (debug_all (lru_ s) (mkWorld m s)) as (hs & _ & Hf).
  { intros q Hq. by apply (proj1 (Forall_forall _ _) Hall). }
  eexists. unfold Debug.
  erewrite bind_eq by reflexivity. erewrite bind_eq by exact Hf. done.
Qed.

Lemma debug_shards (n : nat) : forall (a : nat) r out0 outs,
  Forall2 (fun s o => Debug (mkWorld (SharedLRUCache.smem r) s)
                      = Ok (o, mkWorld (SharedLRUCache.smem r) s))
          (SharedLRUCache.shard_ r) outs ->
  (a + n = length (SharedLRUCache.shard_ r))%nat ->
  foldl (fun acc idx => match acc with
                        | Ok (out, r1) =>
                            match SharedLRUCache.on_shard idx Debug r1 with
                            | Ok (o, r2) => Ok (out ++ SharedLRUCache.debug_shard idx o, r2)
                            | AssertFail => AssertFail
                            | UB => UB
                            end
                        | AssertFail => AssertFail
                        | UB => UB
                        end) (Ok (out0, r)) (seq a n)
  = Ok (out0 ++ concat (imap (fun j => SharedLRUCache.debug_shard (a + j)) (drop a outs)), r).
Proof.
  induction n as [|n IH]; intros a r out0 outs Hall Hlen.
  - pose proof (Forall2_length _ _ _ Hall) as Hlo.
    simpl. rewrite drop_ge by lia.
    simpl. by rewrite app_nil_r.
  - assert (a < length (SharedLRUCache.shard_ r))%nat as Hlt by lia.
    destruct (lookup_lt_is_Some_2 _ _ Hlt) as [s Hs].
    destruct (Forall2_lookup_l _ _ _ _ _ Hall Hs) as (o & Ho & Hd).
    simpl.
    rewrite (on_shard_eq a Debug r s o _ Hs Hd). simpl.
    rewrite list_insert_id by done.
    replace (SharedLRUCache.mkShared (SharedLRUCache.smem r) (SharedLRUCache.shard_ r))
      with r by (by destruct r).
    rewrite (IH (S a) r _ outs Hall) by lia.
    rewrite (drop_S _ _ _ Ho), imap_cons. cbn [concat].
    rewrite Nat.add_0_r, <- app_assoc. do 5 f_equal.
    apply imap_ext. intros j x _. simpl. f_equal. lia.
Qed.

(** X21.  [SharedLRUCache::Prune] prunes every one of the 16 shards: when it
    returns, no shard's list or capacity has changed, no handle was created
    or altered, and every entry that was listed in a shard with count 1 has
    been deleted. *)
Theorem Shared_Prune_every_shard r r' :
  SharedLRUCache.Prune r = Ok (tt, r') ->
  (forall s, s ∈ SharedLRUCache.shard_ r -> NoDup (lru_ s).*2) ->
  lru_ <$> SharedLRUCache.shard_ r' = lru_ <$> SharedLRUCache.shard_ r /\
  capacity_ <$> SharedLRUCache.shard_ r' = capacity_ <$> SharedLRUCache.shard_ r /\
  (forall q h', objs (SharedLRUCache.smem r') !! q = Some h' ->
                objs (SharedLRUCache.smem r) !! q = Some h') /\
  (forall i s n h, (i < 16)%nat -> SharedLRUCache.shard_ r !! i = Some s -> n ∈ lru_ s ->
     objs (SharedLRUCache.smem r) !! n.2 = Some h -> refs h = 1 ->
     objs (SharedLRUCache.smem r') !! n.2 = None).
Proof.
  intros Hp Hnd. unfold SharedLRUCache.Prune in Hp.
  destruct (prune_shards _ r r' Hp Hnd) as (Hl & Hc & Hsub & Hdel).
  split; [done|]. split; [done|]. split; [done|].
  intros i s n h Hi. apply Hdel.
  change (Z.to_nat SharedLRUCache.kNumShards) with 16%nat.
  apply elem_of_seq. lia.
Qed.

(** X22.  Through the router, [Insert] of a key that the key's shard does
    not hold and whose charge fits under the shard's capacity, then [LookUp]
    of the key, then [Release] of the handle: [LookUp] returns the handle
    that [Insert] returned, with count 3; [Release] finds the shard through
    the key stored in the handle and brings the count back to 2; all three
    calls change the shard [hash k mod 16] and no other. *)
Theorem Shared_Insert_LookUp_Release r (k : Key) (v : Value) (c : Z) s :
  SharedLRUCache.shard_ r !! SharedLRUCache.Shard (hash k) = Some s ->
  table_ s !! k = None ->
  wrap (usage_ s + c) <= capacity_ s ->
  exists r1 r2 r3 s1,
    SharedLRUCache.Insert hash k v c r = Ok (brk (SharedLRUCache.smem r), r1) /\
    SharedLRUCache.LookUp hash k r1 = Ok (Some (brk (SharedLRUCache.smem r)), r2) /\
    SharedLRUCache.Release hash (Some (brk (SharedLRUCache.smem r))) r2 = Ok (tt, r3) /\
    objs (SharedLRUCache.smem r2) !! brk (SharedLRUCache.smem r) = Some (mkHandle k v 3 c) /\
    objs (SharedLRUCache.smem r3) !! brk (SharedLRUCache.smem r) = Some (mkHandle k v 2 c) /\
    s1 = mkCache (wrap (usage_ s + c)) (capacity_ s)
                 ((Pos.succ (brk (SharedLRUCache.smem r)), brk (SharedLRUCache.smem r))
                    :: lru_ s)
                 (<[k := Pos.succ (brk (SharedLRUCache.smem r))]> (table_ s)) /\
    SharedLRUCache.shard_ r1 =
      <[SharedLRUCache.Shard (hash k) := s1]> (SharedLRUCache.shard_ r) /\
    SharedLRUCache.shard_ r2 = SharedLRUCache.shard_ r1 /\
    SharedLRUCache.shard_ r3 = SharedLRUCache.shard_ r1.
Proof.
  intros Hs Hk Hroom.
  set (i := SharedLRUCache.Shard (hash k)) in *.
  set (w := mkWorld (SharedLRUCache.smem r) s).
  assert (i < length (SharedLRUCache.shard_ r))%nat as Hlt by (by eapply lookup_lt_Some).
  assert (Insert k v c w = Ok (brk (mem w), installed k v c w)) as Hi.
  { rewrite (Insert_unregistered k v c w Hk).
    erewrite bind_eq by (apply evict_loop_done; left; simpl; lia). done. }
  set (w1 := installed k v c w) in *.
  set (h2 := mkHandle k v 2 c).
  assert (Lookup k w1 =
          Ok (Some (brk (mem w)), looked_up (Pos.succ (brk (mem w))) (brk (mem w)) h2 w1))
    as Hlk.
  { rewrite (Lookup_valid k (Pos.succ (brk (mem w))) (brk (mem w)) w1).
    - unfold w1. simpl. by rewrite lookup_insert_eq.
    - apply lookup_insert_eq.
    - simpl. by rewrite decide_True. }
  rewrite (looked_up_front _ _ h2 (lru_ s) w1) in Hlk by done.
  change (wrap (refs h2 + 1)) with 3 in Hlk. simpl in Hlk.
  set (o3 := <[brk (SharedLRUCache.smem r) := mkHandle k v 3 c]>
               (<[brk (SharedLRUCache.smem r) := mkHandle k v 2 c]>
                  (objs (SharedLRUCache.smem r)))) in *.
  set (w2 := mkWorld (mkHeap o3 (Pos.succ (Pos.succ (brk (SharedLRUCache.smem r)))))
                     (this w1)) in *.
  assert (Release (Some (brk (SharedLRUCache.smem r))) w2
          = Ok (tt, released (brk (SharedLRUCache.smem r)) (mkHandle k v 3 c) w2)) as Hrel.
  { rewrite (Release_live _ (mkHandle k v 3 c)); [done|]. apply lookup_insert_eq. }
  do 3 eexists. exists (this w1).
  split.
  { unfold SharedLRUCache.Insert, SharedLRUCache.HashSlice.
    apply (on_shard_eq i _ r s _ _ Hs Hi). }
  split.
  { unfold SharedLRUCache.LookUp, SharedLRUCache.HashSlice.
    eapply (on_shard_eq i _ _ (this w1)); simpl.
    - by apply list_lookup_insert_eq.
    - exact Hlk. }
  split.
  { unfold SharedLRUCache.Release, SharedLRUCache.HashSlice. simpl.
    unfold o3 at 1. rewrite lookup_insert_eq. simpl.
    eapply (on_shard_eq i _ _ (this w1)); simpl.
    - rewrite list_insert_insert_eq. by apply list_lookup_insert_eq.
    - exact Hrel. }
  simpl. split; [apply lookup_insert_eq|]. split; [apply lookup_insert_eq|].
  split; [done|]. split; [done|].
  rewrite !list_insert_insert_eq. done.
Qed.

(** X23.  The shards of a cache constructed with total capacity [C] of at
    most 2^64 - 16 together hold at least [C], and less than [C + 16]. *)
Theorem init_total_capacity (C : Z) :
  0 <= C <= SIZE_MOD - 16 ->
  C <= total_capacity (SharedLRUCache.init (Key:=Key) C) < C + 16.
Proof.
  intros HC. rewrite init_replicate. unfold total_capacity. simpl.
  rewrite (per_capacity_in_range C HC). unfold ceil_div.
  Z.div_mod_to_equations. lia.
Qed.

(** X24.  [SharedLRUCache::Debug] writes, for each of the 16 shards in turn,
    the line with the shard's index, what the shard's own [Debug] writes,
    and an empty line; it changes nothing, provided every pointer listed in
    a shard designates a live handle. *)
Theorem Shared_Debug_reads_only r :
  length (SharedLRUCache.shard_ r) = 16%nat ->
  (forall s, s ∈ SharedLRUCache.shard_ r ->
     Forall (fun q => is_Some (objs (SharedLRUCache.smem r) !! q)) (lru_ s).*2) ->
  exists outs,
    Forall2 (fun s o => Debug (mkWorld (SharedLRUCache.smem r) s)
                        = Ok (o, mkWorld (SharedLRUCache.smem r) s))
            (SharedLRUCache.shard_ r) outs /\
    SharedLRUCache.Debug r = Ok (concat (imap SharedLRUCache.debug_shard outs), r).
Proof.
  intros Hlen Hlive.
  assert (exists outs,
             Forall2 (fun s o => Debug (mkWorld (SharedLRUCache.smem r) s)
                                 = Ok (o, mkWorld (SharedLRUCache.smem r) s))
                     (SharedLRUCache.shard_ r) outs) as [outs Houts].
  { clear Hlen. induction (SharedLRUCache.shard_ r) as [|s ss IH]; [exists []; constructor|].
    destruct (Debug_live (SharedLRUCache.smem r) s) as [o Ho]; [apply Hlive; left|].
    destruct IH as [outs Houts].
    - intros s' Hs'. apply Hlive. by right.
    - exists (o :: outs). by constructor. }
  exists outs. split; [done|]. unfold SharedLRUCache.Debug.
  change (Z.to_nat SharedLRUCache.kNumShards) with 16%nat.
  rewrite (debug_shards 16 0 r [] outs Houts) by (by rewrite Hlen). done.
Qed.

(** ** What one call on a shard can reach *)

(** A call on one cache touches the handles in its own list, the handle it
    allocates and the handle it is asked to release, and no other; it lists
    no pointer that was not in its list, but for the one it allocates. *)
Lemma step_confined (op : Op Key Value) res w w' :
  (forall p h, objs (mem w) !! p = Some h -> (p < brk (mem w))%positive) ->
  step op w = Ok (res, w') ->
  (brk (mem w) <= brk (mem w'))%positive /\
  (forall p h, objs (mem w') !! p = Some h -> (p < brk (mem w'))%positive) /\
  (forall q, q ∈ (lru_ (this w')).*2 ->
     q ∈ (lru_ (this w)).*2 \/
     ((exists k v c, op = OInsert k v c) /\ q = brk (mem w) /\
      (brk (mem w) < brk (mem w'))%positive)) /\
  (forall p h, objs (mem w) !! p = Some h -> p ∉ (lru_ (this w)).*2 ->
     op <> ORelease (Some p) -> objs (mem w') !! p = Some h) /\
  (forall p h', objs (mem w') !! p = Some h' ->
     (exists h, objs (mem w) !! p = Some h /\ key h' = key h) \/
     (exists k v c, op = OInsert k v c /\ p = brk (mem w) /\ key h' = k)).
Proof.
  intros Hheap Hs.
  destruct op as [k v c|k|handle|k|]; cbn [step] in Hs.
  - apply bind_Ok in Hs as (hd & w1 & Hi & Hs). injection Hs as <- <-.
    apply Insert_Ok in Hi as (Hk & -> & He).
    set (w0 := installed k v c w) in *.
    assert (brk (mem w1) = brk (mem w0) /\
            (exists gone, lru_ (this w0) = lru_ (this w1) ++ gone) /\
            (forall p, p ∉ (lru_ (this w0)).*2 -> objs (mem w1) !! p = objs (mem w0) !! p) /\
            (forall p h', objs (mem w1) !! p = Some h' ->
               exists h0, objs (mem w0) !! p = Some h0 /\ key h' = key h0))
      as (Hb & [gone Hgone] & Hout & Hkept).
    { revert He.
      apply (evict_loop_ind
               (fun w2 => brk (mem w2) = brk (mem w0) /\
                  (exists gone, lru_ (this w0) = lru_ (this w2) ++ gone) /\
                  (forall p, p ∉ (lru_ (this w0)).*2 ->
                             objs (mem w2) !! p = objs (mem w0) !! p) /\
                  (forall p h', objs (mem w2) !! p = Some h' ->
                     exists h0, objs (mem w0) !! p = Some h0 /\ key h' = key h0))).
      - intros w2 w3 (Hb2 & [gone2 Hg2] & Hout2 & Hkept2)
               (l & it & p & h & Hl & Hp & _ & ->)%evict_one_Ok.
        rewrite released_brk, released_lru. cbn [mem this lru_ objs].
        split; [done|]. split; [|split].
        + exists ((it, p) :: gone2). rewrite Hg2, Hl, <- app_assoc. done.
        + intros q Hq. rewrite released_other; [by apply Hout2|].
          intros ->. apply Hq. rewrite Hg2, Hl, !fmap_app, !elem_of_app.
          left. right. by left.
        + intros q h' Hq. apply released_fields in Hq as (h1 & Hq1 & Hk1 & _); [|done].
          cbn [mem objs] in Hq1. destruct (Hkept2 q h1 Hq1) as (h0 & Hq0 & Hk0).
          exists h0. split; [done|congruence].
      - split; [done|]. split; [by exists []; rewrite app_nil_r|]. split; [done|].
        intros p h' Hp. by exists h'. }
    assert (brk (mem w0) = Pos.succ (Pos.succ (brk (mem w)))) as Hb0 by done.
    split; [lia|]. split; [|split; [|split]].
    + intros p h' (h0 & Hp0 & _)%Hkept. unfold w0 in Hp0. simpl in Hp0.
      apply lookup_insert_Some in Hp0 as [[<- _]|[_ Hp0]]; [lia|].
      apply Hheap in Hp0. lia.
    + intros q Hq.
      assert (q ∈ (lru_ (this w0)).*2) as Hq0.
      { rewrite Hgone, fmap_app, elem_of_app. by left. }
      unfold w0 in Hq0. simpl in Hq0. apply elem_of_cons in Hq0 as [->|Hq0]; [|by left].
      right. split; [eauto|]. split; [done|lia].
    + intros p h Hp Hni _. rewrite Hout.
      * unfold w0. simpl. rewrite lookup_insert_ne; [done|].
        intros <-. apply Hheap in Hp. lia.
      * unfold w0. simpl. intros [->|Hin]%elem_of_cons; [|done].
        apply Hheap in Hp. lia.
    + intros p h' (h0 & Hp0 & Hk0)%Hkept. unfold w0 in Hp0. simpl in Hp0.
      apply lookup_insert_Some in Hp0 as [[<- <-]|[_ Hp0]].
      * right. exists k, v, c. by rewrite Hk0.
      * left. by exists h0.
  - apply Lookup_Ok in Hs as [(_ & -> & ->)|(it & p & h & Hk & Hn & Hp & -> & ->)].
    { split; [lia|]. split; [done|]. split; [by left|]. split; [done|].
      intros p h' Hp. left. by exists h'. }
    assert (p ∈ (lru_ (this w)).*2) as Hlisted.
    { apply list_elem_of_fmap. exists (it, p). split; [done|]. by apply node_ptr_Some. }
    assert ((brk (mem w) <= brk (mem (looked_up it p h w)))%positive /\
            forall q, q ∈ (lru_ (this (looked_up it p h w))).*2 -> q ∈ (lru_ (this w)).*2)
      as [Hb Hl].
    { unfold looked_up. destruct (lru_ (this w)) as [|n l] eqn:Hlru; [split; [lia|done]|].
      case_bool_decide; cbn [mem this lru_ brk].
      - split; [lia|]. rewrite fmap_cons. intros q [->|Hq]%elem_of_cons; [done|].
        eapply elem_of_sublist; [exact Hq|]. apply fmap_sublist, drop_node_sublist.
      - split; [lia|]. by rewrite Hlru. }
    rewrite looked_up_objs by done.
    split; [done|]. split; [|split; [|split]].
    + intros q h' [[<- _]|[_ Hq]]%lookup_insert_Some.
      * apply Hheap in Hp. lia.
      * apply Hheap in Hq. lia.
    + intros q Hq. left. by apply Hl.
    + intros q hq Hq Hni _. rewrite lookup_insert_ne; [done|]. by intros <-.
    + intros q h' [[<- <-]|[_ Hq]]%lookup_insert_Some; left; [by exists h|by exists h'].
  - apply bind_Ok in Hs as ([] & w1 & Hr & Hs). injection Hs as <- <-.
    destruct handle as [p|]; [|done].
    apply Release_Ok in Hr as (h & Hp & _ & ->).
    rewrite released_brk, released_lru.
    split; [lia|]. split; [|split; [|split]].
    + intros q h' (h0 & Hq & _)%released_fields; [|done]. by apply Hheap in Hq.
    + intros q Hq. by left.
    + intros q hq Hq _ Hne. rewrite released_other; [done|]. by intros ->.
    + intros q h' (h0 & Hq & Hk & _)%released_fields; [|done]. left. by exists h0.
  - apply bind_Ok in Hs as ([] & w1 & He & Hs). injection Hs as <- <-.
    apply Erase_Ok in He as [(_ & ->)|(it & p & h & Hk & Hn & Hp & _ & ->)].
    { split; [lia|]. split; [done|]. split; [by left|]. split; [done|].
      intros p h' Hp. left. by exists h'. }
    simpl. rewrite released_brk.
    split; [lia|]. split; [|split; [|split]].
    + intros q h' (h0 & Hq & _)%released_fields; [|done]. by apply Hheap in Hq.
    + intros q Hq. left. eapply elem_of_sublist; [exact Hq|].
      apply fmap_sublist, drop_node_sublist.
    + intros q hq Hq Hni _. rewrite released_other; [done|]. intros ->. apply Hni.
      apply list_elem_of_fmap. exists (it, p). split; [done|]. by apply node_ptr_Some.
    + intros q h' (h0 & Hq & Hk0 & _)%released_fields; [|done]. left. by exists h0.
  - apply bind_Ok in Hs as ([] & w1 & Hp & Hs). injection Hs as <- <-.
    unfold Prune in Hp. apply bind_Ok in Hp as (w0 & w2 & Hg & Hp). injection Hg as <- <-.
    assert (brk (mem w1) = brk (mem w) /\ lru_ (this w1) = lru_ (this w) /\
            (forall q h', objs (mem w1) !! q = Some h' -> objs (mem w) !! q = Some h') /\
            (forall q, q ∉ (lru_ (this w)).*2 -> objs (mem w1) !! q = objs (mem w) !! q))
      as (Hb & Hl & Hsub & Hout).
    { revert Hp.
      apply (for_each_ind
               (fun w2 => brk (mem w2) = brk (mem w) /\ lru_ (this w2) = lru_ (this w) /\
                  (forall q h', objs (mem w2) !! q = Some h' -> objs (mem w) !! q = Some h') /\
                  (forall q, q ∉ (lru_ (this w)).*2 ->
                             objs (mem w2) !! q = objs (mem w) !! q))); [|done].
      intros n w2 w3 Hn (Hb2 & Hl2 & Hsub2 & Hout2) Hpr.
      destruct (prune_one_shrinks _ _ _ Hpr) as [_ Hsub3].
      apply prune_one_Ok in Hpr as (h & Hh & ->).
      case_bool_decide as Hone; [|done].
      rewrite released_brk, released_lru. simpl.
      split; [done|]. split; [done|]. split; [auto|].
      intros q Hq. rewrite released_other; [by apply Hout2|].
      intros ->. apply Hq. apply list_elem_of_fmap. by exists n. }
    rewrite Hb, Hl. split; [lia|]. split; [|split; [|split]].
    + intros q h' Hq%Hsub. by apply Hheap in Hq.
    + intros q Hq. by left.
    + intros q hq Hq Hni _. by rewrite Hout.
    + intros q h' Hq%Hsub. left. by exists h'.
Qed.

(** A call on shard [i] keeps the shards apart and leaves the others
    alone, when what it inserts or releases belongs to shard [i]. *)
Lemma apart_on_shard (op : Op Key Value) (i : nat) r res r' :
  shards_apart hash r ->
  SharedLRUCache.on_shard i (step op) r = Ok (res, r') ->
  (forall k v c, op = OInsert k v c ->
     SharedLRUCache.Shard (SharedLRUCache.HashSlice hash k) = i) ->
  (forall p h, op = ORelease (Some p) -> objs (SharedLRUCache.smem r) !! p = Some h ->
     SharedLRUCache.Shard (SharedLRUCache.HashSlice hash (key h)) = i) ->
  shards_apart hash r' /\ others_kept i r r'.
Proof.
  intros (Hdis & Hroute & Hlisted & Hheap) Ho Hins Hrel.
  apply on_shard_Ok in Ho as (s & s' & Hs & Hm & Hsh).
  destruct (step_confined op res (mkWorld (SharedLRUCache.smem r) s)
              (mkWorld (SharedLRUCache.smem r') s') Hheap Hm)
    as (Hb & Hheap' & Hl' & Hout & Hkeys).
  simpl in Hb, Hheap', Hl', Hout, Hkeys.
  assert (i < length (SharedLRUCache.shard_ r))%nat as Hlt by (by eapply lookup_lt_Some).
  assert (forall j sj, SharedLRUCache.shard_ r' !! j = Some sj ->
            (j = i /\ sj = s') \/ (j <> i /\ SharedLRUCache.shard_ r !! j = Some sj)) as Hshard.
  { intros j sj Hj. rewrite Hsh in Hj. destruct (decide (j = i)) as [->|Hne].
    - rewrite list_lookup_insert_eq in Hj by done. left. by injection Hj as <-.
    - rewrite list_lookup_insert_ne in Hj by done. by right. }
  assert (forall j sj p h, j <> i -> SharedLRUCache.shard_ r !! j = Some sj ->
            p ∈ (lru_ sj).*2 -> objs (SharedLRUCache.smem r) !! p = Some h ->
            objs (SharedLRUCache.smem r') !! p = Some h) as Hkept.
  { intros j sj p h Hne Hj Hp Hh. apply Hout; [done| |].
    - intros Hin. by apply (Hdis j i sj s p Hne Hj Hs Hp).
    - intros ->. apply Hne. rewrite <- (Hrel p h eq_refl Hh).
      symmetry. by apply (Hroute j sj p h). }
  split; [|intros j sj Hne Hj; split; [by rewrite Hsh, list_lookup_insert_ne|eauto]].
  assert (forall j sj p, j <> i -> SharedLRUCache.shard_ r !! j = Some sj ->
            p ∈ (lru_ sj).*2 -> p ∉ (lru_ s').*2) as Hnew.
  { intros j sj p Hne Hj Hp [Hin|(_ & -> & _)]%Hl'.
    - by apply (Hdis j i sj s p Hne Hj Hs Hp).
    - apply (Hlisted j sj) in Hp; [lia|done]. }
  split; [|split; [|split]].
  - intros j1 j2 s1 s2 p Hne [[-> ->]|[Hn1 H1]]%Hshard [[-> ->]|[Hn2 H2]]%Hshard Hp.
    + done.
    + intros Hp2. by apply (Hnew j2 s2 p Hn2 H2 Hp2).
    + by apply (Hnew j1 s1 p Hn1 H1 Hp).
    + by apply (Hdis j1 j2 s1 s2 p).
  - intros j sj p h' [[-> ->]|[Hne Hj]]%Hshard Hp Hh'.
    + destruct (Hkeys p h' Hh') as [(h & Hh & ->)|(k & v & c & -> & -> & <-)].
      * apply Hl' in Hp as [Hp|(_ & -> & _)]; [by apply (Hroute i s p h)|].
        apply Hheap in Hh. lia.
      * by apply (Hins _ v c).
    + destruct (Hkeys p h' Hh') as [(h & Hh & ->)|(k & v & c & -> & -> & <-)].
      * by apply (Hroute j sj p h).
      * apply (Hlisted j sj) in Hp; [lia|done].
  - intros j sj p [[-> ->]|[Hne Hj]]%Hshard Hp.
    + apply Hl' in Hp as [Hp|(_ & -> & Hlt')]; [|done].
      apply (Hlisted i s) in Hp; [lia|done].
    + apply (Hlisted j sj) in Hp; [lia|done].
  - done.
Qed.

Lemma on_shard_step_Insert (i : nat) (k : Key) (v : Value) (c : Z) r res r' :
  SharedLRUCache.on_shard i (Insert k v c) r = Ok (res, r') ->
  SharedLRUCache.on_shard i (step (OInsert k v c)) r = Ok (Some res, r').
Proof.
  intros (s & s' & Hs & Hm & Hsh)%on_shard_Ok.
  rewrite (on_shard_eq i _ r s (Some res) (mkWorld (SharedLRUCache.smem r') s') Hs).
  - simpl. rewrite <- Hsh. by destruct r'.
  - cbn [step]. by erewrite bind_eq by exact Hm.
Qed.

Lemma on_shard_step_unit (i : nat) (op : Op Key Value) (m : M Key Value unit) r r' :
  (forall w, step op w = (m;; mret None) w) ->
  SharedLRUCache.on_shard i m r = Ok (tt, r') ->
  SharedLRUCache.on_shard i (step op) r = Ok (None, r').
Proof.
  intros Hop (s & s' & Hs & Hm & Hsh)%on_shard_Ok.
  rewrite (on_shard_eq i _ r s None (mkWorld (SharedLRUCache.smem r') s') Hs).
  - simpl. rewrite <- Hsh. by destruct r'.
  - rewrite Hop. by erewrite bind_eq by exact Hm.
Qed.

(** The cache as constructed: no shard lists anything. *)
Lemma shards_apart_init (C : Z) :
  shards_apart hash
    (SharedLRUCache.mkShared (mkHeap ∅ 1%positive) (SharedLRUCache.init C)
       : SharedLRUCache.SharedWorld Key Value).
Proof.
  assert (forall i s p, SharedLRUCache.init (Key:=Key) C !! i = Some s ->
                        p ∉ (lru_ s).*2) as Hempty.
  { intros i s p Hi%list_elem_of_lookup_2. rewrite init_replicate in Hi.
    apply elem_of_replicate in Hi as [-> _]. simpl. apply not_elem_of_nil. }
  repeat split; simpl.
  - intros i j s s' p _ Hi _ Hp. by apply (Hempty i s p) in Hp.
  - intros i s p h Hi Hp. by apply (Hempty i s p) in Hp.
  - intros i s p Hi Hp. by apply (Hempty i s p) in Hp.
  - intros p h Hp. by rewrite lookup_empty in Hp.
Qed.

(** X25.  Shards do not interfere.  The shards of a sharded cache keep apart
    from the constructor on: [Insert], [LookUp], [Erase] and [Release] keep
    them apart, and none of these calls changes a shard other than the one
    of the key, or a live handle that another shard lists. *)
Theorem shards_do_not_interfere (C : Z) :
  shards_apart hash
    (SharedLRUCache.mkShared (mkHeap ∅ 1%positive) (SharedLRUCache.init C)
       : SharedLRUCache.SharedWorld Key Value) /\
  forall r, shards_apart hash r ->
    (forall (k : Key) (v : Value) (c : Z) res r',
       SharedLRUCache.Insert hash k v c r = Ok (res, r') ->
       shards_apart hash r' /\ others_kept (SharedLRUCache.Shard (hash k)) r r') /\
    (forall (k : Key) res r',
       SharedLRUCache.LookUp hash k r = Ok (res, r') ->
       shards_apart hash r' /\ others_kept (SharedLRUCache.Shard (hash k)) r r') /\
    (forall (k : Key) res r',
       SharedLRUCache.Erase hash k r = Ok (res, r') ->
       shards_apart hash r' /\ others_kept (SharedLRUCache.Shard (hash k)) r r') /\
    (forall p h res r',
       objs (SharedLRUCache.smem r) !! p = Some h ->
       SharedLRUCache.Release hash (Some p) r = Ok (res, r') ->
       shards_apart hash r' /\ others_kept (SharedLRUCache.Shard (hash (key h))) r r').
Proof.
  split; [apply shards_apart_init|].
  intros r Hap. split; [|split; [|split]].
  - intros k v c res r' Hi. unfold SharedLRUCache.Insert in Hi.
    apply on_shard_step_Insert in Hi.
    apply (apart_on_shard _ _ _ _ _ Hap Hi).
    + by intros k' v' c' [= -> _ _].
    + intros p h Hop. discriminate.
  - intros k res r' Hl. unfold SharedLRUCache.LookUp in Hl.
    apply (apart_on_shard (OLookup k) _ _ _ _ Hap Hl).
    + intros k' v' c' Hop. discriminate.
    + intros p h Hop. discriminate.
  - intros k [] r' He. unfold SharedLRUCache.Erase in He.
    apply (on_shard_step_unit _ (OErase k)) in He; [|done].
    apply (apart_on_shard _ _ _ _ _ Hap He).
    + intros k' v' c' Hop. discriminate.
    + intros p h Hop. discriminate.
  - intros p h [] r' Hp Hr. unfold SharedLRUCache.Release in Hr. rewrite Hp in Hr.
    apply (on_shard_step_unit _ (ORelease (Some p))) in Hr; [|done].
    apply (apart_on_shard _ _ _ _ _ Hap Hr).
    + intros k' v' c' Hop. discriminate.
    + intros q hq [= <-] Hq. rewrite Hp in Hq. by injection Hq as <-.
Qed.

End Router.

(** * Instances *)

Section Instances.

Import Scenario.

Lemma Prune_leaves_unpinned_listed_witness :
  exists a it w,
    pruned (fresh_world 2) = Ok (a, w) /\
    lru_ (this w) = [(it, a)] /\
    objs (mem w) !! a = None /\
    table_ (this w) !! "A" = None /\
    forall w'', Prune w <> Ok (tt, w'').
Proof.
  destruct (Prune_leaves_unpinned_listed
              (exec (insert_released "A" "a" 1) (fresh_world 2))
              (exec pruned (fresh_world 2)))
    as (Hl & Hfreed & Hagain).
  - vm_compute. repeat constructor. intros Hin. inversion Hin.
  - vm_compute. reflexivity.
  - exists 1%positive, 2%positive, (exec pruned (fresh_world 2)).
    split; [vm_compute; reflexivity|]. split; [exact Hl|].
    destruct (Hfreed (2%positive, 1%positive) (mkHandle "A" "a" 1 1)) as [Hd Ht].
    + vm_compute. left.
    + vm_compute. reflexivity.
    + reflexivity.
    + split; [exact Hd|]. split; [exact Ht|]. apply Hagain.
      exists (2%positive, 1%positive), (mkHandle "A" "a" 1 1).
      split; [vm_compute; left|]. split; [vm_compute|]; reflexivity.
Defined.

Lemma Insert_registered_undefined_witness :
  Insert "A" "b" 1 (exec (Insert "A" "a" 1) (fresh_world 2)) = UB.
Proof.
  apply (Insert_registered_undefined _ "A" "b" 1 2%positive).
  vm_compute. reflexivity.
Defined.

Lemma Lookup_after_move_undefined_witness :
  exists rs w p w',
    run two_held (fresh_world 2) = Ok (rs, w) /\
    Lookup "A" w = Ok (Some p, w') /\
    Lookup "A" w' = UB.
Proof.
  do 4 eexists. split; [vm_compute; reflexivity|]. split; [vm_compute; reflexivity|].
  eapply (Lookup_after_move_undefined 2 two_held).
  - vm_compute. reflexivity.
  - vm_compute. reflexivity.
  - vm_compute. discriminate.
Defined.

Lemma pin_count_governs_reclamation_witness :
  exists rs w,
    run two_held (fresh_world 1) = Ok (rs, w) /\
    lru_ (this w) = [] /\
    usage_ (this w) = wrap (total_charge (objs (mem w))).
Proof.
  do 2 eexists. split; [vm_compute; reflexivity|]. split; [reflexivity|].
  refine (proj1 (pin_count_governs_reclamation 1 two_held _ _ _)).
  vm_compute. reflexivity.
Defined.

(** C3 as stated fails: with capacity 10, an entry of charge 2^64 - 1 that
    is evicted but still held makes [usage_] wrap on the next [Insert], and
    an entry of charge 11 stays registered. *)
Lemma registered_charge_exceeds_capacity_on_wrap :
  exists rs w,
    run wrapping (fresh_world 10) = Ok (rs, w) /\
    capacity_ (this w) = 10 /\
    registered_charge w = 11 /\
    ~ registered_charge w <= capacity_ (this w).
Proof.
  do 2 eexists. split; [vm_compute; reflexivity|]. split; [reflexivity|].
  split; [vm_compute; reflexivity|]. vm_compute. intros Hle. by apply Hle.
Qed.

Lemma registered_charge_within_capacity_witness :
  exists rs w,
    run two_cycled (fresh_world 2) = Ok (rs, w) /\
    registered_charge w <= listed_charge w <= capacity_ (this w).
Proof.
  do 2 eexists. split; [vm_compute; reflexivity|].
  eapply (registered_charge_within_capacity 2 two_cycled).
  - lia.
  - unfold two_cycled. repeat constructor; simpl; lia.
  - vm_compute. reflexivity.
  - vm_compute. reflexivity.
Defined.

Lemma eviction_takes_least_recent_witness :
  exists rs w hd w' it gone,
    run two_cycled (fresh_world 2) = Ok (rs, w) /\
    Insert "C" "c" 1 w = Ok (hd, w') /\
    (it, hd) :: lru_ (this w) = lru_ (this w') ++ gone /\
    forall n g, n ∈ lru_ (this w') -> g ∈ gone ->
                more_recent (hd :: touched rs) n.2 g.2.
Proof.
  destruct (eviction_takes_least_recent 2 two_cycled
              [Some 1%positive; None; Some 3%positive; None]
              (exec (run two_cycled) (fresh_world 2)) "C" "c" 1 5%positive
              (exec (Insert "C" "c" 1) (exec (run two_cycled) (fresh_world 2))))
    as (it & gone & Hsplit & _ & Hrecent).
  - vm_compute. reflexivity.
  - vm_compute. reflexivity.
  - do 6 eexists. split; [vm_compute; reflexivity|]. split; [vm_compute; reflexivity|].
    split; [exact Hsplit|exact Hrecent].
Defined.

(** C6 as stated fails: for a total capacity of 2^64 - 1 the sum
    [capacity + kNumShards - 1] wraps and every shard gets capacity 0, not
    the ceiling 2^60. *)
Lemma shard_capacity_wraps_near_size_max :
  capacity_ <$> SharedLRUCache.init (Key:=string) (SIZE_MOD - 1) = replicate 16 0 /\
  ceil_div (SIZE_MOD - 1) 16 = 2 ^ 60.
Proof. split; vm_compute; reflexivity. Qed.

Lemma shards_capacity_and_routing_witness :
  length (SharedLRUCache.init (Key:=string) 100) = 16%nat /\
  forall s, s ∈ SharedLRUCache.init (Key:=string) 100 -> capacity_ s = ceil_div 100 16.
Proof.
  apply (proj1 (shards_capacity_and_routing (Value:=string) length_hash 100
                  ltac:(unfold SIZE_MOD; lia))).
Defined.

(** C8 as stated fails: neither a handle to a destroyed entry nor a null
    handle is caught by the assertion; both are read through unchecked. *)
Lemma Release_of_invalid_handle_unchecked :
  exists a w,
    destroyed (fresh_world 2) = Ok (a, w) /\
    objs (mem w) !! a = None /\
    Release (Some a) w = UB /\
    Release None w = UB /\
    ~ fails_fatally (Release (Some a) w) /\
    ~ fails_fatally (Release None w).
Proof.
  do 2 eexists. split; [vm_compute; reflexivity|]. split; [vm_compute; reflexivity|].
  split; [vm_compute; reflexivity|]. split; [reflexivity|].
  unfold fails_fatally. split; vm_compute; discriminate.
Qed.

Lemma Release_contract_witness :
  exists w',
    Release (Some 1%positive) (exec (Insert "A" "a" 1) (fresh_world 2)) = Ok (tt, w') /\
    usage_ (this w') = 1.
Proof.
  destruct (proj2 (proj2 (Release_contract (exec (Insert "A" "a" 1) (fresh_world 2))
                            (Some 1%positive)))
              1%positive (mkHandle "A" "a" 2 1))
    as (w' & Hr & _ & _ & _ & _ & Hu).
  - reflexivity.
  - vm_compute. reflexivity.
  - unfold SIZE_MOD. simpl. lia.
  - exists w'. split; [exact Hr|]. rewrite Hu. vm_compute. reflexivity.
Defined.

(** C9 as stated fails: when the three handles are still held the third
    [Insert] evicts every entry, [usage_] stays 3, and no key is found. *)
Lemma scenario_with_handles_held :
  exists a b c w,
    three_held (fresh_world 2) = Ok ((a, b, c), w) /\
    usage_ (this w) = 3 /\
    lru_ (this w) = [] /\
    three_lookups w = Ok ((None, None, None), w).
Proof.
  do 4 eexists. split; [vm_compute; reflexivity|]. split; [reflexivity|].
  split; [reflexivity|]. vm_compute. reflexivity.
Qed.

(** C9, amended.  Capacity 2, charges 1, every handle released right after
    its [Insert]: after A and B, [usage_] is 2 and both keys are found; the
    [Insert] of C evicts and deletes A, [usage_] is 2 again, and then A is
    not found while B and C are. *)
Theorem scenario_capacity_two :
  exists a b c w2 w3,
    two_released (fresh_world 2) = Ok ((a, b), w2) /\
    usage_ (this w2) = 2 /\
    (exists w, Lookup "A" w2 = Ok (Some a, w)) /\
    (exists w, Lookup "B" w2 = Ok (Some b, w)) /\
    insert_released "C" "c" 1 w2 = Ok (c, w3) /\
    usage_ (this w3) = 2 /\
    objs (mem w3) !! a = None /\
    exists w, three_lookups w3 = Ok ((None, Some b, Some c), w).
Proof.
  do 5 eexists. split; [vm_compute; reflexivity|]. split; [reflexivity|].
  split; [eexists; vm_compute; reflexivity|].
  split; [eexists; vm_compute; reflexivity|].
  split; [vm_compute; reflexivity|]. split; [reflexivity|].
  split; [vm_compute; reflexivity|].
  eexists. vm_compute. reflexivity.
Qed.

(** C10 as stated fails: on a quiescent cache of capacity 5 holding one
    entry of charge 5, [Insert] of charge 2^64 - 5 wraps [usage_] to 0, the
    loop does not run, and the new key is found. *)
Lemma oversized_insert_kept_on_wrap :
  exists kp w' w'',
    quiescent (exec (insert_released "X" "x" 5) (fresh_world 5)) /\
    capacity_ (this (exec (insert_released "X" "x" 5) (fresh_world 5))) < SIZE_MOD - 5 /\
    Insert "K" "v" (SIZE_MOD - 5) (exec (insert_released "X" "x" 5) (fresh_world 5))
      = Ok (kp, w') /\
    usage_ (this w') = 0 /\
    Lookup "K" w' = Ok (Some kp, w'').
Proof.
  do 3 eexists. split; [apply (bool_decide_unpack _); vm_compute; exact I|].
  split; [vm_compute; reflexivity|]. split; [vm_compute; reflexivity|].
  split; [reflexivity|]. vm_compute. reflexivity.
Qed.

Lemma oversized_insert_evicts_itself_witness :
  exists w',
    Insert "K" "v" 7 (exec (insert_released "X" "x" 5) (fresh_world 5)) = Ok (3%positive, w') /\
    lru_ (this w') = [] /\
    (forall k', Lookup k' w' = Ok (None, w')) /\
    usage_ (this w') = 7.
Proof.
  destruct (oversized_insert_evicts_itself
              (exec (insert_released "X" "x" 5) (fresh_world 5)) "K" "v" 7)
    as (w' & Hi & Hl & _ & Hlk & _ & Hu & _).
  - apply (bool_decide_unpack _). vm_compute. exact I.
  - vm_compute. reflexivity.
  - vm_compute. reflexivity.
  - lia.
  - vm_compute. reflexivity.
  - exists w'. repeat split; assumption.
Defined.

End Instances.

(** * Instances of the further properties *)

Section FurtherInstances.

Import Scenario.

Lemma Lookup_returns_latest_insert_witness :
  exists rs w w',
    run two_cycled (fresh_world 2) = Ok (rs, w) /\
    Lookup "B" w = Ok (Some 3%positive, w') /\
    latest_insert "B" (zip two_cycled rs) = Some (3%positive, "b", 1) /\
    objs (mem w') !! 3%positive = Some (mkHandle "B" "b" 2 1).
Proof.
  destruct (proj1 (Lookup_returns_latest_insert 2 two_cycled
                     [Some 1%positive; None; Some 3%positive; None]
                     (exec (run two_cycled) (fresh_world 2)) "B"
                     ltac:(vm_compute; reflexivity))
              3%positive
              (exec (Lookup "B") (exec (run two_cycled) (fresh_world 2)))
              ltac:(vm_compute; reflexivity))
    as (v & c & h & Hlatest & _ & _ & _ & _ & Hobj).
  do 3 eexists. split; [vm_compute; reflexivity|]. split; [vm_compute; reflexivity|].
  split; [vm_compute; reflexivity|]. vm_compute. reflexivity.
Defined.

Lemma handles_keep_their_contents_witness :
  exists r w',
    step (OErase "A") cached_one = Ok (r, w') /\
    capacity_ (this w') = capacity_ (this cached_one) /\
    table_ (this w') ⊆ table_ (this cached_one).
Proof.
  destruct (handles_keep_their_contents 2 [OInsert "A" "a" 1; ORelease (Some 1%positive)]
              [Some 1%positive; None] cached_one (OErase "A") None
              (exec (Erase "A") cached_one)) as (Hc & _ & Hrest).
  - vm_compute. reflexivity.
  - vm_compute. reflexivity.
  - do 2 eexists. split; [vm_compute; reflexivity|]. split; [exact Hc|].
    apply Hrest. intros k v c. discriminate.
Defined.

Lemma refs_counts_pins_witness :
  outstanding 3%positive
    (zip two_fitting [Some 1%positive; Some 3%positive; Some 3%positive; None]) = 2 /\
  own_pin 3%positive (exec (run two_fitting) (fresh_world 2)) = 1 /\
  refs (mkHandle "B" "b" 3 1) =
    wrap (outstanding 3%positive
            (zip two_fitting [Some 1%positive; Some 3%positive; Some 3%positive; None])
          + own_pin 3%positive (exec (run two_fitting) (fresh_world 2))).
Proof.
  split; [vm_compute; reflexivity|]. split; [vm_compute; reflexivity|].
  apply (refs_counts_pins 2 two_fitting
           [Some 1%positive; Some 3%positive; Some 3%positive; None]
           (exec (run two_fitting) (fresh_world 2)) 3%positive (mkHandle "B" "b" 3 1));
    vm_compute; reflexivity.
Defined.

Lemma enough_capacity_keeps_every_key_witness :
  is_Some (table_ (this (exec (run two_fitting) (fresh_world 2))) !! "B") /\
  Lookup "A" (exec (run two_fitting) (fresh_world 2))
    = Ok (None, exec (run two_fitting) (fresh_world 2)).
Proof.
  assert (OPrune ∉ two_fitting) as Hnp.
  { intros Hin. repeat (apply elem_of_cons in Hin as [Hin|Hin]; [discriminate|]).
    by apply elem_of_nil in Hin. }
  assert (Forall charge_nonneg two_fitting) as Hall.
  { repeat constructor; simpl; lia. }
  assert (2 < SIZE_MOD) as Hcap by reflexivity.
  assert (inserted_charge two_fitting <= 2) as Hsum by (simpl; lia).
  pose proof (fun k =>
    enough_capacity_keeps_every_key 2 two_fitting
      [Some 1%positive; Some 3%positive; Some 3%positive; None]
      (exec (run two_fitting) (fresh_world 2)) k Hcap Hall Hsum Hnp
      ltac:(vm_compute; reflexivity)) as Hkeys.
  split.
  - apply (proj1 (Hkeys "B")). vm_compute. reflexivity.
  - apply (proj2 (Hkeys "A")). vm_compute. reflexivity.
Defined.

Lemma allowed_run_defined_witness :
  exists rs w', run by_the_rules (fresh_world 2) = Ok (rs, w') /\ tidy w'.
Proof.
  destruct (allowed_run_defined by_the_rules (fresh_world 2)) as (rs & w' & Hr & Ht & _).
  - apply (bool_decide_unpack _). vm_compute. exact I.
  - vm_compute. repeat split; try discriminate.
    + repeat constructor; discriminate.
    + by eexists.
    + intros Hin. apply list_elem_of_singleton in Hin. discriminate.
  - exists rs, w'. split; [exact Hr|exact Ht].
Defined.

Lemma Insert_returns_new_handle_witness :
  exists w', Insert "B" "b" 1 cached_one = Ok (3%positive, w') /\ tidy w'.
Proof.
  destruct (Insert_returns_new_handle cached_one "B" "b" 1) as (w' & Hi & Ht & _).
  - apply (bool_decide_unpack _). vm_compute. exact I.
  - vm_compute. reflexivity.
  - exists w'. split; [exact Hi|exact Ht].
Defined.

Lemma Insert_then_Lookup_witness :
  exists w', Insert "B" "b" 1 cached_one = Ok (3%positive, w') /\ lru_ (this w') <> [].
Proof.
  destruct (Insert_then_Lookup cached_one "B" "b" 1) as (w' & Hi & _ & Hroom).
  - apply (bool_decide_unpack _). vm_compute. exact I.
  - vm_compute. reflexivity.
  - intros q h Hq Hh. vm_compute in Hq. apply list_elem_of_singleton in Hq. subst q.
    vm_compute in Hh. injection Hh as <-. discriminate.
  - exists w'. split; [exact Hi|]. apply Hroom. vm_compute. discriminate.
Defined.

Lemma Erase_unregisters_witness :
  exists w', Erase "A" cached_one = Ok (tt, w') /\ Lookup "A" w' = Ok (None, w').
Proof.
  destruct (Erase_unregisters cached_one "A" 2%positive 1%positive (mkHandle "A" "a" 1 1))
    as (w' & He & _ & _ & _ & _ & _ & _ & Hl & _).
  - apply (bool_decide_unpack _). vm_compute. exact I.
  - vm_compute. reflexivity.
  - vm_compute. reflexivity.
  - vm_compute. reflexivity.
  - exists w'. split; [exact He|exact Hl].
Defined.

Lemma Erase_after_move_undefined_witness :
  exists rs w p w',
    run two_held (fresh_world 2) = Ok (rs, w) /\
    Lookup "A" w = Ok (Some p, w') /\
    Erase "A" w' = UB.
Proof.
  do 4 eexists. split; [vm_compute; reflexivity|]. split; [vm_compute; reflexivity|].
  eapply (Erase_after_move_undefined 2 two_held).
  - vm_compute. reflexivity.
  - vm_compute. reflexivity.
  - vm_compute. discriminate.
Defined.


Lemma Insert_Erase_Release_restores_witness :
  exists w1 w2 w3,
    Insert "B" "b" 1 cached_one = Ok (3%positive, w1) /\
    Erase "B" w1 = Ok (tt, w2) /\
    Release (Some 3%positive) w2 = Ok (tt, w3) /\
    objs (mem w3) = objs (mem cached_one) /\
    this w3 = this cached_one.
Proof.
  destruct (Insert_Erase_Release_restores cached_one "B" "b" 1)
    as (w1 & w2 & w3 & Hi & He & Hr & _ & Ho & Ht).
  - apply (bool_decide_unpack _). vm_compute. exact I.
  - vm_compute. reflexivity.
  - vm_compute. discriminate.
  - exists w1, w2, w3. repeat split; assumption.
Defined.

Lemma Lookup_Release_front_restores_witness :
  exists w1,
    Lookup "A" cached_one = Ok (Some 1%positive, w1) /\
    Release (Some 1%positive) w1 = Ok (tt, cached_one).
Proof.
  destruct (Lookup_Release_front_restores cached_one "A" 2%positive 1%positive
              (mkHandle "A" "a" 1 1) [])
    as (w1 & Hl & _ & _ & Hr).
  - vm_compute. reflexivity.
  - vm_compute. reflexivity.
  - vm_compute. reflexivity.
  - simpl. lia.
  - vm_compute. reflexivity.
  - exists w1. split; [exact Hl|exact Hr].
Defined.

Lemma Lookup_front_repeatable_witness :
  exists w',
    run (replicate 3 (OLookup "A")) cached_one = Ok (replicate 3 (Some 1%positive), w') /\
    objs (mem w') !! 1%positive = Some (mkHandle "A" "a" 4 1).
Proof.
  destruct (Lookup_front_repeatable 3 cached_one "A" 2%positive 1%positive
              (mkHandle "A" "a" 1 1) [])
    as (w' & Hr & _ & _ & Ho & _).
  - vm_compute. reflexivity.
  - vm_compute. reflexivity.
  - vm_compute. reflexivity.
  - simpl. lia.
  - vm_compute. reflexivity.
  - exists w'. split; [exact Hr|exact Ho].
Defined.

Lemma Destroy_releases_every_entry_witness :
  exists w', Destroy cached_two = Ok (tt, w') /\ objs (mem w') = ∅ /\ usage_ (this w') = 0.
Proof.
  destruct (Destroy_releases_every_entry cached_two) as (w' & Hd & _ & _ & _ & Hall).
  - apply (bool_decide_unpack _). vm_compute. exact I.
  - exists w'. split; [exact Hd|]. apply Hall.
    apply (bool_decide_unpack
             (map_Forall (fun q h => q ∈ (lru_ (this cached_two)).*2 /\ refs h = 1)
                         (objs (mem cached_two)))).
    vm_compute. exact I.
Defined.

Lemma Destroy_after_Prune_undefined_witness :
  exists w', Prune cached_one = Ok (tt, w') /\ Destroy w' = UB.
Proof.
  apply (Destroy_after_Prune_undefined cached_one).
  - apply (bool_decide_unpack _). vm_compute. exact I.
  - exists (2%positive, 1%positive), (mkHandle "A" "a" 1 1).
    split; [vm_compute; left|]. split; vm_compute; reflexivity.
Defined.

Lemma Prune_spares_pinned_witness :
  Prune held_one = Ok (tt, held_one).
Proof.
  destruct (Prune_spares_pinned held_one) as (w' & Hp & _ & _ & Hsame & _).
  - apply (bool_decide_unpack _). vm_compute. exact I.
  - rewrite Hp. f_equal. f_equal. apply Hsame.
    intros n h Hn Hh. vm_compute in Hn. apply list_elem_of_singleton in Hn. subst n.
    vm_compute in Hh. injection Hh as <-. discriminate.
Defined.

Lemma Debug_reads_only_witness :
  Debug cached_one =
  Ok (debug_header (this cached_one) ++ debug_line (mkHandle "A" "a" 1 1), cached_one).
Proof.
  destruct (proj1 (Debug_reads_only cached_one)) as (hs & Hhs & Hd).
  - apply (bool_decide_unpack _). vm_compute. exact I.
  - rewrite Hd. vm_compute in Hhs.
    apply Forall2_cons_inv_l in Hhs as (h & hs' & Hh & Hnil & ->).
    apply Forall2_nil_inv_l in Hnil as ->. injection Hh as <-.
    vm_compute. reflexivity.
Defined.

Lemma evict_loop_terminates_witness :
  evict_loop 5 cached_two = evict_loop 2 cached_two.
Proof.
  apply (proj1 (evict_loop_terminates 5 cached_two ltac:(vm_compute; lia))).
Defined.

Lemma set_capacity_enforced_by_Insert_witness :
  exists w',
    Insert "B" "b" 1 (mkWorld (mem cached_one) (set_capacity 0 (this cached_one)))
      = Ok (3%positive, w') /\
    (usage_ (this w') <= 0 \/ lru_ (this w') = []).
Proof.
  destruct (set_capacity_enforced_by_Insert cached_one 0 "B" "b" 1)
    as (_ & _ & _ & w' & Hi & _ & _ & Hu).
  - apply (bool_decide_unpack _). vm_compute. exact I.
  - vm_compute. reflexivity.
  - exists w'. split; [exact Hi|exact Hu].
Defined.

Lemma constructed_cache_needs_capacity_witness :
  exists w',
    Insert "A" "a" 1 (mkWorld (mkHeap ∅ 1%positive) LRUCache_new) = Ok (1%positive, w') /\
    Lookup "A" w' = Ok (None, w').
Proof.
  destruct (proj1 (constructed_cache_needs_capacity "A" "a" 1 2 ltac:(unfold SIZE_MOD; lia)))
    as (w' & Hi & _ & _ & _ & Hl).
  exists w'. split; [exact Hi|exact Hl].
Defined.

Lemma Shared_Prune_every_shard_witness :
  exists r',
    SharedLRUCache.Prune router_cached_one = Ok (tt, r') /\
    objs (SharedLRUCache.smem r') !! 1%positive = None.
Proof.
  exists (exec_shared SharedLRUCache.Prune router_cached_one).
  split; [vm_compute; reflexivity|].
  destruct (Shared_Prune_every_shard router_cached_one
              (exec_shared SharedLRUCache.Prune router_cached_one))
    as (_ & _ & _ & Hdel).
  - vm_compute. reflexivity.
  - intros s Hs. apply (bool_decide_unpack _).
    revert s Hs. apply Forall_forall. apply (bool_decide_unpack _). vm_compute. exact I.
  - apply (Hdel 1%nat (mkCache 1 2 [(2%positive, 1%positive)] {["A" := 2%positive]})
             (2%positive, 1%positive) (mkHandle "A" "a" 1 1)).
    + lia.
    + vm_compute. reflexivity.
    + left.
    + vm_compute. reflexivity.
    + reflexivity.
Defined.

Lemma Shared_Insert_LookUp_Release_witness :
  exists r1 r2 r3,
    SharedLRUCache.Insert length_hash "A" "a" 1 router = Ok (1%positive, r1) /\
    SharedLRUCache.LookUp length_hash "A" r1 = Ok (Some 1%positive, r2) /\
    SharedLRUCache.Release length_hash (Some 1%positive) r2 = Ok (tt, r3).
Proof.
  destruct (Shared_Insert_LookUp_Release length_hash router "A" "a" 1
              (set_capacity 2 LRUCache_new))
    as (r1 & r2 & r3 & s1 & Hi & Hl & Hr & _).
  - vm_compute. reflexivity.
  - vm_compute. reflexivity.
  - vm_compute. discriminate.
  - exists r1, r2, r3. repeat split; assumption.
Defined.

Lemma init_total_capacity_witness :
  100 <= total_capacity (SharedLRUCache.init (Key:=string) 100) < 116.
Proof.
  apply (init_total_capacity (Key:=string) 100). unfold SIZE_MOD. lia.
Defined.

Lemma Shared_Debug_reads_only_witness :
  exists out, SharedLRUCache.Debug router_cached_one = Ok (out, router_cached_one).
Proof.
  destruct (Shared_Debug_reads_only router_cached_one) as (outs & _ & Hd).
  - vm_compute. reflexivity.
  - intros s Hs. revert s Hs. apply Forall_forall.
    apply (bool_decide_unpack _). vm_compute. exact I.
  - eexists. exact Hd.
Defined.

Lemma shards_do_not_interfere_witness :
  shards_apart length_hash router_cached_one /\
  objs (SharedLRUCache.smem
          (exec_shared (SharedLRUCache.Insert length_hash "BB" "b" 1) router_cached_one))
    !! 1%positive = Some (mkHandle "A" "a" 1 1).
Proof.
  destruct (shards_do_not_interfere (Value:=string) length_hash 32) as [Hinit Hcalls].
  destruct (Hcalls router Hinit) as (Hins & _).
  destruct (Hins "A" "a" 1 1%positive
              (exec_shared (SharedLRUCache.Insert length_hash "A" "a" 1) router)
              ltac:(vm_compute; reflexivity)) as [Hap1 _].
  destruct (Hcalls _ Hap1) as (_ & _ & _ & Hrel).
  destruct (Hrel 1%positive (mkHandle "A" "a" 2 1) tt router_cached_one
              ltac:(vm_compute; reflexivity) ltac:(vm_compute; reflexivity)) as [Hap2 _].
  split; [exact Hap2|].
  destruct (Hcalls _ Hap2) as (Hins2 & _).
  destruct (Hins2 "BB" "b" 1 3%positive
              (exec_shared (SharedLRUCache.Insert length_hash "BB" "b" 1) router_cached_one)
              ltac:(vm_compute; reflexivity)) as [_ Hkept].
  destruct (Hkept 1%nat (mkCache 1 2 [(2%positive, 1%positive)] {["A" := 2%positive]}))
    as [_ Hh].
  - vm_compute. discriminate.
  - vm_compute. reflexivity.
  - apply (Hh 1%positive (mkHandle "A" "a" 1 1)); [vm_compute; left|vm_compute; reflexivity].
Defined.

End FurtherInstances.
